(** * web-research-mcp: content extraction, URL canonicalisation, fetch and
    search aggregation

    A shallow embedding of
    - [packages/mcp/src/server/utils/content.ts] ([cleanWhitespace],
      [truncateAtBoundary], [extractContent], [extractTitle]),
    - [server/utils/url.ts] ([normalizeUrl], [deduplicateUrls]),
    - [server/tools/fetch.ts] ([fetchSinglePage], [fetchPages]),
    - [server/tools/search.ts] ([searchSingleQuery], [parseDdgHtmlResults],
      [multiSearch]),
    - [cli.ts] ([main]) with [installer/index.ts] ([runInstaller]), and
    - of the toolkit, [installer/assembler.ts] ([replacePlaceholders],
      [assembleFile]) and [installer/opencode.ts] ([stripJsoncComments]),
    followed by the properties of the specification that concern them and
    by further properties of the same code.

    Conventions.
    - A JavaScript string is a [string]; every [ascii] stands for one UTF-16
      code unit in the range U+0000..U+00FF.  [length] therefore counts code
      units just as [String.prototype.length] does.
    - A JavaScript number that holds an index or a length is a [Z]; the two
      products [maxChars * 0.7] and [maxChars * 0.8] are evaluated in IEEE-754
      binary64 with the operations of [SpecFloat].
    - An object literal used as a dictionary is the [gmap string _] of its
      own properties; reading it, testing it with [in] and assigning to it
      go through [Obj], which knows what it inherits from [Object.prototype].
      A [Set] of strings is a [gset string].
    - Code of the host (the URL constructor, the HTML parser, Readability,
      the network) is a parameter of the definitions that call it. *)

From Stdlib Require Import ZArith Ascii String SpecFloat Lia DecimalString.
From stdpp Require Import gmap strings list fin_maps.

Local Open Scope Z_scope.

(** ** Exceptions *)

(** [Try A] is the outcome of an expression evaluated inside [try { ... }]:
    a value, or control leaving for the [catch] clause. *)
Inductive Try (A : Type) : Type :=
| Ok (a : A)
| Throw.
Arguments Ok {A} a.
Arguments Throw {A}.

#[global] Instance try_ret : MRet Try := fun _ a => Ok a.

#[global] Instance try_bind : MBind Try := fun _ _ k m =>
  match m with
  | Ok a => k a
  | Throw => Throw
  end.

(** [try { m } catch { handler }] *)
Definition try_catch {A} (m : Try A) (handler : A) : A :=
  match m with
  | Ok a => a
  | Throw => handler
  end.

(** ** Strings *)

Module Js.

Definition LF : ascii := "010"%char.
Definition SP : ascii := " "%char.

(** [s.length] *)
Definition length (s : string) : Z := Z.of_nat (String.length s).

Fixpoint take (n : nat) (s : string) : string :=
  match n, s with
  | S k, String c r => String c (take k r)
  | _, _ => EmptyString
  end.

Fixpoint drop (n : nat) (s : string) : string :=
  match n, s with
  | S k, String _ r => drop k r
  | _, _ => s
  end.

(** A relative index as [slice] resolves it: negative counts from the end,
    everything is clamped to [0 .. length]. *)
Definition clampIndex (n i : Z) : Z :=
  if i <? 0 then Z.max (n + i) 0 else Z.min i n.

(** [s.slice(from, to)] *)
Definition slice (s : string) (from to : Z) : string :=
  let n := length s in
  let a := clampIndex n from in
  let b := clampIndex n to in
  take (Z.to_nat (Z.max (b - a) 0)) (drop (Z.to_nat a) s).

(** [s.slice(from)] *)
Definition sliceFrom (s : string) (from : Z) : string :=
  drop (Z.to_nat (clampIndex (length s) from)) s.

(** [s.startsWith(pat)] *)
Fixpoint startsWith (s pat : string) : bool :=
  match pat, s with
  | EmptyString, _ => true
  | String a p, String b r => Ascii.eqb a b && startsWith r p
  | String _ _, EmptyString => false
  end.

(** [s.endsWith(pat)] *)
Fixpoint endsWith (s pat : string) : bool :=
  match s with
  | EmptyString => String.eqb pat EmptyString
  | String _ r => String.eqb s pat || endsWith r pat
  end.

(** [s.includes(pat)] *)
Fixpoint includes (s pat : string) : bool :=
  startsWith s pat ||
  match s with
  | EmptyString => false
  | String _ r => includes r pat
  end.

(** [s.lastIndexOf(pat)], with the positions of [s] numbered from [i]. *)
Fixpoint lastIndexOfFrom (i : Z) (s pat : string) : Z :=
  match s with
  | EmptyString => if startsWith s pat then i else -1
  | String _ r =>
      let k := lastIndexOfFrom (i + 1) r pat in
      if 0 <=? k then k else if startsWith s pat then i else -1
  end.

Definition lastIndexOf (s pat : string) : Z := lastIndexOfFrom 0 s pat.

(** White space and line terminators of ECMAScript that lie in the modelled
    range: TAB, LF, VT, FF, CR, SPACE and NBSP. *)
Definition isWhiteSpace (c : ascii) : bool :=
  match N_of_ascii c with
  | 9 | 10 | 11 | 12 | 13 | 32 | 160 => true
  | _ => false
  end%N.

Fixpoint trimStart (s : string) : string :=
  match s with
  | EmptyString => EmptyString
  | String c r => if isWhiteSpace c then trimStart r else s
  end.

Fixpoint trimEnd (s : string) : string :=
  match s with
  | EmptyString => EmptyString
  | String c r =>
      match trimEnd r with
      | EmptyString => if isWhiteSpace c then EmptyString else String c EmptyString
      | r' => String c r'
      end
  end.

(** [s.trim()] *)
Definition trim (s : string) : string := trimEnd (trimStart s).

(** [s.toLowerCase()] on U+0000..U+00FF: A-Z and the Latin-1 capitals
    U+00C0..U+00DE other than the multiplication sign. *)
Definition lowerChar (c : ascii) : ascii :=
  let n := N_of_ascii c in
  if ((65 <=? n) && (n <=? 90) ||
      (192 <=? n) && (n <=? 222) && negb (n =? 215))%N
  then ascii_of_N (n + 32) else c.

Fixpoint toLowerCase (s : string) : string :=
  match s with
  | EmptyString => EmptyString
  | String c r => String (lowerChar c) (toLowerCase r)
  end.

(** [s.split(sep)] for a one-character separator. *)
Fixpoint split (sep : ascii) (s : string) : list string :=
  match s with
  | EmptyString => [EmptyString]
  | String c r =>
      if Ascii.eqb c sep then EmptyString :: split sep r
      else match split sep r with
           | h :: t => String c h :: t
           | [] => [String c EmptyString]
           end
  end.

(** [parts.join(sep)] *)
Fixpoint join (sep : string) (parts : list string) : string :=
  match parts with
  | [] => EmptyString
  | [p] => p
  | p :: rest => p +:+ sep +:+ join sep rest
  end.

Fixpoint repeatChar (c : ascii) (n : nat) : string :=
  match n with
  | O => EmptyString
  | S k => String c (repeatChar c k)
  end.

(** [s.replace(/c{k,}/g, repl)]: every maximal run of at least [k] copies of
    [c] becomes [repl]; [run] counts the copies of [c] read since the last
    other character. *)
Fixpoint replaceRuns (c : ascii) (k : nat) (repl : string) (run : nat)
    (s : string) : string :=
  let flush := if (k <=? run)%nat then repl else repeatChar c run in
  match s with
  | EmptyString => flush
  | String a r =>
      if Ascii.eqb a c then replaceRuns c k repl (S run) r
      else flush +:+ String a (replaceRuns c k repl O r)
  end.

(** [s.replace(/c+$/, "")] *)
Fixpoint stripTrailing (c : ascii) (s : string) : string :=
  match s with
  | EmptyString => EmptyString
  | String a r =>
      match stripTrailing c r with
      | EmptyString => if Ascii.eqb a c then EmptyString else String a EmptyString
      | r' => String a r'
      end
  end.

(** A value in a boolean position: the empty string is falsy. *)
Definition truthy (s : string) : bool := negb (String.eqb s EmptyString).

(** [`${n}`] for an integer. *)
Definition numberToString (n : Z) : string :=
  NilZero.string_of_int (Z.to_int n).

End Js.

(** ** Numbers *)

Module Num.

Definition prec : Z := 53.
Definition emax : Z := 1024.

(** The binary64 value of an integer. *)
Definition ofZ (z : Z) : spec_float := binary_normalize prec emax z 0 false.

(** The literals [0.7] and [0.8]: 0x1.6666666666666p-1 and
    0x1.999999999999ap-1. *)
Definition lit_0_7 : spec_float := S754_finite false 6305039478318694 (-53).
Definition lit_0_8 : spec_float := S754_finite false 7205759403792794 (-53).

Definition mul : spec_float -> spec_float -> spec_float := SFmul prec emax.

(** [x > y] *)
Definition gtb (x y : spec_float) : bool := SFltb y x.

End Num.

(** ** content.ts *)

Definition LFLF : string := String Js.LF (String Js.LF EmptyString).

Definition TRUNCATED_MARK : string := LFLF +:+ "[Content truncated...]".
Definition TRUNCATED_MARK_DOTS : string := "..." +:+ TRUNCATED_MARK.

(** Clean up excessive whitespace in text. *)
Definition cleanWhitespace (text : string) : string :=
  let result := text in
  let result := Js.replaceRuns Js.LF 3 LFLF 0 result in
  let result := Js.replaceRuns Js.SP 2 " " 0 result in
  let result :=
    Js.join (String Js.LF EmptyString) (map Js.trim (Js.split Js.LF result)) in
  Js.trim result.

(** [index > maxChars * fraction], in binary64. *)
Definition beyond (index maxChars : Z) (fraction : spec_float) : bool :=
  Num.gtb (Num.ofZ index) (Num.mul (Num.ofZ maxChars) fraction).

(** Truncate text at a natural boundary (paragraph > sentence > word). *)
Definition truncateAtBoundary (text : string) (maxChars : Z) : string :=
  if Js.length text <=? maxChars then text
  else
    let truncated := Js.slice text 0 maxChars in
    let lastPara := Js.lastIndexOf truncated LFLF in
    if beyond lastPara maxChars Num.lit_0_7 then
      Js.trim (Js.slice truncated 0 lastPara) +:+ TRUNCATED_MARK
    else
      let lastSentence :=
        Z.max (Z.max (Js.lastIndexOf truncated ". ")
                     (Js.lastIndexOf truncated "! "))
              (Js.lastIndexOf truncated "? ") in
      if beyond lastSentence maxChars Num.lit_0_7 then
        Js.trim (Js.slice truncated 0 (lastSentence + 1)) +:+ TRUNCATED_MARK
      else
        let lastSpace := Js.lastIndexOf truncated " " in
        if beyond lastSpace maxChars Num.lit_0_8 then
          Js.trim (Js.slice truncated 0 lastSpace) +:+ TRUNCATED_MARK_DOTS
        else
          Js.trim truncated +:+ TRUNCATED_MARK_DOTS.

(** Tags to remove entirely (including their content), in insertion order. *)
Definition REMOVE_TAGS : list string :=
  ["script"; "style"; "nav"; "footer"; "header"; "aside"; "noscript";
   "iframe"; "svg"; "form"; "button"].

(** Class/ID substrings that indicate boilerplate, in insertion order. *)
Definition BOILERPLATE_PATTERNS : list string :=
  ["nav"; "navbar"; "navigation"; "menu"; "sidebar"; "footer"; "header";
   "advertisement"; "ad"; "ads"; "social"; "share"; "comment"; "comments";
   "related"].

(** The part of linkedom and of Readability that content.ts calls.  A
    [Document] is a value: [remove] returns the document without the
    element, and what is read from an element is read in a given document. *)
Class Dom := {
  Document : Type;
  Element : Type;
  (** [parseHTML(html).document] *)
  parseHTML : string -> Try Document;
  (** [new Readability(document.cloneNode(true)).parse()?.textContent] *)
  readabilityText : Document -> Try (option string);
  (** [document.querySelector(selector)] *)
  querySelector : Document -> string -> option Element;
  (** [document.querySelectorAll(selector)] *)
  querySelectorAll : Document -> string -> list Element;
  (** [el.remove()] *)
  remove : Element -> Document -> Document;
  (** [el.getAttribute(name)] *)
  getAttribute : Document -> Element -> string -> option string;
  (** [el.textContent] *)
  textContent : Document -> Element -> option string;
  (** [document.body] *)
  body : Document -> option Element
}.

(** [value || ""] *)
Definition orEmpty (value : option string) : string := default EmptyString value.

Section Content.
Context {dom : Dom}.

Definition truncateIfLonger (cleaned : string) (maxChars : Z) : string :=
  if Js.length cleaned >? maxChars then truncateAtBoundary cleaned maxChars
  else cleaned.

Definition isBoilerplate (document : Document) (el : Element) : bool :=
  let className := Js.toLowerCase (orEmpty (getAttribute document el "class")) in
  let id := Js.toLowerCase (orEmpty (getAttribute document el "id")) in
  existsb (fun pattern => Js.includes className pattern || Js.includes id pattern)
          BOILERPLATE_PATTERNS.

(** Fallback extraction: strips unwanted tags manually. *)
Definition fallbackExtract (html : string) (maxChars : Z) : string :=
  try_catch
    (document ← parseHTML html;
     let document :=
       foldl (fun document tag =>
                foldl (fun document el => remove el document)
                      document (querySelectorAll document tag))
             document REMOVE_TAGS in
     let document :=
       foldl (fun current el =>
                if isBoilerplate current el then remove el current else current)
             document (querySelectorAll document "*") in
     let text := orEmpty (el ← body document; textContent document el) in
     let cleaned := cleanWhitespace text in
     mret (truncateIfLonger cleaned maxChars))
    EmptyString.

(** Extract clean text content from HTML. *)
Definition extractContent (html : string) (maxChars : Z) : string :=
  if negb (Js.truthy html) then EmptyString
  else
    try_catch
      (document ← parseHTML html;
       article ← readabilityText document;
       match article with
       | Some text =>
           if Js.truthy text then
             mret (truncateIfLonger (cleanWhitespace text) maxChars)
           else mret (fallbackExtract html maxChars)
       | None => mret (fallbackExtract html maxChars)
       end)
      (fallbackExtract html maxChars).

(** [value?.trim()] *)
Definition trimmed (value : option string) : option string := Js.trim <$> value.

(** An optional string in a boolean position. *)
Definition present (value : option string) : bool :=
  match value with
  | Some t => Js.truthy t
  | None => false
  end.

Definition OG_TITLE_SELECTOR : string :=
  "meta[property=" +:+ String "034" ("og:title" +:+ String "034" "]").

(** Extract page title from HTML. *)
Definition extractTitle (html : string) : option string :=
  try_catch
    (document ← parseHTML html;
     let titleEl := querySelector document "title" in
     if present (trimmed (el ← titleEl; textContent document el)) then
       mret (trimmed (el ← titleEl; textContent document el))
     else
       let h1 := querySelector document "h1" in
       if present (trimmed (el ← h1; textContent document el)) then
         mret (trimmed (el ← h1; textContent document el))
       else
         match querySelector document OG_TITLE_SELECTOR with
         | Some ogTitle =>
             let content := getAttribute document ogTitle "content" in
             if present (trimmed content) then mret (trimmed content)
             else mret None
         | None => mret None
         end)
    None.

End Content.

(** ** url.ts *)

(** Tracking parameters to remove during URL normalization. *)
Definition TRACKING_PARAMS : gset string :=
  list_to_set
    ["utm_source"; "utm_medium"; "utm_campaign"; "utm_term"; "utm_content";
     "utm_id"; "utm_source_platform"; "utm_creative_format";
     "utm_marketing_tactic"; "fbclid"; "gclid"; "gclsrc"; "dclid"; "gbraid";
     "wbraid"; "msclkid"; "twclid"; "igshid"; "mc_cid"; "mc_eid"; "ref";
     "ref_"; "source"; "src"].

(** What normalizeUrl reads from a parsed [URL]: [searchParams] is the list
    of decoded name/value pairs in the order of the query string. *)
Record URL := {
  protocol : string;
  hostname : string;
  pathname : string;
  searchParams : list (string * string)
}.

Module URLSearchParams.

(** [params.set(name, value)]: the first pair called [name] takes the value
    and the other pairs of that name go; without one, the pair is appended. *)
Fixpoint set (name value : string) (params : list (string * string))
  : list (string * string) :=
  match params with
  | [] => [(name, value)]
  | (k, v) :: rest =>
      if String.eqb k name
      then (k, value) :: filter (fun kv => kv.1 ≠ name) rest
      else (k, v) :: set name value rest
  end.

Definition hexDigit (n : N) : ascii :=
  ascii_of_N (if (n <? 10)%N then 48 + n else 55 + n).

Definition percent (byte : N) : string :=
  String "%" (String (hexDigit (byte / 16)) (String (hexDigit (byte mod 16)) EmptyString)).

(** The application/x-www-form-urlencoded byte serializer, applied to the
    UTF-8 encoding of one code unit. *)
Definition encodeChar (c : ascii) : string :=
  let n := N_of_ascii c in
  if (n =? 32)%N then "+"
  else if ((48 <=? n) && (n <=? 57) || (65 <=? n) && (n <=? 90) ||
           (97 <=? n) && (n <=? 122) ||
           (n =? 42) || (n =? 45) || (n =? 46) || (n =? 95))%N
  then String c EmptyString
  else if (n <? 128)%N then percent n
  else percent (192 + n / 64) +:+ percent (128 + n mod 64).

Fixpoint encode (s : string) : string :=
  match s with
  | EmptyString => EmptyString
  | String c r => encodeChar c +:+ encode r
  end.

(** [params.toString()] *)
Definition toString (params : list (string * string)) : string :=
  Js.join "&" (map (fun kv => encode kv.1 +:+ "=" +:+ encode kv.2) params).

End URLSearchParams.

Section Url.
(** [new URL(url)], which throws on a string it cannot parse. *)
Variable newURL : string -> Try URL.

(** Lowercase and remove www from hostname. *)
Definition normalizedHostname (parsed : URL) : string :=
  let hostname := Js.toLowerCase (hostname parsed) in
  if Js.startsWith hostname "www." then Js.sliceFrom hostname 4 else hostname.

(** Filter out tracking parameters. *)
Definition filteredParams (parsed : URL) : list (string * string) :=
  foldl (fun params kv =>
           if bool_decide (Js.toLowerCase kv.1 ∈ TRACKING_PARAMS) then params
           else URLSearchParams.set kv.1 kv.2 params)
        [] (searchParams parsed).

(** Remove trailing slash from pathname (but keep root /). *)
Definition normalizedPathname (parsed : URL) : string :=
  let pathname := pathname parsed in
  if negb (String.eqb pathname "/") && Js.endsWith pathname "/"
  then Js.stripTrailing "/" pathname
  else pathname.

(** Normalize a URL for deduplication. *)
Definition normalizeUrl (url : string) : string :=
  try_catch
    (parsed ← newURL url;
     let hostname := normalizedHostname parsed in
     let params := filteredParams parsed in
     let pathname := normalizedPathname parsed in
     let query := URLSearchParams.toString params in
     mret (protocol parsed +:+ "//" +:+ hostname +:+ pathname +:+
           (if Js.truthy query then "?" +:+ query else EmptyString)))
    url.

(** The loop of deduplicateUrls: [seen] and [unique] after the URLs read so
    far, then the rest of the input. *)
Fixpoint deduplicateLoop (seen : gset string) (unique : list string)
    (urls : list string) : list string :=
  match urls with
  | [] => unique
  | url :: rest =>
      let normalized := normalizeUrl url in
      if bool_decide (normalized ∈ seen) then deduplicateLoop seen unique rest
      else deduplicateLoop ({[normalized]} ∪ seen) (unique ++ [url]) rest
  end.

(** Deduplicate URLs using normalization. *)
Definition deduplicateUrls (urls : list string) : list string :=
  deduplicateLoop ∅ [] urls.

End Url.

(** ** Object literals used as dictionaries *)

Module Obj.

(** The names of the properties of [Object.prototype], which every object
    literal inherits: those of ECMAScript and of its Annex B. *)
Definition PROTOTYPE_NAMES : list string :=
  ["constructor"; "__defineGetter__"; "__defineSetter__"; "hasOwnProperty";
   "__lookupGetter__"; "__lookupSetter__"; "isPrototypeOf";
   "propertyIsEnumerable"; "toString"; "valueOf"; "__proto__";
   "toLocaleString"].

(** [key in object], for the own properties [object] of an object literal
    whose prototype is [Object.prototype]. *)
Definition has {V} (key : string) (object : gmap string V) : bool :=
  bool_decide (is_Some (object !! key)) || bool_decide (key ∈ PROTOTYPE_NAMES).

(** [object[key] = value] for a value that is not an object: an own property
    is created or overwritten, except under the key [__proto__], which is an
    accessor of [Object.prototype] whose setter ignores such a value. *)
Definition assign {V} (key : string) (value : V) (object : gmap string V)
  : gmap string V :=
  if String.eqb key "__proto__" then object else <[key := value]> object.

(** What [object[key]] evaluates to, for an object literal that holds
    strings: the own value, the member of [Object.prototype] of that name
    (a function, or the prototype itself for [__proto__]), or undefined. *)
Inductive Value :=
| Str (s : string)
| Inherited (name : string)
| Undefined.

Definition get (key : string) (object : gmap string string) : Value :=
  match object !! key with
  | Some s => Str s
  | None => if bool_decide (key ∈ PROTOTYPE_NAMES) then Inherited key else Undefined
  end.

(** [value || ""]: the members of [Object.prototype] are truthy. *)
Definition orEmptyString (value : Value) : Value :=
  match value with
  | Str s => if Js.truthy s then Str s else Str EmptyString
  | Inherited name => Inherited name
  | Undefined => Str EmptyString
  end.

(** An object literal that holds objects: its own properties, and the object
    that an assignment to [__proto__] has made its prototype, if there was
    one. *)
Record Dict (V : Type) := { own : gmap string V; prototype : option V }.
Arguments own {V} _.
Arguments prototype {V} _.

Definition empty {V} : Dict V := {| own := ∅; prototype := None |}.

(** [object[key] = value] for a value that is an object: under the key
    [__proto__] the setter of [Object.prototype] makes [value] the prototype
    of [object] and creates no own property. *)
Definition assignObject {V} (key : string) (value : V) (object : Dict V) : Dict V :=
  if String.eqb key "__proto__"
  then {| own := own object; prototype := Some value |}
  else {| own := <[key := value]> (own object); prototype := prototype object |}.

End Obj.

(** ** fetch.ts *)

(** A value thrown or a promise rejection: an [Error] with its name and
    message, or anything else with its [String(...)] rendering. *)
Inductive Thrown :=
| ErrorObject (name message : string)
| OtherValue (rendering : string).

Inductive Settled (A : Type) : Type :=
| Fulfilled (a : A)
| Rejected (reason : Thrown).
Arguments Fulfilled {A} a.
Arguments Rejected {A} reason.

Module Fetch.

(** What fetchSinglePage reads from a [Response]. *)
Record Response := {
  ok : bool;
  status : Z;
  contentType : option string;   (* headers.get("content-type") *)
  text : Settled string          (* await response.text() *)
}.

Record PageResult := {
  content : option string;
  title : option string;
  error : option string
}.

Record FetchResult := {
  contents : gmap string string;
  titles : gmap string string;
  errors : gmap string string;
  successCount : Z;
  errorCount : Z
}.

Definition failure (message : string) : PageResult :=
  {| content := None; title := None; error := Some message |}.

Section WithDom.
Context {dom : Dom}.

(** The [catch (error)] clause of fetchSinglePage. *)
Definition onThrown (timeout : Z) (reason : Thrown) : PageResult :=
  match reason with
  | ErrorObject name message =>
      if String.eqb name "AbortError"
      then failure ("Request timed out after " +:+ Js.numberToString timeout +:+ "s")
      else failure message
  | OtherValue rendering => failure rendering
  end.

(** Fetch a single page and extract content; [outcome] is how
    [await fetch(url, ...)] settled. *)
Definition fetchSinglePage (url : string) (timeout maxChars : Z)
    (outcome : Settled Response) : PageResult :=
  match outcome with
  | Rejected reason => onThrown timeout reason
  | Fulfilled response =>
      if negb (ok response) then
        failure ("HTTP " +:+ Js.numberToString (status response))
      else
        let contentType := orEmpty (contentType response) in
        if negb (Js.includes contentType "text/html") &&
           negb (Js.includes contentType "application/xhtml")
        then failure ("Non-HTML content type: " +:+ contentType)
        else
          match text response with
          | Rejected reason => onThrown timeout reason
          | Fulfilled html =>
              {| content := Some (extractContent html maxChars);
                 title := extractTitle html;
                 error := None |}
          end
  end.

(** One round of the loop that organizes the results. *)
Definition organize
    (acc : gmap string string * gmap string string * gmap string string)
    (entry : string * PageResult)
  : gmap string string * gmap string string * gmap string string :=
  let '(contents, titles, errors) := acc in
  let '(url, result) := entry in
  if present (error result) then
    (contents, titles, Obj.assign url (orEmpty (error result)) errors)
  else
    let contents :=
      if present (content result)
      then Obj.assign url (orEmpty (content result)) contents else contents in
    let titles :=
      if present (title result)
      then Obj.assign url (orEmpty (title result)) titles else titles in
    (contents, titles, errors).

(** Fetch multiple pages in parallel and extract content; [network i url] is
    how the request for [urls[i]] settled. *)
Definition fetchPages (urls : list string) (maxChars timeout : Z)
    (network : nat -> string -> Settled Response) : FetchResult :=
  if bool_decide (urls = []) then
    {| contents := ∅; titles := ∅; errors := ∅;
       successCount := 0; errorCount := 0 |}
  else
    let results :=
      imap (fun i url => fetchSinglePage url timeout maxChars (network i url))
           urls in
    let '(contents, titles, errors) :=
      foldl organize (∅, ∅, ∅) (zip urls results) in
    {| contents := contents; titles := titles; errors := errors;
       successCount := Z.of_nat (size contents);
       errorCount := Z.of_nat (size errors) |}.

End WithDom.
End Fetch.

(** ** search.ts *)

Module Search.

Record Hit := { url : string; title : string; snippet : string }.

Record SearchResult := {
  urls : list string;
  snippets : gmap string Obj.Value;
  titles : gmap string Obj.Value;
  queryResults : Obj.Dict (list string)
}.

(** Delay between sequential queries (ms). *)
Definition INTER_QUERY_DELAY_MS : Z := 400.

(** The promise that a call of searchSingleQuery returns: the number of the
    request that the call has issued, and the query it was issued for. *)
Record Promise := { request : nat; asked : string }.

(** What multiSearch does with its promises.  A program returns, or awaits
    [delay(ms)] and goes on, or calls [searchSingleQuery(query, maxResults)],
    which issues the request and returns a promise at once, or awaits such a
    promise and goes on with the hits it resolved to. *)
Inductive Async (A : Type) : Type :=
| Return (a : A)
| AwaitDelay (ms : Z) (next : Async A)
| CallSearch (query : string) (maxResults : Z) (next : Promise -> Async A)
| AwaitSearch (promise : Promise) (next : list Hit -> Async A).
Arguments Return {A} a.
Arguments AwaitDelay {A} ms next.
Arguments CallSearch {A} query maxResults next.
Arguments AwaitSearch {A} promise next.

(** What an observer of the event loop sees: a delay has elapsed, a request
    goes out, the program is resumed with the result of a request. *)
Inductive Event :=
| DelayElapsed (ms : Z)
| RequestIssued (query : string) (maxResults : Z)
| RequestCompleted (query : string).

(** Running a program against a search endpoint: [n] requests have been
    issued so far, and [endpoint n query] are the hits that the [n]-th
    request, made for [query], resolves to. *)
Fixpoint run {A} (endpoint : nat -> string -> list Hit) (n : nat)
    (program : Async A) : list Event * A :=
  match program with
  | Return a => ([], a)
  | AwaitDelay ms next =>
      let '(events, a) := run endpoint n next in
      (DelayElapsed ms :: events, a)
  | CallSearch query maxResults next =>
      let '(events, a) :=
        run endpoint (S n) (next {| request := n; asked := query |}) in
      (RequestIssued query maxResults :: events, a)
  | AwaitSearch promise next =>
      let '(events, a) :=
        run endpoint n (next (endpoint (request promise) (asked promise))) in
      (RequestCompleted (asked promise) :: events, a)
  end.

(** The state of the loop that collects URLs with metadata. *)
Record Collected := {
  urlToSnippet : gmap string string;
  urlToTitle : gmap string string;
  queryToUrls : Obj.Dict (list string);
  allUrls : list string
}.

Definition noneCollected : Collected :=
  {| urlToSnippet := ∅; urlToTitle := ∅; queryToUrls := Obj.empty; allUrls := [] |}.

(** The body of [for (const result of results)]; [queryUrls] is threaded
    next to the collected state. *)
Definition collectHit (state : Collected * list string) (result : Hit)
  : Collected * list string :=
  let '(c, queryUrls) := state in
  if negb (Js.truthy (url result)) then state
  else
    let first := negb (Obj.has (url result) (urlToSnippet c)) in
    ({| urlToSnippet :=
          if first then Obj.assign (url result) (snippet result) (urlToSnippet c)
          else urlToSnippet c;
        urlToTitle :=
          if first then Obj.assign (url result) (title result) (urlToTitle c)
          else urlToTitle c;
        queryToUrls := queryToUrls c;
        allUrls := allUrls c ++ [url result] |},
     queryUrls ++ [url result]).

(** The body of [for (let i = 0; i < queries.length; i++)]. *)
Definition collectQuery (c : Collected) (entry : string * list Hit) : Collected :=
  let '(query, results) := entry in
  let '(c, queryUrls) := foldl collectHit (c, []) results in
  {| urlToSnippet := urlToSnippet c;
     urlToTitle := urlToTitle c;
     queryToUrls := Obj.assignObject query queryUrls (queryToUrls c);
     allUrls := allUrls c |}.

(** [Object.fromEntries(entries)], which defines an own property for every
    entry, whatever its key. *)
Definition fromEntries {V} (entries : list (string * V)) : gmap string V :=
  foldl (fun object kv => <[kv.1 := kv.2]> object) ∅ entries.

Section WithHost.
Variable newURL : string -> Try URL.

(** Execute searches sequentially with delay to avoid rate limiting: the
    rounds [i], [i + 1], ... of the first loop, for the queries that remain. *)
Fixpoint searchFrom {A} (i : Z) (queries : list string) (resultsPerQuery : Z)
    (allResults : list (list Hit)) (rest : list (list Hit) -> Async A)
  : Async A :=
  match queries with
  | [] => rest allResults
  | query :: later =>
      let search :=
        CallSearch query resultsPerQuery (fun promise =>
          AwaitSearch promise (fun results =>
            searchFrom (i + 1) later resultsPerQuery (allResults ++ [results]) rest)) in
      if 0 <? i then AwaitDelay INTER_QUERY_DELAY_MS search else search
  end.

(** What multiSearch does once every search has resolved. *)
Definition aggregate (queries : list string) (allResults : list (list Hit))
  : SearchResult :=
  let c := foldl collectQuery noneCollected (zip queries allResults) in
  let uniqueUrls := deduplicateUrls newURL (allUrls c) in
  {| urls := uniqueUrls;
     snippets :=
       fromEntries
         (map (fun url => (url, Obj.orEmptyString (Obj.get url (urlToSnippet c))))
              uniqueUrls);
     titles :=
       fromEntries
         (map (fun url => (url, Obj.orEmptyString (Obj.get url (urlToTitle c))))
              uniqueUrls);
     queryResults := queryToUrls c |}.

(** Search using multiple queries and return deduplicated results. *)
Definition multiSearch (queries : list string) (resultsPerQuery : Z)
  : Async SearchResult :=
  if bool_decide (queries = []) then
    Return {| urls := []; snippets := ∅; titles := ∅; queryResults := Obj.empty |}
  else
    searchFrom 0 queries resultsPerQuery []
      (fun allResults => Return (aggregate queries allResults)).

End WithHost.
End Search.

(** ** search.ts: one query *)

(** What parseDdgHtmlResults needs beyond [Dom]: a query below an element. *)
Class ResultDom := {
  resultDom :: Dom;
  (** [el.querySelector(selector)] *)
  querySelectorWithin : Document -> Element -> string -> option Element
}.

Module SearchPage.

Definition AD_REDIRECT : string := "https://duckduckgo.com/y.js?".

Section WithDom.
Context `{host : ResultDom}.

(** The body of [for (const div of resultDivs)] after the test of the
    limit: the hit of [div], or nothing where the loop says [continue] or
    does not push. *)
Definition hitOf (document : Document) (div : Element) : option Search.Hit :=
  match querySelectorWithin document div "a.result__a" with
  | None => None
  | Some linkEl =>
      let href := orEmpty (getAttribute document linkEl "href") in
      if negb (Js.truthy href) || Js.startsWith href AD_REDIRECT then None
      else
        let title := Js.trim (orEmpty (textContent document linkEl)) in
        let snippetEl := querySelectorWithin document div ".result__snippet" in
        let snippet :=
          match snippetEl with
          | Some el => Js.trim (orEmpty (textContent document el))
          | None => EmptyString
          end in
        if Js.truthy href && Js.truthy title
        then Some {| Search.url := href; Search.title := title;
                     Search.snippet := snippet |}
        else None
  end.

(** The loop over the result divs, with [results] as collected so far. *)
Fixpoint scanResults (document : Document) (maxResults : Z)
    (results : list Search.Hit) (divs : list Element) : list Search.Hit :=
  match divs with
  | [] => results
  | div :: rest =>
      if Z.of_nat (length results) >=? maxResults then results
      else
        match hitOf document div with
        | Some hit => scanResults document maxResults (results ++ [hit]) rest
        | None => scanResults document maxResults results rest
        end
  end.

(** Parse search results from DuckDuckGo's HTML response. *)
Definition parseDdgHtmlResults (html : string) (maxResults : Z)
  : Try (list Search.Hit) :=
  document ← parseHTML html;
  let resultDivs := querySelectorAll document ".result" in
  mret (scanResults document maxResults [] resultDivs).

(** Execute a single DuckDuckGo search; [outcome] is how the POST request
    settled.  What the function writes to the console is left out. *)
Definition searchSingleQuery (query : string) (maxResults : Z)
    (outcome : Settled Fetch.Response) : list Search.Hit :=
  match outcome with
  | Rejected _ => []
  | Fulfilled response =>
      if negb (Fetch.ok response) then []
      else
        match Fetch.text response with
        | Rejected _ => []
        | Fulfilled html => try_catch (parseDdgHtmlResults html maxResults) []
        end
  end.

End WithDom.
End SearchPage.

(** ** cli.ts and installer/index.ts *)

Module Cli.

Definition SUPPORTED_PLATFORMS : list string := ["claude-code"; "opencode"].

(** What a run of the command line does, in order.  The help and version
    texts are not spelled out. *)
Inductive Effect :=
| WriteHelp
| WriteVersion
| ConsoleError (line : string)
| ProcessExit (code : Z)
| StartServer
| InstallClaudeCode
| InstallOpenCode.

Definition QUOTE : string := String "034" EmptyString.

(** [args[i]] is falsy when it is missing or the empty string. *)
Definition argument (args : list string) (i : nat) : option string :=
  match args !! i with
  | Some value => if Js.truthy value then Some value else None
  | None => None
  end.

Definition runInstaller (platform : string) : list Effect :=
  if String.eqb platform "claude-code" then [InstallClaudeCode]
  else if String.eqb platform "opencode" then [InstallOpenCode]
  else [ConsoleError ("Unknown platform: " +:+ platform); ProcessExit 1].

(** [main()] for the arguments [process.argv.slice(2)]; its effects end with
    the first [process.exit]. *)
Definition main (args : list string) : list Effect :=
  if bool_decide ("--help" ∈ args) || bool_decide ("-h" ∈ args) then
    [WriteHelp; ProcessExit 0]
  else if bool_decide ("--version" ∈ args) || bool_decide ("-v" ∈ args) then
    [WriteVersion; ProcessExit 0]
  else
    match argument args 0 with
    | None => [StartServer]
    | Some command =>
        if String.eqb command "install" then
          match argument args 1 with
          | None =>
              [ConsoleError "Error: Missing platform argument.";
               ConsoleError "";
               ConsoleError "Usage: web-research-mcp install <claude-code|opencode>";
               ConsoleError "";
               ConsoleError "Platforms:";
               ConsoleError "  claude-code    Install for Claude Code";
               ConsoleError "  opencode       Install for OpenCode";
               ProcessExit 1]
          | Some platform =>
              if negb (bool_decide (platform ∈ SUPPORTED_PLATFORMS)) then
                [ConsoleError ("Error: Unknown platform " +:+ QUOTE +:+ platform
                               +:+ QUOTE +:+ ".");
                 ConsoleError "";
                 ConsoleError ("Supported platforms: " +:+
                               Js.join ", " SUPPORTED_PLATFORMS);
                 ProcessExit 1]
              else runInstaller platform
          end
        else
          [ConsoleError ("Error: Unknown command " +:+ QUOTE +:+ command
                         +:+ QUOTE +:+ ".");
           ConsoleError "";
           ConsoleError "Run 'web-research-mcp --help' for usage information.";
           ProcessExit 1]
    end.

End Cli.

(** ** Vocabulary of the properties *)

(** [pat] occurs in [s] at position [p]. *)
Definition occursAt (pat s : string) (p : Z) : Prop :=
  exists before after,
    s = before +:+ pat +:+ after /\ Js.length before = p.

(** [p] is the last position of [s] at which one of [pats] occurs. *)
Definition lastOccurrence (pats : list string) (s : string) (p : Z) : Prop :=
  (exists pat, pat ∈ pats /\ occursAt pat s p) /\
  (forall pat q, pat ∈ pats -> occursAt pat s q -> q <= p).

(** The tier of [pats] is passed over: the last occurrence, if there is one,
    does not lie beyond [maxChars * fraction]. *)
Definition passedOver (pats : list string) (fraction : spec_float)
    (cut : string) (maxChars : Z) : Prop :=
  forall p, lastOccurrence pats cut p -> beyond p maxChars fraction = false.

Definition PARAGRAPH_BREAK : list string := [LFLF].
Definition SENTENCE_END : list string := [". "; "! "; "? "].
Definition WORD_BREAK : list string := [" "].

(** The boundary chosen in the hard cut [cut]: the prefix that is kept and
    the marker that is appended. *)
Inductive Boundary (cut : string) (maxChars : Z) : string -> string -> Prop :=
| AtParagraph p :
    lastOccurrence PARAGRAPH_BREAK cut p ->
    beyond p maxChars Num.lit_0_7 = true ->
    Boundary cut maxChars (Js.take (Z.to_nat p) cut) TRUNCATED_MARK
| AtSentence p :
    passedOver PARAGRAPH_BREAK Num.lit_0_7 cut maxChars ->
    lastOccurrence SENTENCE_END cut p ->
    beyond p maxChars Num.lit_0_7 = true ->
    Boundary cut maxChars (Js.take (Z.to_nat (p + 1)) cut) TRUNCATED_MARK
| AtWord p :
    passedOver PARAGRAPH_BREAK Num.lit_0_7 cut maxChars ->
    passedOver SENTENCE_END Num.lit_0_7 cut maxChars ->
    lastOccurrence WORD_BREAK cut p ->
    beyond p maxChars Num.lit_0_8 = true ->
    Boundary cut maxChars (Js.take (Z.to_nat p) cut) TRUNCATED_MARK_DOTS
| AtCut :
    passedOver PARAGRAPH_BREAK Num.lit_0_7 cut maxChars ->
    passedOver SENTENCE_END Num.lit_0_7 cut maxChars ->
    passedOver WORD_BREAK Num.lit_0_8 cut maxChars ->
    Boundary cut maxChars cut TRUNCATED_MARK_DOTS.

(** The greatest of the [lastIndexOf] of several patterns. *)
Definition lastIndexOfAny (s : string) (pats : list string) : Z :=
  foldr (fun pat k => Z.max (Js.lastIndexOf s pat) k) (-1) pats.

(** The results of the host's [URL] constructor on the strings used in the
    examples, after the WHATWG URL Standard.  The first group are URLs with
    a special scheme; ["data:<b>"] has an opaque path, no host and no query.
    Every string that is not in the table stands for one that the
    constructor rejects; of those, the examples use ["not-a-url"] (no
    scheme) and ["data://<b>"] (the host contains the forbidden code point
    U+003C). *)
Definition exampleTable : list (string * URL) :=
  [("https://example.com/",
    {| protocol := "https:"; hostname := "example.com"; pathname := "/";
       searchParams := [] |});
   ("https://WWW.Example.COM/Page/",
    {| protocol := "https:"; hostname := "www.example.com"; pathname := "/Page/";
       searchParams := [] |});
   ("https://example.com/page//",
    {| protocol := "https:"; hostname := "example.com"; pathname := "/page//";
       searchParams := [] |});
   ("https://example.com/p?utm_source=x&id=1",
    {| protocol := "https:"; hostname := "example.com"; pathname := "/p";
       searchParams := [("utm_source", "x"); ("id", "1")] |});
   ("https://example.com/p?tag=a&tag=b",
    {| protocol := "https:"; hostname := "example.com"; pathname := "/p";
       searchParams := [("tag", "a"); ("tag", "b")] |});
   ("https://a.com/x",
    {| protocol := "https:"; hostname := "a.com"; pathname := "/x";
       searchParams := [] |});
   ("https://www.a.com/x",
    {| protocol := "https:"; hostname := "www.a.com"; pathname := "/x";
       searchParams := [] |});
   ("https://b.com/x",
    {| protocol := "https:"; hostname := "b.com"; pathname := "/x";
       searchParams := [] |});
   ("data:<b>",
    {| protocol := "data:"; hostname := ""; pathname := "<b>";
       searchParams := [] |})].

Definition exampleURL (url : string) : Try URL :=
  match list_find (fun row => row.1 = url) exampleTable with
  | Some (_, row) => Ok row.2
  | None => Throw
  end.

(** A query parameter that normalizeUrl is to keep. *)
Definition kept (param : string * string) : Prop :=
  Js.toLowerCase param.1 ∉ TRACKING_PARAMS.

(** ** A host for the examples

    A document is the tree of its root element, an element is the path that
    leads to it from the root, and removing an element leaves an empty text
    node in its place, so that the paths of the other elements stay valid.
    Selectors are the ones content.ts uses: a tag name, ["*"] and the
    attribute selector of the Open Graph title. *)
Inductive Node :=
| Text (data : string)
| Elem (tag : string) (attributes : list (string * string)) (children : list Node).

Fixpoint nodeText (node : Node) : string :=
  match node with
  | Text data => data
  | Elem _ _ children =>
      (fix all (nodes : list Node) : string :=
         match nodes with
         | [] => EmptyString
         | child :: rest => nodeText child +:+ all rest
         end) children
  end.

(** The elements below (and including) [node], in document order. *)
Fixpoint elementPaths (node : Node) : list (list nat) :=
  match node with
  | Text _ => []
  | Elem _ _ children =>
      [] :: (fix each (i : nat) (nodes : list Node) : list (list nat) :=
               match nodes with
               | [] => []
               | child :: rest =>
                   map (cons i) (elementPaths child) ++ each (S i) rest
               end) O children
  end.

Fixpoint nodeAt (path : list nat) (node : Node) : option Node :=
  match path, node with
  | [], _ => Some node
  | i :: rest, Elem _ _ children => child ← children !! i; nodeAt rest child
  | _ :: _, Text _ => None
  end.

Fixpoint replaceAt (path : list nat) (new node : Node) : Node :=
  match path, node with
  | [], _ => new
  | i :: rest, Elem tag attributes children =>
      Elem tag attributes (alter (replaceAt rest new) i children)
  | _ :: _, Text _ => node
  end.

Definition attributeOf (name : string) (node : Node) : option string :=
  match node with
  | Elem _ attributes _ =>
      snd <$> find (fun kv => String.eqb kv.1 name) attributes
  | Text _ => None
  end.

Definition matchesSelector (selector : string) (node : Node) : bool :=
  match node with
  | Elem tag _ _ =>
      if String.eqb selector "*" then true
      else if String.eqb selector OG_TITLE_SELECTOR
      then String.eqb tag "meta" &&
           bool_decide (attributeOf "property" node = Some "og:title")
      else String.eqb tag selector
  | Text _ => false
  end.

Definition selectAll (root : Node) (selector : string) : list (list nat) :=
  filter (fun path => from_option (matchesSelector selector) false (nodeAt path root))
         (elementPaths root).

(** The documents of the examples, as an HTML parser builds them. *)
Definition exampleDocuments : list (string * Node) :=
  [("<html><head><title>Good</title></head><body><p>Content</p></body></html>",
    Elem "html" []
      [Elem "head" [] [Elem "title" [] [Text "Good"]];
       Elem "body" [] [Elem "p" [] [Text "Content"]]]);
   ("<html><body><p>Main content</p><script>alert('x');</script></body></html>",
    Elem "html" []
      [Elem "body" []
         [Elem "p" [] [Text "Main content"];
          Elem "script" [] [Text "alert('x');"]]]);
   ("<html><body><div class=" +:+ String "034" ("Sidebar" +:+ String "034"
      "><p>Links</p></div><h1> Heading </h1></body></html>"),
    Elem "html" []
      [Elem "body" []
         [Elem "div" [("class", "Sidebar")] [Elem "p" [] [Text "Links"]];
          Elem "h1" [] [Text " Heading "]]]);
   ("<html><body><p>a" +:+ String Js.LF (" " +:+ String Js.LF (" " +:+
      String Js.LF "b</p></body></html>")),
    Elem "html" []
      [Elem "body" []
         [Elem "p" []
            [Text ("a" +:+ String Js.LF (" " +:+ String Js.LF (" " +:+
                   String Js.LF "b")))]]])].

(** The host of the examples: the parser knows the documents above and
    throws on any other input, and Readability finds no article, so that
    extractContent goes on to fallbackExtract. *)
#[global] Instance exampleDom : Dom := {|
  Document := Node;
  Element := list nat;
  parseHTML html :=
    match list_find (fun row => row.1 = html) exampleDocuments with
    | Some (_, row) => Ok row.2
    | None => Throw
    end;
  readabilityText _ := Ok None;
  querySelector document selector := head (selectAll document selector);
  querySelectorAll document selector := selectAll document selector;
  remove el document := replaceAt el (Text EmptyString) document;
  getAttribute document el name := node ← nodeAt el document; attributeOf name node;
  textContent document el := nodeText <$> nodeAt el document;
  body document := head (selectAll document "body")
|}.


(** The two ways in which fetchPages records a page. *)
Definition failed (result : Fetch.PageResult) : Prop :=
  present (Fetch.error result) = true.

Definition succeeded (result : Fetch.PageResult) : Prop :=
  present (Fetch.error result) = false /\ present (Fetch.content result) = true.

(** A response as the test suite mocks it. *)
Definition htmlResponse (status : Z) (html : string) : Settled Fetch.Response :=
  Fulfilled {| Fetch.ok := bool_decide (200 <= status < 300);
               Fetch.status := status;
               Fetch.contentType := Some "text/html";
               Fetch.text := Fulfilled html |}.

(** The hits that the requests [n], [n + 1], ..., made for [queries] in
    this order, resolve to. *)
Fixpoint responses (endpoint : nat -> string -> list Search.Hit) (n : nat)
    (queries : list string) : list (list Search.Hit) :=
  match queries with
  | [] => []
  | query :: later => endpoint n query :: responses endpoint (S n) later
  end.

(** One request after the other, in the order of [queries]: each is issued
    and completed, and before every request but the first 400 ms elapse. *)
Definition schedule (queries : list string) (resultsPerQuery : Z)
  : list Search.Event :=
  match queries with
  | [] => []
  | first :: later =>
      [Search.RequestIssued first resultsPerQuery; Search.RequestCompleted first] ++
      flat_map (fun query =>
                  [Search.DelayElapsed 400;
                   Search.RequestIssued query resultsPerQuery;
                   Search.RequestCompleted query])
               later
  end.

(** A program that is not multiSearch: it calls searchSingleQuery for two
    queries and only then awaits the two promises, as
    [Promise.all(queries.map(...))] would. *)
Definition searchTogether (first second : string) (resultsPerQuery : Z)
  : Search.Async (list (list Search.Hit)) :=
  Search.CallSearch first resultsPerQuery (fun promise1 =>
    Search.CallSearch second resultsPerQuery (fun promise2 =>
      Search.AwaitSearch promise1 (fun results1 =>
        Search.AwaitSearch promise2 (fun results2 =>
          Search.Return [results1; results2])))).

(** The first hit for [url] among the results of all queries, in the order
    of the queries and then of the result pages. *)
Definition firstHit (allResults : list (list Search.Hit)) (url : string)
  : option Search.Hit :=
  find (fun hit => String.eqb (Search.url hit) url) (concat allResults).

(** What the collecting loop has recorded after the hits [seen]: for every
    URL that is not the name of a member of [Object.prototype], the snippet
    and the title of its first hit; nothing for such a name; and only URLs
    that are not empty. *)
Definition collectedFrom (c : Search.Collected) (seen : list Search.Hit) : Prop :=
  (forall url, url <> EmptyString ->
     let first := find (fun hit => String.eqb (Search.url hit) url) seen in
     Search.urlToSnippet c !! url =
       (if bool_decide (url ∈ Obj.PROTOTYPE_NAMES) then None
        else Search.snippet <$> first) /\
     Search.urlToTitle c !! url =
       (if bool_decide (url ∈ Obj.PROTOTYPE_NAMES) then None
        else Search.title <$> first)) /\
  Forall (fun url => url <> EmptyString) (Search.allUrls c).

(** The URLs of [urls] whose key no earlier URL of [urls] has, in the order
    of [urls]. *)
Definition firstAppearances (key : string -> string) (urls : list string)
  : list string :=
  omap id
    (imap (fun i url =>
             if decide (key url ∈ key <$> take i urls) then None else Some url)
          urls).

(** A binary64 value that is not below zero (or is not a number). *)
Definition notNegative (x : spec_float) : Prop :=
  match x with
  | S754_finite s _ _ | S754_infinity s => s = false
  | _ => True
  end.

(** No two spaces follow one another in [s]. *)
Fixpoint singleSpaced (s : string) : bool :=
  match s with
  | String a (String b _ as rest) =>
      negb (Ascii.eqb a Js.SP && Ascii.eqb b Js.SP) && singleSpaced rest
  | _ => true
  end.

(** [s] does not begin with a space. *)
Definition noLeadingSpace (s : string) : bool :=
  match s with
  | String a _ => negb (Ascii.eqb a Js.SP)
  | EmptyString => true
  end.

#[global] Instance kept_dec (param : string * string) : Decision (kept param).
Proof. unfold kept. apply _. Defined.

(** One round of the loop of normalizeUrl that copies the parameters. *)
Definition copyParam (params : list (string * string)) (param : string * string)
  : list (string * string) :=
  if bool_decide (Js.toLowerCase param.1 ∈ TRACKING_PARAMS) then params
  else URLSearchParams.set param.1 param.2 params.

(** A hit as parseDdgHtmlResults pushes it. *)
Definition wellFormedHit (hit : Search.Hit) : Prop :=
  Search.url hit <> EmptyString /\
  Js.startsWith (Search.url hit) SearchPage.AD_REDIRECT = false /\
  Search.title hit <> EmptyString /\
  Js.trim (Search.title hit) = Search.title hit /\
  Js.trim (Search.snippet hit) = Search.snippet hit.

(** The URLs that multiSearch takes from the hits of one query. *)
Definition hitUrls (hits : list Search.Hit) : list string :=
  filter (fun url => url <> EmptyString) (Search.url <$> hits).

(** What a result element has to be like to give the hit [hit]: its link
    [a.result__a] has an href that is not empty and is not an ad redirect,
    which is the URL; the text of the link, trimmed, is not empty and is the
    title; the snippet is the trimmed text of [.result__snippet], or empty
    where there is no such element. *)
Definition givesHit `{host : ResultDom} (document : @Document resultDom)
    (div : @Element resultDom) (hit : Search.Hit) : Prop :=
  exists linkEl,
    querySelectorWithin document div "a.result__a" = Some linkEl /\
    Search.url hit = orEmpty (getAttribute document linkEl "href") /\
    Search.url hit <> EmptyString /\
    Js.startsWith (Search.url hit) "https://duckduckgo.com/y.js?" = false /\
    Search.title hit = Js.trim (orEmpty (textContent document linkEl)) /\
    Search.title hit <> EmptyString /\
    Search.snippet hit =
      match querySelectorWithin document div ".result__snippet" with
      | Some el => Js.trim (orEmpty (textContent document el))
      | None => EmptyString
      end.

(** ** toolkit: installer/assembler.ts and installer/opencode.ts *)

Module Toolkit.

Definition DOLLAR : ascii := "$"%char.
Definition BACKSLASH : ascii := "092"%char.
Definition SLASH : ascii := "/"%char.
Definition DQUOTE : ascii := "034"%char.
Definition CR : ascii := "013"%char.

(** GetSubstitution of ECMAScript for a string pattern, which has no
    captures: [$$] is a dollar, [$&] the match, [$`] the text before the
    match, [$'] the text after it; a dollar before anything else is kept. *)
Fixpoint getSubstitution (matched str : string) (position : nat)
    (template : string) : string :=
  match template with
  | EmptyString => EmptyString
  | String c rest =>
      if Ascii.eqb c DOLLAR then
        match rest with
        | String d rest' =>
            if Ascii.eqb d DOLLAR then
              String DOLLAR (getSubstitution matched str position rest')
            else if Ascii.eqb d "`" then
              Js.take position str +:+ getSubstitution matched str position rest'
            else if Ascii.eqb d "&" then
              matched +:+ getSubstitution matched str position rest'
            else if Ascii.eqb d "'" then
              Js.drop (position + String.length matched) str
                +:+ getSubstitution matched str position rest'
            else String c (getSubstitution matched str position rest)
        | EmptyString => String c EmptyString
        end
      else String c (getSubstitution matched str position rest)
  end.

(** The scan of [str.replaceAll(pat, replacement)]: [rest] is what is left
    of [str] at [position], and [skip] counts the characters of the current
    match that are still to be passed.  Matches are taken from the left and
    do not overlap; the empty pattern matches before every character and at
    the end. *)
Fixpoint replaceAllFrom (pat replacement str : string) (position skip : nat)
    (rest : string) {struct rest} : string :=
  match skip with
  | S k =>
      match rest with
      | EmptyString => EmptyString
      | String _ r => replaceAllFrom pat replacement str (S position) k r
      end
  | O =>
      if Js.startsWith rest pat then
        getSubstitution pat str position replacement +:+
        match pat, rest with
        | _, EmptyString => EmptyString
        | EmptyString, String c r =>
            String c (replaceAllFrom pat replacement str (S position) 0 r)
        | String _ p, String _ r =>
            replaceAllFrom pat replacement str (S position) (String.length p) r
        end
      else
        match rest with
        | EmptyString => EmptyString
        | String c r =>
            String c (replaceAllFrom pat replacement str (S position) 0 r)
        end
  end.

(** [str.replaceAll(pat, replacement)] for two strings. *)
Definition replaceAll (str pat replacement : string) : string :=
  replaceAllFrom pat replacement str 0 0 str.

(** [`{{${key}}}`] *)
Definition placeholder (key : string) : string := "{{" +:+ key +:+ "}}".

(** Replace {{placeholder}} tokens in a template string.  [values] are the
    entries of the object in the order of [Object.entries]. *)
Definition replacePlaceholders (template : string)
    (values : list (string * string)) : string :=
  foldl (fun result entry => replaceAll result (placeholder entry.1) entry.2)
        template values.

(** Assemble a complete agent/skill file from frontmatter template and
    prompt body. *)
Definition assembleFile (frontmatterTemplate promptBody : string)
    (placeholders : list (string * string)) : string :=
  let frontmatter := replacePlaceholders frontmatterTemplate placeholders in
  "---" +:+ String Js.LF frontmatter +:+ String Js.LF "---" +:+
  String Js.LF (String Js.LF promptBody).

(** What [.] of a regular expression does not match, in U+0000..U+00FF. *)
Definition isLineTerminator (c : ascii) : bool :=
  Ascii.eqb c Js.LF || Ascii.eqb c CR.

(** The first alternative of the expression of stripJsoncComments after its
    opening quote, [(?:[^"\\]|\\.)*"]: the number of characters up to and
    including the closing quote, or nothing when the literal is not closed.
    Every character allows one step at most (a quote closes, a backslash
    takes the next character with it unless that is a line terminator,
    anything else is taken alone), so there is nothing to backtrack to. *)
Fixpoint literalLength (rest : string) : option nat :=
  match rest with
  | EmptyString => None
  | String c r =>
      if Ascii.eqb c DQUOTE then Some 1%nat
      else if Ascii.eqb c BACKSLASH then
        match r with
        | EmptyString => None
        | String d r' =>
            if isLineTerminator d then None
            else n ← literalLength r'; Some (S (S n))
        end
      else n ← literalLength r; Some (S n)
  end.

(** The global replace of stripJsoncComments, one character at a time:
    [copy] counts the characters of a string literal that are still to be
    copied, [comment] says that the scan is inside a comment, which ends
    before the next line feed. *)
Fixpoint stripFrom (copy : nat) (comment : bool) (text : string) : string :=
  match text with
  | EmptyString => EmptyString
  | String c r =>
      match copy with
      | S k => String c (stripFrom k false r)
      | O =>
          if comment then
            if Ascii.eqb c Js.LF then String c (stripFrom 0 false r)
            else stripFrom 0 true r
          else if Ascii.eqb c DQUOTE then
            match literalLength r with
            | Some n => String c (stripFrom n false r)
            | None => String c (stripFrom 0 false r)
            end
          else if Ascii.eqb c SLASH && Js.startsWith r "/" then
            stripFrom 0 true r
          else String c (stripFrom 0 false r)
      end
  end.

(** Strip single-line JSONC comments (// ...) outside of quoted strings. *)
Definition stripJsoncComments (text : string) : string :=
  stripFrom 0 false text.

End Toolkit.

(** ** Vocabulary of the toolkit properties *)

(** The patterns of [BOILERPLATE_PATTERNS] that contain no other pattern. *)
Definition DECIDING_PATTERNS : list string :=
  ["nav"; "menu"; "sidebar"; "footer"; "ad"; "social"; "share"; "comment";
   "related"].

(** [c] does not occur in [s]. *)
Fixpoint without (c : ascii) (s : string) : bool :=
  match s with
  | EmptyString => true
  | String a r => negb (Ascii.eqb a c) && without c r
  end.

(** A line up to its first [//]. *)
Fixpoint beforeComment (line : string) : string :=
  match line with
  | EmptyString => EmptyString
  | String c r =>
      if Ascii.eqb c Toolkit.SLASH && Js.startsWith r "/" then EmptyString
      else String c (beforeComment r)
  end.

(** A template as text and placeholders. *)
Inductive Segment :=
| Verbatim (text : string)
| Hole (key : string).

Definition renderSegment (segment : Segment) : string :=
  match segment with
  | Verbatim text => text
  | Hole key => Toolkit.placeholder key
  end.

Definition render (segments : list Segment) : string :=
  foldr (fun segment rest => renderSegment segment +:+ rest) EmptyString segments.

(** The value of the first entry of [values] with the key [key]. *)
Fixpoint valueOf (key : string) (values : list (string * string)) : option string :=
  match values with
  | [] => None
  | entry :: rest => if String.eqb entry.1 key then Some entry.2 else valueOf key rest
  end.

(** A placeholder with a value becomes the value, every other segment
    stays. *)
Definition fillSegment (values : list (string * string)) (segment : Segment)
  : Segment :=
  match segment with
  | Verbatim text => Verbatim text
  | Hole key =>
      match valueOf key values with
      | Some value => Verbatim value
      | None => Hole key
      end
  end.

(** No opening brace in the text, no brace in the name of a placeholder. *)
Definition plainSegment (segment : Segment) : bool :=
  match segment with
  | Verbatim text => without "{" text
  | Hole key => without "{" key && without "}" key
  end.

(** No closing brace in the key; no dollar and no opening brace in the
    value. *)
Definition plainEntry (entry : string * string) : bool :=
  without "}" entry.1 && without "$" entry.2 && without "{" entry.2.

(** What stands between the quotes of a string literal as the expression of
    stripJsoncComments reads it: characters other than the quote and the
    backslash, and a backslash with the character after it, which is not a
    line terminator. *)
Fixpoint literalBody (body : string) : bool :=
  match body with
  | EmptyString => true
  | String c r =>
      if Ascii.eqb c Toolkit.DQUOTE then false
      else if Ascii.eqb c Toolkit.BACKSLASH then
        match r with
        | EmptyString => false
        | String d r' => negb (Toolkit.isLineTerminator d) && literalBody r'
        end
      else literalBody r
  end.

Definition QUOTED (body : string) : string :=
  String Toolkit.DQUOTE body +:+ String Toolkit.DQUOTE EmptyString.

(** * Properties *)


(** ** Strings *)

Lemma str_app_nil_l (s : string) : EmptyString +:+ s = s.
Proof. reflexivity. Qed.

Lemma str_app_cons (c : ascii) (a s : string) :
  String c a +:+ s = String c (a +:+ s).
Proof. reflexivity. Qed.

Lemma str_app_nil_r (s : string) : s +:+ EmptyString = s.
Proof. induction s as [|c s IH]; [done|]. by rewrite str_app_cons, IH. Qed.

Lemma str_app_assoc (a b c : string) : (a +:+ b) +:+ c = a +:+ b +:+ c.
Proof. induction a as [|x a IH]; [done|]. by rewrite !str_app_cons, IH. Qed.

Lemma str_length_nonneg (s : string) : 0 <= Js.length s.
Proof. unfold Js.length. lia. Qed.

Lemma str_length_cons (c : ascii) (s : string) :
  Js.length (String c s) = Js.length s + 1.
Proof. unfold Js.length. cbn [String.length]. lia. Qed.

Lemma str_length_app (a b : string) : Js.length (a +:+ b) = Js.length a + Js.length b.
Proof.
  induction a as [|c a IH]; [done|].
  rewrite str_app_cons, !str_length_cons, IH. lia.
Qed.

Lemma str_length_zero (s : string) : Js.length s = 0 -> s = EmptyString.
Proof. destruct s; [done|]. rewrite str_length_cons. pose proof (str_length_nonneg s). lia. Qed.

Lemma str_take_drop (n : nat) (s : string) : Js.take n s +:+ Js.drop n s = s.
Proof.
  revert s. induction n as [|n IH]; intros [|c s]; try done.
  cbn [Js.take Js.drop]. by rewrite str_app_cons, IH.
Qed.

Lemma str_length_take (n : nat) (s : string) :
  Js.length (Js.take n s) = Z.min (Z.of_nat n) (Js.length s).
Proof.
  revert s. induction n as [|n IH]; intros [|c s]; cbn [Js.take];
    rewrite ?str_length_cons, ?IH; unfold Js.length; cbn [String.length]; lia.
Qed.

Lemma str_take_app_length (a b : string) :
  Js.take (String.length a) (a +:+ b) = a.
Proof.
  induction a as [|c a IH]; [by destruct b|].
  rewrite str_app_cons. cbn [String.length Js.take]. by rewrite IH.
Qed.

Lemma str_drop_app_length (a b : string) :
  Js.drop (String.length a) (a +:+ b) = b.
Proof. induction a as [|c a IH]; [by destruct b|]. by rewrite str_app_cons. Qed.

Lemma str_take_all (n : nat) (s : string) :
  Js.length s <= Z.of_nat n -> Js.take n s = s.
Proof.
  revert n. induction s as [|c s IH]; intros [|n] H; try done.
  cbn [Js.take]. rewrite IH; [done|]. rewrite str_length_cons in H. lia.
Qed.

Lemma str_take_take (n m : nat) (s : string) :
  Js.take n (Js.take m s) = Js.take (Nat.min n m) s.
Proof.
  revert m s. induction n as [|n IH]; intros [|m] [|c s]; try done.
  cbn [Js.take Nat.min]. by rewrite IH.
Qed.

(** [slice(0, to)] keeps the first [to] code units when [to] is a position
    of the string. *)
Lemma str_drop_0 (s : string) : Js.drop 0 s = s.
Proof. by destruct s. Qed.

Lemma slice_prefix (s : string) (to : Z) :
  0 <= to -> Js.slice s 0 to = Js.take (Z.to_nat to) s.
Proof.
  intros H. unfold Js.slice, Js.clampIndex.
  pose proof (str_length_nonneg s).
  replace (0 <? 0) with false by done.
  destruct (Z.ltb_spec to 0); [lia|].
  rewrite (Z.min_l 0) by lia.
  change (Z.to_nat 0) with 0%nat. rewrite str_drop_0, Z.sub_0_r.
  destruct (Z.le_gt_cases to (Js.length s)).
  - by rewrite Z.min_l, Z.max_l by lia.
  - rewrite Z.min_r, Z.max_l by lia.
    rewrite !str_take_all; [done| |]; lia.
Qed.

Lemma startsWith_app (pat rest : string) : Js.startsWith (pat +:+ rest) pat = true.
Proof.
  induction pat as [|c pat IH]; [by destruct rest|].
  rewrite str_app_cons. cbn [Js.startsWith]. by rewrite Ascii.eqb_refl, IH.
Qed.

Lemma startsWith_inv (s pat : string) :
  Js.startsWith s pat = true -> exists rest, s = pat +:+ rest.
Proof.
  revert s. induction pat as [|c pat IH]; intros s H.
  - by exists s.
  - destruct s as [|b s]; [done|]. cbn in H.
    apply andb_prop in H as [Hc H]. apply Ascii.eqb_eq in Hc as ->.
    destruct (IH _ H) as [rest ->]. by exists rest.
Qed.

(** ** lastIndexOf *)

Lemma occursAt_nonneg pat s p : occursAt pat s p -> 0 <= p.
Proof. intros (before & after & _ & <-). apply str_length_nonneg. Qed.

Lemma occursAt_bound pat s p :
  occursAt pat s p -> p + Js.length pat <= Js.length s.
Proof.
  intros (before & after & -> & <-). rewrite !str_length_app.
  pose proof (str_length_nonneg after). lia.
Qed.

Lemma occursAt_here pat s : occursAt pat s 0 <-> Js.startsWith s pat = true.
Proof.
  split.
  - intros (before & after & -> & H). apply str_length_zero in H as ->.
    rewrite str_app_nil_l. apply startsWith_app.
  - intros [rest ->]%startsWith_inv. by exists EmptyString, rest.
Qed.

Lemma occursAt_cons pat c s p :
  0 <= p -> occursAt pat (String c s) (p + 1) <-> occursAt pat s p.
Proof.
  intros Hp. split.
  - intros (before & after & E & H). destruct before as [|b before].
    + change (Js.length EmptyString) with 0 in H. lia.
    + rewrite str_app_cons in E. injection E as -> E. rewrite str_length_cons in H.
      exists before, after. split; [done|lia].
  - intros (before & after & -> & <-).
    exists (String c before), after. by rewrite str_length_cons.
Qed.

(** [lastIndexOfFrom i s pat] is [-1] when [pat] does not occur in [s], and
    otherwise [i] plus the last position at which it does. *)
Lemma lastIndexOfFrom_spec pat s i :
  0 <= i ->
  let k := Js.lastIndexOfFrom i s pat in
  (k = -1 /\ forall q, ~ occursAt pat s q) \/
  (i <= k /\ occursAt pat s (k - i) /\
   forall q, occursAt pat s q -> q <= k - i).
Proof.
  revert i. induction s as [|c s IH]; intros i Hi; cbn zeta.
  - cbn [Js.lastIndexOfFrom].
    destruct (Js.startsWith EmptyString pat) eqn:E.
    + right. rewrite Z.sub_diag. split; [lia|]. split; [by apply occursAt_here|].
      intros q Hq. apply occursAt_bound in Hq.
      change (Js.length EmptyString) with 0 in Hq.
      pose proof (str_length_nonneg pat). lia.
    + left. split; [done|]. intros q Hq.
      assert (q = 0) as ->.
      { pose proof (occursAt_nonneg _ _ _ Hq). apply occursAt_bound in Hq.
        change (Js.length EmptyString) with 0 in Hq.
        pose proof (str_length_nonneg pat). lia. }
      apply occursAt_here in Hq. congruence.
  - cbn [Js.lastIndexOfFrom].
    destruct (IH (i + 1)) as [[-> Hnone]|(Hle & Hocc & Hlast)]; [lia| |].
    + replace (0 <=? -1) with false by done.
      destruct (Js.startsWith (String c s) pat) eqn:E.
      * right. rewrite Z.sub_diag. split; [lia|].
        split; [by apply occursAt_here|].
        intros q Hq. pose proof (occursAt_nonneg _ _ _ Hq).
        destruct (decide (q = 0)) as [->|]; [lia|].
        replace q with (q - 1 + 1) in Hq by lia.
        apply occursAt_cons in Hq; [|lia]. by apply Hnone in Hq.
      * left. split; [done|]. intros q Hq.
        pose proof (occursAt_nonneg _ _ _ Hq).
        destruct (decide (q = 0)) as [->|].
        { apply occursAt_here in Hq. congruence. }
        replace q with (q - 1 + 1) in Hq by lia.
        apply occursAt_cons in Hq; [|lia]. by apply Hnone in Hq.
    + set (k := Js.lastIndexOfFrom (i + 1) s pat) in *.
      destruct (Z.leb_spec 0 k); [|lia].
      right. split; [lia|]. split.
      * replace (k - i) with (k - (i + 1) + 1) by lia.
        apply occursAt_cons; [lia|done].
      * intros q Hq. pose proof (occursAt_nonneg _ _ _ Hq).
        destruct (decide (q = 0)) as [->|]; [lia|].
        replace q with (q - 1 + 1) in Hq by lia.
        apply occursAt_cons in Hq; [|lia]. apply Hlast in Hq. lia.
Qed.

Lemma lastIndexOf_spec pat s :
  let k := Js.lastIndexOf s pat in
  (k = -1 /\ forall q, ~ occursAt pat s q) \/ lastOccurrence [pat] s k.
Proof.
  cbn zeta. unfold Js.lastIndexOf.
  destruct (lastIndexOfFrom_spec pat s 0) as [?|(Hle & Hocc & Hlast)];
    [lia|by left|right].
  rewrite Z.sub_0_r in *. split.
  - exists pat. split; [apply list_elem_of_singleton; done|done].
  - intros pat' q ->%list_elem_of_singleton Hq. auto.
Qed.

(** ** Numbers *)

Lemma binary_round_aux_sign prec emax sx mx ex lx :
  match binary_round_aux prec emax sx mx ex lx with
  | S754_finite s _ _ | S754_infinity s | S754_zero s => s = sx
  | S754_nan => True
  end.
Proof.
  unfold binary_round_aux.
  destruct (shr_fexp prec emax mx ex lx) as [mrs' e'].
  destruct (shr_fexp prec emax _ e' loc_Exact) as [mrs'' e''].
  destruct (shr_m mrs''); [done| |done].
  by destruct (e'' <=? emax - prec).
Qed.

Lemma ofZ_notNegative (n : Z) : 0 <= n -> notNegative (Num.ofZ n).
Proof.
  intros H. destruct n as [|m|m]; [done| |lia].
  unfold Num.ofZ, binary_normalize, binary_round.
  destruct (shl_align _ _ _) as [mz ez].
  pose proof (binary_round_aux_sign Num.prec Num.emax false (Z.pos mz) ez loc_Exact) as Hs.
  by destruct (binary_round_aux _ _ _ _ _ _) as [| | |[] ? ?].
Qed.

Lemma mul_notNegative (x : spec_float) (m : positive) (e : Z) :
  notNegative x -> notNegative (Num.mul x (S754_finite false m e)).
Proof.
  destruct x as [s|s| |s mx ex]; cbn; try done.
  - intros ->. done.
  - intros ->. cbn [xorb].
    pose proof (binary_round_aux_sign Num.prec Num.emax false
                  (Z.pos (mx * m)) (ex + e) loc_Exact) as Hs.
    by destruct (binary_round_aux _ _ _ _ _ _) as [| | |[] ? ?].
Qed.

(** An index of [-1] ("not found") is never beyond the threshold. *)
Lemma beyond_not_found (maxChars : Z) (m : positive) (e : Z) :
  0 <= maxChars -> beyond (-1) maxChars (S754_finite false m e) = false.
Proof.
  intros H. unfold beyond, Num.gtb.
  pose proof (mul_notNegative _ m e (ofZ_notNegative _ H)) as Hn.
  change (Num.ofZ (-1)) with (S754_finite true 4503599627370496 (-52)).
  destruct (Num.mul _ _) as [s|s| |s mx ex];
    unfold SFltb, SFcompare; unfold notNegative in Hn;
    try subst s; reflexivity.
Qed.

(** ** truncateAtBoundary *)

Lemma lastOccurrence_unique pats s p q :
  lastOccurrence pats s p -> lastOccurrence pats s q -> p = q.
Proof.
  intros [(pat & Hin & Hocc) Hmax] [(pat' & Hin' & Hocc') Hmax'].
  apply Hmax' in Hocc; [|done]. apply Hmax in Hocc'; [|done]. lia.
Qed.

Lemma lastIndexOfAny_spec s pats :
  let k := lastIndexOfAny s pats in
  (k = -1 /\ forall pat q, pat ∈ pats -> ~ occursAt pat s q) \/
  lastOccurrence pats s k.
Proof.
  induction pats as [|pat pats IH]; cbn zeta.
  - left. split; [done|]. intros pat q Hin. by apply elem_of_nil in Hin.
  - cbn [lastIndexOfAny foldr]. fold (lastIndexOfAny s pats).
    destruct (lastIndexOf_spec pat s) as [[Ea Ha]|[(pa & Hpa & Hoa) Hma]];
      destruct IH as [[Eb Hb]|[(pb & Hpb & Hob) Hmb]].
    + left. split; [lia|]. intros pat' q [->|Hin]%elem_of_cons; eauto.
    + right. pose proof (occursAt_nonneg _ _ _ Hob).
      rewrite Z.max_r by lia. split.
      * exists pb. split; [by right|done].
      * intros pat' q [->|Hin]%elem_of_cons Hq; [by apply Ha in Hq|eauto].
    + right. apply list_elem_of_singleton in Hpa as ->.
      pose proof (occursAt_nonneg _ _ _ Hoa).
      rewrite Z.max_l by lia. split.
      * exists pat. split; [by left|done].
      * intros pat' q [->|Hin]%elem_of_cons Hq; [|by apply Hb in Hq].
        apply (Hma pat); [by apply list_elem_of_singleton|done].
    + right. apply list_elem_of_singleton in Hpa as ->. split.
      * destruct (Z.max_spec (Js.lastIndexOf s pat) (lastIndexOfAny s pats))
          as [[_ ->]|[_ ->]].
        -- exists pb. split; [by right|done].
        -- exists pat. split; [by left|done].
      * intros pat' q [->|Hin]%elem_of_cons Hq.
        -- etrans; [|apply Z.le_max_l].
           apply (Hma pat); [by apply list_elem_of_singleton|done].
        -- etrans; [|apply Z.le_max_r]. eauto.
Qed.

Lemma passedOver_absent pats fraction cut maxChars :
  (forall pat q, pat ∈ pats -> ~ occursAt pat cut q) ->
  passedOver pats fraction cut maxChars.
Proof. intros Hnone p [(pat & Hin & Hocc) _]. by apply Hnone in Hocc. Qed.

Lemma passedOver_last pats fraction cut maxChars p :
  lastOccurrence pats cut p -> beyond p maxChars fraction = false ->
  passedOver pats fraction cut maxChars.
Proof. intros Hp Hb q Hq. by rewrite (lastOccurrence_unique _ _ _ _ Hq Hp). Qed.

(** How one tier is decided: the index that the code computes is beyond the
    threshold exactly when there is a last occurrence and it lies beyond. *)
Lemma tier_decided pats (m : positive) (e : Z) cut maxChars :
  0 <= maxChars ->
  let k := lastIndexOfAny cut pats in
  let fraction := S754_finite false m e in
  (beyond k maxChars fraction = true /\ lastOccurrence pats cut k) \/
  (beyond k maxChars fraction = false /\ passedOver pats fraction cut maxChars).
Proof.
  intros Hmax. cbn zeta.
  destruct (lastIndexOfAny_spec cut pats) as [[-> Hnone]|Hlast].
  - right. split; [by apply beyond_not_found|by apply passedOver_absent].
  - destruct (beyond _ _ _) eqn:E; [by left|right].
    split; [done|by eapply passedOver_last].
Qed.

Lemma truncateAtBoundary_unfold (text : string) (maxChars : Z) :
  0 < maxChars -> maxChars < Js.length text ->
  let cut := Js.take (Z.to_nat maxChars) text in
  let lastPara := lastIndexOfAny cut PARAGRAPH_BREAK in
  let lastSentence := lastIndexOfAny cut SENTENCE_END in
  let lastSpace := lastIndexOfAny cut WORD_BREAK in
  truncateAtBoundary text maxChars =
    if beyond lastPara maxChars Num.lit_0_7 then
      Js.trim (Js.slice cut 0 lastPara) +:+ TRUNCATED_MARK
    else if beyond lastSentence maxChars Num.lit_0_7 then
      Js.trim (Js.slice cut 0 (lastSentence + 1)) +:+ TRUNCATED_MARK
    else if beyond lastSpace maxChars Num.lit_0_8 then
      Js.trim (Js.slice cut 0 lastSpace) +:+ TRUNCATED_MARK_DOTS
    else Js.trim cut +:+ TRUNCATED_MARK_DOTS.
Proof.
  intros Hpos Hlong. cbn zeta. unfold truncateAtBoundary.
  destruct (Z.leb_spec (Js.length text) maxChars); [lia|].
  rewrite slice_prefix by lia.
  unfold lastIndexOfAny, PARAGRAPH_BREAK, SENTENCE_END, WORD_BREAK. cbn [foldr].
  set (cut := Js.take _ text).
  assert (forall pat, -1 <= Js.lastIndexOf cut pat) as Hge.
  { intros pat. destruct (lastIndexOf_spec pat cut) as [[-> _]|[(? & _ & Ho) _]];
      [done|]. apply occursAt_nonneg in Ho. lia. }
  pose proof (Hge LFLF). pose proof (Hge ". "). pose proof (Hge "! ").
  pose proof (Hge "? "). pose proof (Hge " ").
  rewrite !(Z.max_l _ (-1)) by lia.
  replace (Z.max (Js.lastIndexOf cut ". ")
             (Z.max (Js.lastIndexOf cut "! ") (Js.lastIndexOf cut "? ")))
    with (Z.max (Z.max (Js.lastIndexOf cut ". ") (Js.lastIndexOf cut "! "))
                (Js.lastIndexOf cut "? ")) by lia.
  done.
Qed.

(** What the code does.  For a positive [maxChars], a text of at most
    [maxChars] code units is returned unchanged.  A longer text is cut at
    [maxChars] and the first tier that applies decides what is kept: the
    last paragraph break, if its position is greater than the binary64
    product [maxChars * 0.7]; else the last sentence end (". ", "! " or
    "? "), under the same condition, kept up to and including its
    punctuation; else the last space, if its position is greater than
    [maxChars * 0.8]; else the whole cut.  The kept prefix is trimmed, and
    the first two tiers append the plain marker, the last two the marker
    with the dots. *)
Lemma truncateAtBoundary_tiers (text : string) (maxChars : Z) :
  0 < maxChars ->
  (Js.length text <= maxChars -> truncateAtBoundary text maxChars = text) /\
  (maxChars < Js.length text ->
   exists kept mark,
     Boundary (Js.take (Z.to_nat maxChars) text) maxChars kept mark /\
     truncateAtBoundary text maxChars = Js.trim kept +:+ mark).
Proof.
  intros Hpos. split.
  - intros Hshort. unfold truncateAtBoundary.
    by destruct (Z.leb_spec (Js.length text) maxChars); [|lia].
  - intros Hlong. rewrite truncateAtBoundary_unfold by done. cbn zeta.
    set (cut := Js.take _ text).
    destruct (tier_decided PARAGRAPH_BREAK 6305039478318694 (-53) cut maxChars)
      as [[Hb1 Hl1]|[Hb1 Hp1]]; [lia| |];
      fold Num.lit_0_7 in *; rewrite Hb1.
    { eexists _, _. split; [by eapply AtParagraph|].
      destruct Hl1 as [(? & _ & ?%occursAt_nonneg) _].
      by rewrite slice_prefix. }
    destruct (tier_decided SENTENCE_END 6305039478318694 (-53) cut maxChars)
      as [[Hb2 Hl2]|[Hb2 Hp2]]; [lia| |];
      fold Num.lit_0_7 in *; rewrite Hb2.
    { eexists _, _. split; [by eapply AtSentence|].
      destruct Hl2 as [(? & _ & ?%occursAt_nonneg) _].
      by rewrite slice_prefix by lia. }
    destruct (tier_decided WORD_BREAK 7205759403792794 (-53) cut maxChars)
      as [[Hb3 Hl3]|[Hb3 Hp3]]; [lia| |];
      fold Num.lit_0_8 in *; rewrite Hb3.
    { eexists _, _. split; [by eapply AtWord|].
      destruct Hl3 as [(? & _ & ?%occursAt_nonneg) _].
      by rewrite slice_prefix. }
    eexists _, _. split; [by eapply AtCut|done].
Qed.

Lemma Boundary_functional cut maxChars kept mark kept' mark' :
  Boundary cut maxChars kept mark -> Boundary cut maxChars kept' mark' ->
  kept = kept' /\ mark = mark'.
Proof.
  intros H H'.
  destruct H as [p Hl Hb|p Hno Hl Hb|p Hno Hno' Hl Hb|Hno Hno' Hno''];
    destruct H' as [q Hl' Hb'|q Hno_ Hl' Hb'|q Hno_ Hno_' Hl' Hb'|Hno_ Hno_' Hno_''];
    try (by rewrite (lastOccurrence_unique _ _ _ _ Hl Hl'));
    repeat match goal with
           | Hn : passedOver ?pats ?f cut maxChars,
             Hl : lastOccurrence ?pats cut ?p,
             Hb : beyond ?p maxChars ?f = true |- _ =>
               rewrite (Hn p Hl) in Hb; discriminate Hb
           end.
  done.
Qed.

(** C1.  The claim fails in the code at a boundary that lies at exactly 70%.
    With [maxChars = 10] the text "Intro 1\n\nBody text here." is too
    long, and the last paragraph break of its first 10 characters is at
    position 7, which is 70% of [maxChars]: the claim, like the comment
    "at least 70% of content" in the code, has the text cut there, to
    "Intro 1" and the plain marker.  The code tests [7 > 10 * 0.7], passes
    the paragraph break over, finds no sentence end and no space beyond
    their thresholds, and returns the whole cut with the dotted marker. *)
Theorem truncateAtBoundary_passes_over_70_percent :
  let text := "Intro 1" +:+ LFLF +:+ "Body text here." in
  let cut := Js.take 10 text in
  10 < Js.length text /\
  lastOccurrence PARAGRAPH_BREAK cut 7 /\
  10 * 7 >= 7 * 10 /\
  Js.trim (Js.take 7 cut) +:+ LFLF +:+ "[Content truncated...]" =
    "Intro 1" +:+ LFLF +:+ "[Content truncated...]" /\
  truncateAtBoundary text 10 =
    "Intro 1" +:+ LFLF +:+ "B..." +:+ LFLF +:+ "[Content truncated...]" /\
  truncateAtBoundary text 10 <>
    "Intro 1" +:+ LFLF +:+ "[Content truncated...]".
Proof.
  cbn zeta. split; [by vm_compute|]. split.
  - destruct (lastIndexOf_spec LFLF (Js.take 10 ("Intro 1" +:+ LFLF +:+ "Body text here.")))
      as [[E _]|H].
    + by vm_compute in E.
    + replace (Js.lastIndexOf _ _) with 7 in H by by vm_compute. exact H.
  - split; [lia|]. split; [by vm_compute|]. split; by vm_compute.
Qed.

(** ** deduplicateUrls *)

Section Deduplicate.
Variable newURL : string -> Try URL.
Local Abbreviation key := (normalizeUrl newURL).

Lemma deduplicateLoop_spec (urls : list string) :
  forall (seen : gset string) (unique : list string),
    (forall k, k ∈ seen <-> k ∈ key <$> unique) ->
    NoDup (key <$> unique) ->
    exists added,
      deduplicateLoop newURL seen unique urls = unique ++ added /\
      sublist added urls /\
      NoDup (key <$> (unique ++ added)) /\
      (forall url, url ∈ urls -> key url ∈ key <$> (unique ++ added)) /\
      (forall url, url ∈ added ->
         (key url ∉ seen) /\
         exists before after,
           urls = before ++ url :: after /\
           forall earlier, earlier ∈ before -> key earlier <> key url).
Proof.
  induction urls as [|url urls IH]; intros seen unique Hseen Hnodup.
  - exists []. rewrite app_nil_r. cbn. split; [done|]. split; [done|].
    split; [done|]. split; intros ? H; by apply elem_of_nil in H.
  - cbn [deduplicateLoop]. case_bool_decide as Hin.
    + destruct (IH seen unique Hseen Hnodup)
        as (added & -> & Hsub & Hnd & Hcover & Hfirst).
      exists added. split; [done|]. split; [by apply sublist_cons|].
      split; [done|]. split.
      * intros u [->|Hu]%elem_of_cons; [|by apply Hcover].
        rewrite fmap_app. apply elem_of_app. left. by apply Hseen.
      * intros u Hu. destruct (Hfirst u Hu) as (Hnew & before & after & -> & Hb).
        split; [done|]. exists (url :: before), after. split; [done|].
        intros earlier [->|He]%elem_of_cons; [|by apply Hb].
        intros E. apply Hnew. by rewrite <- E.
    + destruct (IH ({[key url]} ∪ seen) (unique ++ [url]))
        as (added & -> & Hsub & Hnd & Hcover & Hfirst).
      { intros k. rewrite fmap_app, elem_of_union, elem_of_singleton, elem_of_app.
        cbn. rewrite list_elem_of_singleton, Hseen. tauto. }
      { rewrite fmap_app. apply NoDup_app. split; [done|]. split.
        - intros k Hk ->%list_elem_of_singleton. by apply Hin, Hseen.
        - apply NoDup_singleton. }
      exists (url :: added). rewrite <- app_assoc in *. cbn [app] in *.
      split; [done|]. split; [by apply sublist_skip|]. split; [done|]. split.
      * intros u [->|Hu]%elem_of_cons; [|by apply Hcover].
        rewrite fmap_app. apply elem_of_app. right. cbn. by left.
      * intros u [->|Hu]%elem_of_cons.
        -- split; [done|]. exists [], urls. split; [done|].
           intros earlier He. by apply elem_of_nil in He.
        -- destruct (Hfirst u Hu) as (Hnew & before & after & -> & Hb).
           split; [set_solver|]. exists (url :: before), after. split; [done|].
           intros earlier [->|He]%elem_of_cons; [|by apply Hb].
           intros E. apply Hnew. rewrite <- E. set_solver.
Qed.

Lemma deduplicateUrls_spec (urls : list string) :
  let unique := deduplicateUrls newURL urls in
  sublist unique urls /\
  NoDup (key <$> unique) /\
  (forall url, url ∈ urls -> key url ∈ key <$> unique) /\
  (forall url, url ∈ unique ->
     exists before after,
       urls = before ++ url :: after /\
       forall earlier, earlier ∈ before -> key earlier <> key url).
Proof.
  cbn zeta. unfold deduplicateUrls.
  destruct (deduplicateLoop_spec urls ∅ [])
    as (added & -> & Hsub & Hnd & Hcover & Hfirst).
  { intros k. cbn. split; [set_solver|]. by intros ?%elem_of_nil. }
  { constructor. }
  cbn [app] in *. split; [done|]. split; [done|]. split; [done|].
  intros url Hurl. by destruct (Hfirst url Hurl) as [_ ?].
Qed.

Lemma deduplicateLoop_snoc (urls : list string) :
  forall (seen : gset string) (unique : list string) (url : string),
    deduplicateLoop newURL seen unique (urls ++ [url]) =
      deduplicateLoop newURL seen unique urls ++
      (if decide (key url ∈ seen \/ key url ∈ key <$> urls) then [] else [url]).
Proof.
  induction urls as [|u urls IH]; intros seen unique url.
  - cbn [app deduplicateLoop]. case_bool_decide as Hin.
    + rewrite decide_True by by left. by rewrite app_nil_r.
    + rewrite decide_False; [done|]. intros [?|?%elem_of_nil]; done.
  - cbn [app deduplicateLoop]. case_bool_decide as Hin; rewrite IH; f_equal;
      apply decide_ext; rewrite fmap_cons, elem_of_cons,
        ?elem_of_union, ?elem_of_singleton.
    + split; [tauto|]. intros [?|[E|?]]; [tauto| |tauto]. left. by rewrite E.
    + tauto.
Qed.

Lemma deduplicateUrls_snoc (urls : list string) (url : string) :
  deduplicateUrls newURL (urls ++ [url]) =
    deduplicateUrls newURL urls ++
    (if decide (key url ∈ key <$> urls) then [] else [url]).
Proof.
  unfold deduplicateUrls. rewrite deduplicateLoop_snoc. f_equal.
  apply decide_ext. split; [|tauto]. intros [?%elem_of_empty|?]; done.
Qed.

Lemma firstAppearances_snoc (urls : list string) (url : string) :
  firstAppearances key (urls ++ [url]) =
    firstAppearances key urls ++
    (if decide (key url ∈ key <$> urls) then [] else [url]).
Proof.
  unfold firstAppearances. rewrite imap_app, omap_app. f_equal.
  - f_equal. apply imap_ext. intros i u Hi. cbn beta.
    rewrite take_app_le; [done|]. apply lookup_lt_Some in Hi. lia.
  - cbn [imap omap]. rewrite Nat.add_0_r, take_app_length.
    by destruct (decide _).
Qed.

Lemma deduplicateUrls_firstAppearances (urls : list string) :
  deduplicateUrls newURL urls = firstAppearances key urls.
Proof.
  induction urls as [|url urls IH] using rev_ind; [done|].
  by rewrite deduplicateUrls_snoc, firstAppearances_snoc, IH.
Qed.

(** The elements of [omap id] stand in the order of the elements they come
    from. *)
Lemma omap_id_order {A} (os : list (option A)) :
  forall (i j : nat) (u v : A),
    omap id os !! i = Some u -> omap id os !! j = Some v -> (i < j)%nat ->
    exists p q, (p < q)%nat /\ os !! p = Some (Some u) /\ os !! q = Some (Some v).
Proof.
  induction os as [|[a|] os IH]; intros i j u v Hi Hj Hlt; [done| |].
  - change (omap id (Some a :: os)) with (a :: omap id os) in Hi, Hj.
    destruct j as [|j]; [lia|]. cbn in Hj. destruct i as [|i].
    + injection Hi as ->.
      assert (v ∈ omap id os) as Hv by by eapply list_elem_of_lookup_2.
      apply list_elem_of_omap in Hv as ([w|] & Hw & [= ->]).
      apply list_elem_of_lookup in Hw as [q Hq].
      exists 0%nat, (S q). split; [lia|]. by split.
    + cbn in Hi. destruct (IH i j u v Hi Hj) as (p & q & Hpq & Hp & Hq); [lia|].
      exists (S p), (S q). split; [lia|]. by split.
  - change (omap id (None :: os)) with (omap id os) in Hi, Hj.
    destruct (IH i j u v Hi Hj Hlt) as (p & q & Hpq & Hp & Hq).
    exists (S p), (S q). split; [lia|]. by split.
Qed.

Lemma firstAppearances_position (urls : list string) (p : nat) (u : string) :
  imap (fun i url =>
          if decide (key url ∈ key <$> take i urls) then None else Some url)
       urls !! p = Some (Some u) ->
  urls !! p = Some u /\
  forall r w, (r < p)%nat -> urls !! r = Some w -> key w <> key u.
Proof.
  rewrite list_lookup_imap. destruct (urls !! p) as [x|] eqn:Hx; [|done].
  cbn. destruct (decide (key x ∈ key <$> take p urls)) as [|Hfirst]; [done|].
  intros [= ->]. split; [done|]. intros r w Hr Hw E. apply Hfirst.
  rewrite <- E. apply list_elem_of_fmap. exists w. split; [done|].
  apply list_elem_of_lookup. exists r. by rewrite lookup_take_lt.
Qed.

(** C4.  deduplicateUrls returns a subsequence of its input in which no two
    URLs have the same normalizeUrl key, in which the key of every input URL
    is represented, and in which every URL is, in its original form, the
    first URL of the input that has its key.  The output order is the order
    of first appearance: of two URLs of the output, the one that comes first
    is the one whose key appears first in the input.  Altogether the output
    is the input without the URLs whose key an earlier URL has. *)
Theorem deduplicateUrls_first_of_each_key (urls : list string) :
  let unique := deduplicateUrls newURL urls in
  sublist unique urls /\
  NoDup (key <$> unique) /\
  (forall url, url ∈ urls -> key url ∈ key <$> unique) /\
  (forall url, url ∈ unique ->
     exists before after,
       urls = before ++ url :: after /\
       forall earlier, earlier ∈ before -> key earlier <> key url) /\
  (forall (i j : nat) (u v : string),
     unique !! i = Some u -> unique !! j = Some v -> (i < j)%nat ->
     exists p q : nat,
       (p < q)%nat /\ urls !! p = Some u /\ urls !! q = Some v /\
       (forall r w, (r < p)%nat -> urls !! r = Some w -> key w <> key u) /\
       (forall r w, (r < q)%nat -> urls !! r = Some w -> key w <> key v)) /\
  unique = firstAppearances key urls.
Proof.
  cbn zeta. destruct (deduplicateUrls_spec urls) as (Hsub & Hnd & Hcover & Hfirst).
  split; [done|]. split; [done|]. split; [done|]. split; [done|].
  split; [|apply deduplicateUrls_firstAppearances].
  rewrite deduplicateUrls_firstAppearances. unfold firstAppearances.
  intros i j u v Hi Hj Hlt.
  destruct (omap_id_order _ i j u v Hi Hj Hlt) as (p & q & Hpq & Hp & Hq).
  apply firstAppearances_position in Hp as [Hp Hpfirst].
  apply firstAppearances_position in Hq as [Hq Hqfirst].
  exists p, q. done.
Qed.

End Deduplicate.

(** ** normalizeUrl *)

Lemma normalizeUrl_parsed newURL url parsed :
  newURL url = Ok parsed ->
  normalizeUrl newURL url =
    protocol parsed +:+ "//" +:+ normalizedHostname parsed +:+
    normalizedPathname parsed +:+
    (let query := URLSearchParams.toString (filteredParams parsed) in
     if Js.truthy query then "?" +:+ query else EmptyString).
Proof. intros H. unfold normalizeUrl. by rewrite H. Qed.

Lemma normalizeUrl_thrown newURL url :
  newURL url = Throw -> normalizeUrl newURL url = url.
Proof. intros H. unfold normalizeUrl. by rewrite H. Qed.

Lemma stripTrailing_spec (c : ascii) (s : string) :
  exists n,
    s = Js.stripTrailing c s +:+ Js.repeatChar c n /\
    forall before, Js.stripTrailing c s <> before +:+ String c EmptyString.
Proof.
  induction s as [|a s (n & E & Hend)].
  - exists 0%nat. split; [done|]. intros [|b before]; by rewrite ?str_app_cons.
  - cbn [Js.stripTrailing]. destruct (Js.stripTrailing c s) as [|b r] eqn:Es.
    + destruct (Ascii.eqb_spec a c) as [->|Hne].
      * exists (S n). split; [|intros [|b before]; by rewrite ?str_app_cons].
        rewrite str_app_nil_l in *. cbn [Js.repeatChar]. by rewrite <- E.
      * exists n. split; [by rewrite str_app_cons, <- E|].
        intros [|b before]; rewrite ?str_app_nil_l, ?str_app_cons; [congruence|].
        destruct before; by rewrite ?str_app_cons.
    + exists n. split; [by rewrite str_app_cons, <- E|].
      intros [|b' before]; rewrite ?str_app_nil_l, ?str_app_cons; [done|].
      intros [= -> E']. by apply (Hend before).
Qed.

Lemma endsWith_spec (s pat : string) :
  Js.endsWith s pat = true <-> exists before, s = before +:+ pat.
Proof.
  induction s as [|c s IH]; cbn [Js.endsWith].
  - rewrite String.eqb_eq. split; [intros ->; by exists EmptyString|].
    intros ([|b before] & E); by rewrite ?str_app_nil_l, ?str_app_cons in E.
  - rewrite orb_true_iff, String.eqb_eq, IH. split.
    + intros [<-|[before ->]]; [by exists EmptyString|].
      exists (String c before). by rewrite str_app_cons.
    + intros ([|b before] & E); rewrite ?str_app_nil_l, ?str_app_cons in E; [by left|].
      injection E as -> ->. right. by exists before.
Qed.

(** C6 (as amended).  For a string that parses as a URL, normalizeUrl puts
    into its result the path without any of its trailing slashes, unless the
    path is exactly "/", which is kept as it is. *)
Theorem normalizeUrl_trailing_slashes newURL url parsed :
  newURL url = Ok parsed ->
  exists path,
    normalizeUrl newURL url =
      protocol parsed +:+ "//" +:+ normalizedHostname parsed +:+ path +:+
      (let query := URLSearchParams.toString (filteredParams parsed) in
       if Js.truthy query then "?" +:+ query else EmptyString) /\
    (pathname parsed = "/" -> path = "/") /\
    (pathname parsed <> "/" ->
     (exists n, pathname parsed = path +:+ Js.repeatChar "/" n) /\
     forall before, path <> before +:+ "/").
Proof.
  intros Hparsed. exists (normalizedPathname parsed).
  split; [by apply normalizeUrl_parsed|].
  unfold normalizedPathname. split.
  - by intros ->.
  - intros Hroot. destruct (String.eqb_spec (pathname parsed) "/") as [|_]; [done|].
    cbn [negb andb]. destruct (Js.endsWith (pathname parsed) "/") eqn:E.
    + destruct (stripTrailing_spec "/" (pathname parsed)) as (n & Hn & Hend).
      split; [by exists n|done].
    + split; [exists 0%nat; by rewrite str_app_nil_r|].
      intros before Hb. assert (Js.endsWith (pathname parsed) "/" = true) as E'.
      { apply endsWith_spec. by exists before. }
      congruence.
Qed.

Lemma normalizeUrl_trailing_slashes_witness :
  exists path,
    normalizeUrl exampleURL "https://example.com/page//" =
      "https:" +:+ "//" +:+ "example.com" +:+ path +:+ "" /\
    ("/page//" = "/" -> path = "/") /\
    ("/page//" <> "/" ->
     (exists n, "/page//" = path +:+ Js.repeatChar "/" n) /\
     forall before, path <> before +:+ "/").
Proof.
  exact (normalizeUrl_trailing_slashes exampleURL "https://example.com/page//"
           {| protocol := "https:"; hostname := "example.com";
              pathname := "/page//"; searchParams := [] |} eq_refl).
Defined.

(** C6 as stated fails: of a path that ends in two slashes both are
    stripped, not exactly one. *)
Lemma normalizeUrl_strips_more_than_one_slash :
  exampleURL "https://example.com/page//" =
    Ok {| protocol := "https:"; hostname := "example.com";
          pathname := "/page//"; searchParams := [] |} /\
  normalizeUrl exampleURL "https://example.com/page//" = "https://example.com/page" /\
  normalizeUrl exampleURL "https://example.com/page//" <> "https://example.com/page/".
Proof. by vm_compute. Qed.

(** C7 (as amended).  A string that does not parse as a URL is returned
    unchanged.  No other string that does not parse has the same key, and
    deduplicateUrls keeps such a string unless a URL of the list that does
    parse is normalized to that very string. *)
Theorem normalizeUrl_unparseable newURL url :
  newURL url = Throw ->
  normalizeUrl newURL url = url /\
  (forall other, newURL other = Throw ->
     normalizeUrl newURL other = normalizeUrl newURL url -> other = url) /\
  (forall urls, url ∈ urls ->
     (forall other parsed, other ∈ urls -> newURL other = Ok parsed ->
        normalizeUrl newURL other <> url) ->
     url ∈ deduplicateUrls newURL urls).
Proof.
  intros Hthrow. split; [by apply normalizeUrl_thrown|]. split.
  - intros other Hother. by rewrite !normalizeUrl_thrown.
  - intros urls Hin Hparsed.
    destruct (deduplicateUrls_spec newURL urls)
      as (Hsub & _ & Hcover & _).
    apply Hcover in Hin. rewrite (normalizeUrl_thrown _ _ Hthrow) in Hin.
    apply list_elem_of_fmap in Hin as (kept & Hkey & Hkept).
    destruct (newURL kept) as [parsed|] eqn:E.
    + exfalso. eapply Hparsed; [|done|done].
      by eapply elem_of_sublist.
    + rewrite (normalizeUrl_thrown _ _ E) in Hkey. by subst.
Qed.

Lemma normalizeUrl_unparseable_witness :
  normalizeUrl exampleURL "not-a-url" = "not-a-url" /\
  (forall other, exampleURL other = Throw ->
     normalizeUrl exampleURL other = normalizeUrl exampleURL "not-a-url" ->
     other = "not-a-url") /\
  (forall urls, "not-a-url" ∈ urls ->
     (forall other parsed, other ∈ urls -> exampleURL other = Ok parsed ->
        normalizeUrl exampleURL other <> "not-a-url") ->
     "not-a-url" ∈ deduplicateUrls exampleURL urls).
Proof. exact (normalizeUrl_unparseable exampleURL "not-a-url" eq_refl). Defined.

(** C7 as stated fails: a URL that parses can be normalized to a string
    that does not parse; the two then share a key, and deduplicateUrls drops
    the one that does not parse. *)
Lemma unparseable_url_shares_key :
  exampleURL "data://<b>" = Throw /\
  "data:<b>" <> "data://<b>" /\
  normalizeUrl exampleURL "data:<b>" = normalizeUrl exampleURL "data://<b>" /\
  deduplicateUrls exampleURL ["data:<b>"; "data://<b>"] = ["data:<b>"].
Proof. by vm_compute. Qed.

(** C2, the code at the failing input: of a query parameter that is not a
    tracking parameter and occurs twice, only one pair is left, with the
    value of the last occurrence. *)
Theorem normalizeUrl_repeated_parameter :
  exampleURL "https://example.com/p?tag=a&tag=b" =
    Ok {| protocol := "https:"; hostname := "example.com"; pathname := "/p";
          searchParams := [("tag", "a"); ("tag", "b")] |} /\
  filteredParams {| protocol := "https:"; hostname := "example.com";
                    pathname := "/p";
                    searchParams := [("tag", "a"); ("tag", "b")] |} =
    [("tag", "b")] /\
  normalizeUrl exampleURL "https://example.com/p?tag=a&tag=b" =
    "https://example.com/p?tag=b".
Proof. by vm_compute. Qed.

(** ** extractTitle *)

Lemma present_nonempty (value : option string) :
  present value = true <-> exists t, value = Some t /\ t <> EmptyString.
Proof.
  destruct value as [t|]; cbn [present]; unfold Js.truthy.
  - rewrite negb_true_iff. split.
    + intros H. exists t. split; [done|]. intros ->. by rewrite String.eqb_refl in H.
    + intros (? & [= <-] & Hne). by apply String.eqb_neq.
  - split; [done|]. by intros (? & ? & _).
Qed.


Lemma trimEnd_idempotent s : Js.trimEnd (Js.trimEnd s) = Js.trimEnd s.
Proof.
  induction s as [|c s IH]; [done|]. cbn [Js.trimEnd].
  destruct (Js.trimEnd s) as [|b r] eqn:E.
  - destruct (Js.isWhiteSpace c) eqn:Ec; [done|]. cbn [Js.trimEnd]. by rewrite Ec.
  - cbn [Js.trimEnd] in *. by rewrite IH.
Qed.

Lemma trimEnd_head c s :
  Js.isWhiteSpace c = false -> exists r, Js.trimEnd (String c s) = String c r.
Proof.
  intros Hc. cbn [Js.trimEnd]. destruct (Js.trimEnd s); rewrite ?Hc; by eexists.
Qed.

Lemma trimStart_head s :
  Js.trimStart s = EmptyString \/
  exists c r, Js.trimStart s = String c r /\ Js.isWhiteSpace c = false.
Proof.
  induction s as [|c s IH]; [by left|]. cbn [Js.trimStart].
  destruct (Js.isWhiteSpace c) eqn:E; [done|]. right. by exists c, s.
Qed.

(** Trimming twice is trimming once. *)
Lemma trim_idempotent s : Js.trim (Js.trim s) = Js.trim s.
Proof.
  unfold Js.trim. destruct (trimStart_head s) as [->|(c & r & -> & Hc)]; [done|].
  destruct (trimEnd_head c r Hc) as [r' E].
  rewrite E. cbn [Js.trimStart]. rewrite Hc, <- E. apply trimEnd_idempotent.
Qed.


(** ** extractContent *)

(** C3, the code at the failing input: two lines that hold a single space
    survive the collapse of newline runs and are emptied afterwards, so that
    the extracted text has three newlines in a row. *)
Theorem extractContent_three_newlines :
  let html :=
    "<html><body><p>a" +:+ String Js.LF (" " +:+ String Js.LF (" " +:+
      String Js.LF "b</p></body></html>")) in
  let newlines := String Js.LF (String Js.LF (String Js.LF EmptyString)) in
  cleanWhitespace
    ("a" +:+ String Js.LF (" " +:+ String Js.LF (" " +:+ String Js.LF "b"))) =
    "a" +:+ newlines +:+ "b" /\
  extractContent html 15000 = "a" +:+ newlines +:+ "b" /\
  Js.includes (extractContent html 15000) newlines = true.
Proof. by vm_compute. Qed.

(** ** Object literals *)

Lemma assign_other {V} (key : string) (value : V) (object : gmap string V) :
  key <> "__proto__" -> Obj.assign key value object = <[key := value]> object.
Proof. intros H. unfold Obj.assign. by destruct (String.eqb_spec key "__proto__"). Qed.

Lemma assign_proto {V} (value : V) (object : gmap string V) :
  Obj.assign "__proto__" value object = object.
Proof. done. Qed.

Lemma assign_lookup_other {V} (key other : string) (value : V) (object : gmap string V) :
  other <> key -> Obj.assign key value object !! other = object !! other.
Proof.
  intros H. unfold Obj.assign. destruct (String.eqb key "__proto__"); [done|].
  by rewrite lookup_insert_ne.
Qed.

Lemma assign_lookup_proto {V} (key : string) (value : V) (object : gmap string V) :
  Obj.assign key value object !! "__proto__" = object !! "__proto__".
Proof.
  unfold Obj.assign. destruct (String.eqb_spec key "__proto__") as [|H]; [done|].
  by rewrite lookup_insert_ne.
Qed.

(** ** fetchPages *)

Lemma organize_fold (entries : list (string * Fetch.PageResult)) :
  forall contents titles errors,
    "__proto__" ∉ entries.*1 ->
    let '(contents', _, errors') :=
      foldl Fetch.organize (contents, titles, errors) entries in
    dom contents' =
      dom contents ∪ list_to_set (filter (fun e => succeeded e.2) entries).*1 /\
    dom errors' =
      dom errors ∪ list_to_set (filter (fun e => failed e.2) entries).*1.
Proof.
  induction entries as [|[url result] entries IH]; intros contents titles errors Hproto.
  - cbn. split; set_solver.
  - cbn [fmap list_fmap fst] in Hproto.
    apply not_elem_of_cons in Hproto as [Hurl Hproto].
    assert (forall (v : string) (m : gmap string string),
              Obj.assign url v m = <[url := v]> m) as Hassign
      by (intros; by apply assign_other).
    cbn [foldl Fetch.organize]. rewrite !Hassign.
    destruct (present (Fetch.error result)) eqn:Ee.
    + specialize (IH contents titles (<[url := orEmpty (Fetch.error result)]> errors) Hproto).
      destruct (foldl Fetch.organize _ entries) as [[contents' titles'] errors'].
      destruct IH as [-> ->].
      rewrite filter_cons_False by (unfold succeeded; cbn; intros [? _]; congruence).
      rewrite (filter_cons_True (fun e => failed e.2)) by done.
      rewrite dom_insert_L. split; set_solver.
    + destruct (present (Fetch.content result)) eqn:Ec.
      * specialize (IH (<[url := orEmpty (Fetch.content result)]> contents)
                      (if present (Fetch.title result)
                       then <[url := orEmpty (Fetch.title result)]> titles else titles)
                      errors Hproto).
        destruct (foldl Fetch.organize _ entries) as [[contents' titles'] errors'].
        destruct IH as [-> ->].
        rewrite (filter_cons_True (fun e => succeeded e.2)) by done.
        rewrite (filter_cons_False (fun e => failed e.2))
          by (unfold failed; cbn; congruence).
        rewrite dom_insert_L. split; set_solver.
      * specialize (IH contents
                      (if present (Fetch.title result)
                       then <[url := orEmpty (Fetch.title result)]> titles else titles)
                      errors Hproto).
        destruct (foldl Fetch.organize _ entries) as [[contents' titles'] errors'].
        destruct IH as [-> ->].
        rewrite (filter_cons_False (fun e => succeeded e.2))
          by (unfold succeeded; cbn; intros [_ ?]; congruence).
        rewrite (filter_cons_False (fun e => failed e.2))
          by (unfold failed; cbn; congruence).
        done.
Qed.

Lemma zip_imap_fst {A B} (f : nat -> A -> B) (l : list A) :
  (zip l (imap f l)).*1 = l.
Proof.
  revert f. induction l as [|x l IH]; intros f; [done|].
  cbn. by rewrite IH.
Qed.

Lemma zip_imap_lookup {A B} (f : nat -> A -> B) (l : list A) entry :
  entry ∈ zip l (imap f l) ->
  exists i, l !! i = Some entry.1 /\ entry.2 = f i entry.1.
Proof.
  revert f. induction l as [|x l IH]; intros f; [by intros ?%elem_of_nil|].
  cbn. intros [->|Hin]%elem_of_cons.
  - by exists 0%nat.
  - destruct (IH _ Hin) as (i & Hi & Hf). by exists (S i).
Qed.

Lemma filter_fst_NoDup {A} (P : string * A -> Prop) `{!forall e, Decision (P e)}
    (entries : list (string * A)) :
  NoDup entries.*1 -> NoDup (filter P entries).*1.
Proof.
  intros Hnd. eapply sublist_NoDup; [done|]. apply fmap_sublist, sublist_filter.
Qed.

(** C5 (as amended).  For the empty list every map is empty and both counts
    are zero.  For pairwise distinct URLs, none of which is "__proto__",
    and of which every page yields an error message or a text that is not
    empty, successCount + errorCount is the number of URLs, and the keys of
    contents and of errors partition the URLs. *)
Theorem fetchPages_partition `{host : Dom} (maxChars timeout : Z)
    (network : nat -> string -> Settled Fetch.Response) :
  Fetch.fetchPages [] maxChars timeout network =
    {| Fetch.contents := ∅; Fetch.titles := ∅; Fetch.errors := ∅;
       Fetch.successCount := 0; Fetch.errorCount := 0 |} /\
  forall urls : list string,
    NoDup urls ->
    "__proto__" ∉ urls ->
    (forall i url, urls !! i = Some url ->
       let result := Fetch.fetchSinglePage url timeout maxChars (network i url) in
       failed result \/ succeeded result) ->
    let result := Fetch.fetchPages urls maxChars timeout network in
    Fetch.successCount result + Fetch.errorCount result = Z.of_nat (length urls) /\
    dom (Fetch.contents result) ∪ dom (Fetch.errors result) = list_to_set urls /\
    dom (Fetch.contents result) ## dom (Fetch.errors result).
Proof.
  split; [done|]. intros urls Hnodup Hproto Hrecorded. cbn zeta.
  unfold Fetch.fetchPages. case_bool_decide as Hempty.
  { subst urls. cbn. split; [done|]. split; set_solver. }
  set (results := imap _ urls).
  pose proof (organize_fold (zip urls results) ∅ ∅ ∅) as Hfold.
  unfold results in Hfold at 1. rewrite zip_imap_fst in Hfold.
  specialize (Hfold Hproto). fold results in Hfold.
  destruct (foldl Fetch.organize _ _) as [[contents titles] errors].
  destruct Hfold as [Hc He]. rewrite dom_empty_L, (left_id_L ∅ (∪)) in Hc, He.
  cbn [Fetch.successCount Fetch.errorCount Fetch.contents Fetch.errors].
  set (entries := zip urls results) in *.
  assert (entries.*1 = urls) as Hfst by apply zip_imap_fst.
  assert (forall e : string * Fetch.PageResult,
            e ∈ entries -> failed e.2 \/ succeeded e.2) as Hall.
  { intros e (i & Hi & ->)%zip_imap_lookup. by apply Hrecorded. }
  assert (forall e : string * Fetch.PageResult,
            succeeded e.2 -> ~ failed e.2) as Hexcl.
  { intros e [H _] H'. unfold failed in H'. congruence. }
  assert (NoDup entries.*1) as Hnd by by rewrite Hfst.
  split; [|split].
  - rewrite <- !size_dom, Hc, He.
    rewrite !size_list_to_set by by apply filter_fst_NoDup.
    rewrite !length_fmap, <- Hfst, length_fmap.
    clear -Hall Hexcl. induction entries as [|e entries IH]; [done|].
    rewrite !filter_cons. specialize (IH (fun x Hx => Hall x (list_elem_of_further _ _ _ Hx))).
    destruct (Hall e) as [Hf|Hs]; [by left| |].
    + destruct (decide (succeeded e.2)) as [Hs|_]; [by apply Hexcl in Hs|].
      destruct (decide (failed e.2)); [|done]. cbn [length]. lia.
    + destruct (decide (succeeded e.2)); [|done].
      destruct (decide (failed e.2)) as [Hf|_]; [by apply Hexcl in Hf|].
      cbn [length]. lia.
  - rewrite Hc, He, <- Hfst. apply set_eq. intros url.
    rewrite elem_of_union, !elem_of_list_to_set, !list_elem_of_fmap. split.
    + intros [(e & -> & [_ He']%list_elem_of_filter)|(e & -> & [_ He']%list_elem_of_filter)];
        by exists e.
    + intros (e & -> & Hin). destruct (Hall e Hin); [right|left];
        exists e; (split; [done|]); by apply list_elem_of_filter.
  - rewrite Hc, He. intros url.
    rewrite !elem_of_list_to_set, !list_elem_of_fmap.
    intros (e & -> & [Hs He']%list_elem_of_filter)
           (e' & Hurl & [Hf He'']%list_elem_of_filter).
    assert (e = e') as <-.
    { destruct e as [u r], e' as [u' r']. cbn in Hurl. subst u'.
      apply list_elem_of_lookup in He' as [i Hi], He'' as [j Hj].
      assert (i = j) as ->; [|congruence].
      eapply NoDup_lookup; [exact Hnd| |]; rewrite list_lookup_fmap;
        [by rewrite Hi|by rewrite Hj]. }
    by apply Hexcl in Hs.
Qed.

Lemma fetchPages_partition_witness :
  let urls := ["https://good.example.com"; "https://bad.example.com"] in
  let network (i : nat) (url : string) :=
    if bool_decide (i = 0%nat)
    then htmlResponse 200
           "<html><head><title>Good</title></head><body><p>Content</p></body></html>"
    else htmlResponse 500 "" in
  let result := Fetch.fetchPages urls 15000 30 network in
  Fetch.successCount result + Fetch.errorCount result = 2 /\
  dom (Fetch.contents result) ∪ dom (Fetch.errors result) = list_to_set urls /\
  dom (Fetch.contents result) ## dom (Fetch.errors result).
Proof.
  intros urls network.
  refine (proj2 (fetchPages_partition 15000 30 network) urls _ _ _).
  - refine (bool_decide_unpack (NoDup urls) _). vm_compute. exact I.
  - refine (bool_decide_unpack ("__proto__" ∉ urls) _). vm_compute. exact I.
  - intros [|[|i]] url Hurl; try discriminate Hurl; injection Hurl as <-.
    + right. split; vm_compute; reflexivity.
    + left. vm_compute. reflexivity.
Defined.

(** C5 as stated fails, in three ways.  A page that is fetched but has no
    text is recorded in neither map.  A URL that is listed twice is counted
    once.  And a page under the URL "__proto__" is recorded nowhere, for
    the assignment [errors[url] = ...] creates no property of that name. *)
Lemma fetchPages_counts_fall_short :
  (let urls := ["https://example.com/"] in
   let result := Fetch.fetchPages urls 15000 30 (fun _ _ => htmlResponse 200 "") in
   Fetch.successCount result + Fetch.errorCount result = 0 /\
   Z.of_nat (length urls) = 1 /\
   "https://example.com/" ∉ dom (Fetch.contents result) ∪ dom (Fetch.errors result)) /\
  (let urls := ["https://bad.example.com"; "https://bad.example.com"] in
   let result := Fetch.fetchPages urls 15000 30 (fun _ _ => htmlResponse 500 "") in
   Fetch.successCount result + Fetch.errorCount result = 1 /\
   Z.of_nat (length urls) = 2) /\
  (let urls := ["__proto__"] in
   let rejected := Rejected (ErrorObject "TypeError" "Invalid URL") in
   let result := Fetch.fetchPages urls 15000 30 (fun _ _ => rejected) in
   Fetch.fetchSinglePage "__proto__" 30 15000 rejected =
     Fetch.failure "Invalid URL" /\
   Fetch.successCount result + Fetch.errorCount result = 0 /\
   Z.of_nat (length urls) = 1 /\
   "__proto__" ∉ dom (Fetch.contents result) ∪ dom (Fetch.errors result)).
Proof.
  cbn zeta. split; [|split].
  - split; [by vm_compute|]. split; [done|].
    apply (bool_decide_unpack _). by vm_compute.
  - split; [by vm_compute|done].
  - split; [by vm_compute|]. split; [by vm_compute|]. split; [done|].
    apply (bool_decide_unpack _). by vm_compute.
Qed.

(** ** multiSearch *)

Section MultiSearch.
Variable newURL : string -> Try URL.
Variable endpoint : nat -> string -> list Search.Hit.

Lemma run_searchFrom {A} (queries : list string) (resultsPerQuery : Z) :
  forall (i : Z) (n : nat) (allResults : list (list Search.Hit))
         (rest : list (list Search.Hit) -> Search.Async A),
    0 < i ->
    Search.run endpoint n
      (Search.searchFrom i queries resultsPerQuery allResults rest) =
    let '(events, a) :=
      Search.run endpoint (n + length queries)
        (rest (allResults ++ responses endpoint n queries)) in
    (flat_map (fun query =>
                 [Search.DelayElapsed Search.INTER_QUERY_DELAY_MS;
                  Search.RequestIssued query resultsPerQuery;
                  Search.RequestCompleted query]) queries ++ events, a).
Proof.
  induction queries as [|query later IH]; intros i n allResults rest Hi.
  - cbn. rewrite app_nil_r, Nat.add_0_r. by destruct (Search.run _ _ _).
  - cbn [Search.searchFrom]. destruct (Z.ltb_spec 0 i); [|lia].
    cbn [Search.run Search.request Search.asked]. rewrite IH by lia.
    cbn [responses length flat_map]. rewrite <- app_assoc. cbn [app].
    replace (S n + length later)%nat with (n + S (length later))%nat by lia.
    by destruct (Search.run _ _ _).
Qed.

(** What a run of multiSearch does and returns. *)
Lemma run_multiSearch (queries : list string) (resultsPerQuery : Z) :
  Search.run endpoint 0 (Search.multiSearch newURL queries resultsPerQuery) =
    (schedule queries resultsPerQuery,
     Search.aggregate newURL queries (responses endpoint 0 queries)).
Proof.
  unfold Search.multiSearch. destruct queries as [|first later].
  - cbn. unfold Search.aggregate. cbn. done.
  - rewrite bool_decide_eq_false_2 by done.
    cbn [Search.searchFrom]. replace (0 <? 0) with false by done.
    cbn [Search.run Search.request Search.asked]. rewrite run_searchFrom by lia.
    cbn [Search.run app responses schedule]. by rewrite app_nil_r.
Qed.

End MultiSearch.

(** C9.  A run of multiSearch issues one request per query, in the order of
    the queries; the program is resumed with the result of a request before
    it does anything else, and before every request but the first a delay
    of 400 ms elapses: the events are those of [schedule], which are, for
    the queries q1, q2, ..., the request for q1, its completion, 400 ms,
    the request for q2, its completion, 400 ms, and so on. *)
Theorem multiSearch_sequential (newURL : string -> Try URL)
    (endpoint : nat -> string -> list Search.Hit)
    (queries : list string) (resultsPerQuery : Z) :
  (Search.run endpoint 0 (Search.multiSearch newURL queries resultsPerQuery)).1 =
    schedule queries resultsPerQuery.
Proof. by rewrite run_multiSearch. Qed.

(** Not every program does this: one that calls searchSingleQuery twice
    before it awaits has its second request out before the first is
    completed. *)
Lemma searchTogether_overlaps (endpoint : nat -> string -> list Search.Hit)
    (first second : string) (resultsPerQuery : Z) :
  (Search.run endpoint 0 (searchTogether first second resultsPerQuery)).1 =
    [Search.RequestIssued first resultsPerQuery;
     Search.RequestIssued second resultsPerQuery;
     Search.RequestCompleted first; Search.RequestCompleted second] /\
  (Search.run endpoint 0 (searchTogether first second resultsPerQuery)).1 <>
    schedule [first; second] resultsPerQuery.
Proof. split; [done|]. cbn. discriminate. Qed.

Lemma fromEntries_lookup {V} (f : string -> V) (keys : list string) (key : string) :
  Search.fromEntries (map (fun k => (k, f k)) keys) !! key =
    if decide (key ∈ keys) then Some (f key) else None.
Proof.
  unfold Search.fromEntries.
  assert (forall object : gmap string V,
            foldl (fun object kv => <[kv.1 := kv.2]> object) object
                  (map (fun k => (k, f k)) keys) !! key =
              if decide (key ∈ keys) then Some (f key) else object !! key) as H.
  { induction keys as [|k keys IH]; intros object.
    - cbn. by rewrite decide_False by apply not_elem_of_nil.
    - cbn [map foldl]. rewrite IH. cbn [fst snd].
      destruct (decide (key ∈ keys)) as [Hin|Hout].
      + by rewrite decide_True by by right.
      + destruct (decide (k = key)) as [->|Hne].
        * rewrite lookup_insert_eq. by rewrite decide_True by by left.
        * rewrite lookup_insert_ne by done.
          rewrite decide_False; [done|].
          intros [->|?]%elem_of_cons; done. }
  rewrite H. destruct (decide (key ∈ keys)); [done|apply lookup_empty].
Qed.

Lemma fromEntries_dom {V} (f : string -> V) (keys : list string) :
  dom (Search.fromEntries (map (fun k => (k, f k)) keys)) = list_to_set keys.
Proof.
  apply set_eq. intros key.
  rewrite elem_of_dom, fromEntries_lookup, elem_of_list_to_set.
  destruct (decide (key ∈ keys)); [by split; eauto|].
  split; [by intros [? ?]|done].
Qed.

Lemma find_app {A} (f : A -> bool) (l1 l2 : list A) :
  find f (l1 ++ l2) = match find f l1 with Some x => Some x | None => find f l2 end.
Proof. induction l1 as [|x l1 IH]; [done|]. cbn. by destruct (f x). Qed.

Lemma collectHit_fold (hits : list Search.Hit) :
  forall c queryUrls seen,
    collectedFrom c seen ->
    collectedFrom (foldl Search.collectHit (c, queryUrls) hits).1 (seen ++ hits).
Proof.
  induction hits as [|hit hits IH]; intros c queryUrls seen Hc.
  - by rewrite app_nil_r.
  - cbn [foldl]. replace (seen ++ hit :: hits) with ((seen ++ [hit]) ++ hits)
      by by rewrite <- app_assoc.
    unfold Search.collectHit at 2. unfold Js.truthy. rewrite negb_involutive.
    destruct (String.eqb_spec (Search.url hit) EmptyString) as [Hempty|Hurl].
    + apply IH. destruct Hc as [Hc Hall]. split; [|done].
      intros url Hne. cbn zeta. rewrite find_app. cbn [find].
      destruct (String.eqb_spec (Search.url hit) url) as [E|_]; [congruence|].
      destruct (Hc url Hne) as [-> ->]. by destruct (find _ seen).
    + apply IH. destruct Hc as [Hc Hall]. split.
      * intros url Hne. cbn zeta. rewrite find_app. cbn [find].
        cbn [Search.urlToSnippet Search.urlToTitle].
        destruct (Hc url Hne) as [Hs Ht]. cbn zeta in Hs, Ht.
        destruct (String.eqb_spec (Search.url hit) url) as [->|Hother].
        -- unfold Obj.has. rewrite Hs.
           case_bool_decide as Hproto.
           ++ rewrite orb_true_r. cbn [negb]. by rewrite Hs, Ht.
           ++ rewrite orb_false_r.
              assert (url <> "__proto__") as Hnp.
              { intros ->. apply Hproto. unfold Obj.PROTOTYPE_NAMES. set_solver. }
              destruct (find _ seen) as [earlier|]; cbn [fmap option_fmap option_map].
              ** rewrite bool_decide_eq_true_2 by by eexists. cbn [negb].
                 by rewrite Hs, Ht.
              ** rewrite bool_decide_eq_false_2 by by intros [? ?]. cbn [negb].
                 rewrite !assign_other by done. by rewrite !lookup_insert_eq.
        -- assert (forall (m : gmap string string) v,
                     (if negb (Obj.has (Search.url hit) (Search.urlToSnippet c))
                      then Obj.assign (Search.url hit) v m else m) !! url = m !! url)
             as Hkeep.
           { intros m v. destruct (negb _); [|done]. by rewrite assign_lookup_other. }
           rewrite !Hkeep, Hs, Ht. by destruct (find _ seen).
      * cbn [Search.allUrls]. apply Forall_app. split; [done|].
        by apply Forall_singleton.
Qed.

Lemma collectQuery_fold (entries : list (string * list Search.Hit)) :
  forall c seen,
    collectedFrom c seen ->
    collectedFrom (foldl Search.collectQuery c entries) (seen ++ concat entries.*2).
Proof.
  induction entries as [|[query hits] entries IH]; intros c seen Hc.
  - cbn. by rewrite app_nil_r.
  - cbn [foldl fmap list_fmap concat snd]. rewrite app_assoc. apply IH.
    unfold Search.collectQuery.
    pose proof (collectHit_fold hits c [] seen Hc) as H.
    destruct (foldl Search.collectHit (c, []) hits) as [c' queryUrls].
    destruct H as [H Hall]. split; [exact H|exact Hall].
Qed.

Lemma zip_responses_snd (endpoint : nat -> string -> list Search.Hit) queries :
  forall n, (zip queries (responses endpoint n queries)).*2 =
            responses endpoint n queries.
Proof. induction queries as [|q queries IH]; intros n; [done|]. cbn. by rewrite IH. Qed.

(** What the code puts into the snippets map and the titles map.  Their
    keys are the deduplicated URLs.  A URL that is not the name of a member
    of [Object.prototype] is mapped to the snippet and to the title of its
    first hit; a URL that is such a name is mapped to that member. *)
Lemma multiSearch_metadata (newURL : string -> Try URL)
    (endpoint : nat -> string -> list Search.Hit)
    (queries : list string) (resultsPerQuery : Z) :
  let result :=
    (Search.run endpoint 0 (Search.multiSearch newURL queries resultsPerQuery)).2 in
  dom (Search.snippets result) = list_to_set (Search.urls result) /\
  dom (Search.titles result) = list_to_set (Search.urls result) /\
  forall url, url ∈ Search.urls result ->
    let first := firstHit (responses endpoint 0 queries) url in
    Search.snippets result !! url =
      Some (if bool_decide (url ∈ Obj.PROTOTYPE_NAMES) then Obj.Inherited url
            else Obj.Str (orEmpty (Search.snippet <$> first))) /\
    Search.titles result !! url =
      Some (if bool_decide (url ∈ Obj.PROTOTYPE_NAMES) then Obj.Inherited url
            else Obj.Str (orEmpty (Search.title <$> first))).
Proof.
  cbn zeta. rewrite run_multiSearch. cbn [snd]. unfold Search.aggregate.
  cbn [Search.snippets Search.titles Search.urls].
  split; [apply fromEntries_dom|]. split; [apply fromEntries_dom|].
  intros url Hurl. rewrite !fromEntries_lookup, !decide_True by done.
  pose proof (collectQuery_fold (zip queries (responses endpoint 0 queries))
                Search.noneCollected []) as H.
  rewrite zip_responses_snd in H. cbn [app] in H.
  destruct H as [H Hall].
  { split; [|constructor]. intros u _. cbn zeta.
    unfold Search.noneCollected. cbn [Search.urlToSnippet Search.urlToTitle find].
    rewrite !lookup_empty. by case_bool_decide. }
  assert (url <> EmptyString) as Hne.
  { eapply Forall_forall in Hall; [exact Hall|].
    eapply elem_of_sublist; [exact Hurl|].
    apply (deduplicateUrls_spec newURL). }
  destruct (H url Hne) as [Hs Ht]. cbn zeta in Hs, Ht.
  unfold Obj.get, firstHit. rewrite Hs, Ht.
  assert (forall s : option string,
            Obj.orEmptyString match s with Some t => Obj.Str t | None => Obj.Undefined end
            = Obj.Str (orEmpty s)) as Hor.
  { intros [t|]; [|done]. cbn. unfold Js.truthy.
    by destruct (String.eqb_spec t EmptyString) as [->|]. }
  case_bool_decide; [done|].
  split; f_equal.
  - rewrite <- Hor. by destruct (find _ _).
  - rewrite <- Hor. by destruct (find _ _).
Qed.

(** C10.  The claim fails in the code for a URL that is the name of a member
    of [Object.prototype].  One query has one hit with the URL
    "constructor", the title "TC" and the snippet "SC".  The test
    ["constructor" in urlToSnippet] is true of the empty object, so neither
    the snippet nor the title is recorded; and [urlToSnippet[url] || ""]
    then reads the inherited member.  The maps that are returned have the
    key, but its value is neither the string of the hit nor the empty
    string. *)
Theorem multiSearch_inherited_metadata :
  let hit := {| Search.url := "constructor"; Search.title := "TC";
                Search.snippet := "SC" |} in
  let endpoint := fun (_ : nat) (_ : string) => [hit] in
  let result :=
    (Search.run endpoint 0 (Search.multiSearch exampleURL ["q"] 5)).2 in
  Search.urls result = ["constructor"] /\
  Search.snippets result !! "constructor" = Some (Obj.Inherited "constructor") /\
  Search.titles result !! "constructor" = Some (Obj.Inherited "constructor") /\
  Search.snippets result !! "constructor" <> Some (Obj.Str "SC") /\
  Search.snippets result !! "constructor" <> Some (Obj.Str EmptyString) /\
  Search.titles result !! "constructor" <> Some (Obj.Str "TC") /\
  Search.titles result !! "constructor" <> Some (Obj.Str EmptyString).
Proof.
  cbn zeta.
  assert (Search.urls
            (Search.run (fun _ _ => [{| Search.url := "constructor";
                                        Search.title := "TC";
                                        Search.snippet := "SC" |}]) 0
               (Search.multiSearch exampleURL ["q"] 5)).2 = ["constructor"])
    as Hurls by by vm_compute.
  split; [done|].
  pose proof (multiSearch_metadata exampleURL
                (fun _ _ => [{| Search.url := "constructor"; Search.title := "TC";
                                Search.snippet := "SC" |}]) ["q"] 5) as H.
  cbn zeta in H. destruct H as (_ & _ & H).
  destruct (H "constructor") as [Hs Ht]; [rewrite Hurls; by left|].
  rewrite bool_decide_eq_true_2 in Hs, Ht
    by (unfold Obj.PROTOTYPE_NAMES; set_solver).
  rewrite Hs, Ht. done.
Qed.

(** ** Further properties of content.ts *)

Lemma singleSpaced_cons a s :
  singleSpaced (String a s) = (negb (Ascii.eqb a Js.SP) || noLeadingSpace s) && singleSpaced s.
Proof.
  destruct s as [|b r]; cbn [singleSpaced noLeadingSpace].
  - by rewrite orb_true_r.
  - by rewrite negb_andb.
Qed.

Lemma singleSpaced_app a b :
  singleSpaced (a +:+ b) =
    singleSpaced a && singleSpaced b &&
    (noLeadingSpace b || negb (Js.endsWith a " ") ).
Proof.
  induction a as [|c a IH].
  - rewrite str_app_nil_l. cbn. by rewrite orb_true_r, andb_true_r.
  - rewrite str_app_cons, !singleSpaced_cons, IH.
    destruct a as [|d a].
    + rewrite str_app_nil_l. cbn [noLeadingSpace singleSpaced Js.endsWith].
      replace (String.eqb (String c EmptyString) " ") with (Ascii.eqb c Js.SP)
        by (unfold Js.SP; cbn; by destruct (Ascii.eqb c " ")).
      cbn. destruct (Ascii.eqb c Js.SP), (noLeadingSpace b), (singleSpaced b); done.
    + rewrite str_app_cons. cbn [noLeadingSpace].
      assert (Js.endsWith (String c (String d a)) " " = Js.endsWith (String d a) " ") as ->.
      { cbn [Js.endsWith]. replace (String.eqb (String c (String d a)) " ") with false; [done|].
        cbn. by destruct (Ascii.eqb c " "). }
      destruct (negb (Ascii.eqb c Js.SP) || negb (Ascii.eqb d Js.SP)),
        (singleSpaced (String d a)), (singleSpaced b), (noLeadingSpace b),
        (Js.endsWith (String d a) " "); done.
Qed.

(** The declarative reading of [singleSpaced]. *)
Lemma singleSpaced_spec s :
  singleSpaced s = true <-> forall before after, s <> before +:+ "  " +:+ after.
Proof.
  split.
  - intros H before after ->. rewrite !singleSpaced_app in H.
    by repeat (apply andb_prop in H as [H ?]).
  - induction s as [|a s IH]; [done|]. intros H.
    rewrite singleSpaced_cons. apply andb_true_intro. split.
    + destruct (Ascii.eqb_spec a Js.SP) as [->|]; [|done].
      destruct s as [|b r]; [done|]. cbn [negb orb noLeadingSpace].
      destruct (Ascii.eqb_spec b Js.SP) as [->|]; [|done].
      by destruct (H EmptyString r).
    + apply IH. intros before after ->.
      by apply (H (String a before) after).
Qed.

Lemma singleSpaced_replaceRuns (run : nat) (s : string) :
  singleSpaced (Js.replaceRuns Js.SP 2 " " run s) = true.
Proof.
  revert run. induction s as [|a s IH]; intros run; cbn [Js.replaceRuns].
  - by destruct run as [|[|run]].
  - destruct (Ascii.eqb_spec a Js.SP) as [->|Hne]; [apply IH|].
    rewrite singleSpaced_app, singleSpaced_cons, IH. cbn [noLeadingSpace].
    apply Ascii.eqb_neq in Hne. rewrite Hne.
    by destruct run as [|[|run]].
Qed.

Lemma trimStart_suffix s : exists before, s = before +:+ Js.trimStart s.
Proof.
  induction s as [|c s [before IH]]; [by exists EmptyString|].
  cbn [Js.trimStart]. destruct (Js.isWhiteSpace c); [|by exists EmptyString].
  exists (String c before). by rewrite str_app_cons, <- IH.
Qed.

Lemma trimEnd_prefix s : exists after, s = Js.trimEnd s +:+ after.
Proof.
  induction s as [|c s [after IH]]; [by exists EmptyString|].
  cbn [Js.trimEnd]. destruct (Js.trimEnd s) as [|b r].
  - rewrite str_app_nil_l in IH. subst after.
    destruct (Js.isWhiteSpace c); [by exists (String c s)|by exists s].
  - exists after. by rewrite str_app_cons, <- IH.
Qed.

Lemma singleSpaced_app_l a b : singleSpaced (a +:+ b) = true -> singleSpaced a = true.
Proof. rewrite singleSpaced_app. by intros [[? _]%andb_prop _]%andb_prop. Qed.

Lemma singleSpaced_app_r a b : singleSpaced (a +:+ b) = true -> singleSpaced b = true.
Proof. rewrite singleSpaced_app. by intros [[_ ?]%andb_prop _]%andb_prop. Qed.

Lemma singleSpaced_trim s : singleSpaced s = true -> singleSpaced (Js.trim s) = true.
Proof.
  unfold Js.trim. intros H.
  destruct (trimStart_suffix s) as [before Hs]. rewrite Hs in H.
  apply singleSpaced_app_r in H.
  destruct (trimEnd_prefix (Js.trimStart s)) as [after He]. rewrite He in H.
  by apply singleSpaced_app_l in H.
Qed.

Lemma split_nonempty sep s : Js.split sep s <> [].
Proof.
  destruct s as [|c s]; [done|]. cbn [Js.split].
  destruct (Ascii.eqb c sep); [done|]. by destruct (Js.split sep s).
Qed.

(** Joining what [split] returns gives the string back. *)
Lemma join_split sep s : Js.join (String sep EmptyString) (Js.split sep s) = s.
Proof.
  induction s as [|c s IH]; [done|]. cbn [Js.split].
  destruct (Ascii.eqb_spec c sep) as [->|Hne].
  - pose proof (split_nonempty sep s).
    destruct (Js.split sep s) as [|h t] eqn:E; [done|].
    cbn [Js.join] in *. by rewrite str_app_nil_l, str_app_cons, str_app_nil_l, IH.
  - pose proof (split_nonempty sep s).
    destruct (Js.split sep s) as [|h t] eqn:E; [done|].
    destruct t as [|h' t]; cbn [Js.join] in *; [by rewrite IH|].
    by rewrite str_app_cons, IH.
Qed.

Lemma singleSpaced_join (lines : list string) :
  singleSpaced (Js.join (String Js.LF EmptyString) lines) =
    forallb singleSpaced lines.
Proof.
  induction lines as [|p [|q rest] IH]; [done| |].
  - cbn. by rewrite andb_true_r.
  - cbn [Js.join forallb] in *. rewrite singleSpaced_app, str_app_cons, str_app_nil_l.
    rewrite singleSpaced_cons, IH. cbn [noLeadingSpace].
    replace (Ascii.eqb Js.LF Js.SP) with false by done. cbn.
    by rewrite andb_true_r.
Qed.

Lemma singleSpaced_cleanWhitespace text : singleSpaced (cleanWhitespace text) = true.
Proof.
  unfold cleanWhitespace. apply singleSpaced_trim.
  rewrite singleSpaced_join, forallb_forall. intros line Hline.
  apply in_map_iff in Hline as (raw & <- & Hraw). apply singleSpaced_trim.
  set (s := Js.replaceRuns Js.SP 2 " " 0 _) in *.
  pose proof (singleSpaced_replaceRuns 0 (Js.replaceRuns Js.LF 3 LFLF 0 text)) as H.
  fold s in H. rewrite <- (join_split Js.LF s), singleSpaced_join, forallb_forall in H.
  by apply H.
Qed.

(** X1. The text that cleanWhitespace returns has no two consecutive spaces. *)
Theorem cleanWhitespace_single_spaces (text before after : string) :
  cleanWhitespace text <> before +:+ "  " +:+ after.
Proof. apply singleSpaced_spec, singleSpaced_cleanWhitespace. Qed.

Lemma length_trim s : Js.length (Js.trim s) <= Js.length s.
Proof.
  unfold Js.trim. destruct (trimStart_suffix s) as [before Hs].
  destruct (trimEnd_prefix (Js.trimStart s)) as [after He].
  rewrite Hs at 2. rewrite He at 2. rewrite !str_length_app.
  pose proof (str_length_nonneg before). pose proof (str_length_nonneg after). lia.
Qed.

(** [slice(0, to)] is a prefix, whatever [to] is. *)
Lemma slice_from_start s to :
  Js.slice s 0 to = Js.take (Z.to_nat (Js.clampIndex (Js.length s) to)) s.
Proof.
  unfold Js.slice. pose proof (str_length_nonneg s).
  assert (Js.clampIndex (Js.length s) 0 = 0) as ->.
  { unfold Js.clampIndex. replace (0 <? 0) with false by done. lia. }
  change (Z.to_nat 0) with 0%nat. rewrite str_drop_0, Z.sub_0_r.
  f_equal. f_equal. unfold Js.clampIndex. destruct (Z.ltb_spec to 0); lia.
Qed.

(** Whenever truncateAtBoundary cuts, it returns a trimmed prefix of the
    text followed by one of the two markers. *)
Lemma truncateAtBoundary_shape text maxChars :
  maxChars < Js.length text ->
  exists n mark,
    truncateAtBoundary text maxChars = Js.trim (Js.take n text) +:+ mark /\
    (mark = TRUNCATED_MARK \/ mark = TRUNCATED_MARK_DOTS) /\
    (0 <= maxChars -> Z.of_nat n <= maxChars).
Proof.
  intros Hlong. unfold truncateAtBoundary.
  destruct (Z.leb_spec (Js.length text) maxChars); [lia|].
  rewrite !slice_from_start. set (n := Z.to_nat (Js.clampIndex (Js.length text) maxChars)).
  assert (0 <= maxChars -> Z.of_nat n <= maxChars) as Hn.
  { intros ?. unfold n, Js.clampIndex. destruct (Z.ltb_spec maxChars 0); lia. }
  rewrite !str_take_take.
  repeat match goal with
         | |- context [if beyond ?k ?m ?f then _ else _] => destruct (beyond k m f)
         end;
    eexists _, _; (split; [reflexivity|]); (split; [by auto|]);
    intros ?; specialize (Hn ltac:(done)); lia.
Qed.

Lemma marks_length :
  Js.length TRUNCATED_MARK = 24 /\ Js.length TRUNCATED_MARK_DOTS = 27.
Proof. done. Qed.

(** X2. The length bound of truncateAtBoundary. *)
Theorem truncateAtBoundary_length text maxChars :
  0 <= maxChars ->
  Js.length (truncateAtBoundary text maxChars) <= maxChars + 27.
Proof.
  intros Hmax. destruct (Z.le_gt_cases (Js.length text) maxChars) as [Hshort|Hlong].
  - unfold truncateAtBoundary.
    destruct (Z.leb_spec (Js.length text) maxChars); lia.
  - destruct (truncateAtBoundary_shape text maxChars) as (n & mark & -> & Hmark & Hn);
      [lia|].
    rewrite str_length_app. pose proof (length_trim (Js.take n text)).
    rewrite str_length_take in *. specialize (Hn Hmax).
    destruct marks_length. destruct Hmark as [-> | ->]; lia.
Qed.

Lemma truncateAtBoundary_length_witness :
  Js.length (truncateAtBoundary "One two three four five six seven eight." 20)
    <= 20 + 27.
Proof.
  apply (truncateAtBoundary_length "One two three four five six seven eight." 20).
  lia.
Defined.

Lemma endsWith_app a b : Js.endsWith (a +:+ b) b = true.
Proof. apply endsWith_spec. by exists a. Qed.

(** X3. A cut text always ends with the marker. *)
Theorem truncateAtBoundary_marked text maxChars :
  maxChars < Js.length text ->
  Js.endsWith (truncateAtBoundary text maxChars) "[Content truncated...]" = true.
Proof.
  intros Hlong.
  destruct (truncateAtBoundary_shape text maxChars) as (n & mark & E & Hmark & Hn);
    [done|].
  rewrite E. apply endsWith_spec.
  destruct Hmark as [-> | ->]; unfold TRUNCATED_MARK_DOTS, TRUNCATED_MARK;
    eexists; rewrite <- ?str_app_assoc; reflexivity.
Qed.

Lemma truncateAtBoundary_marked_witness :
  Js.endsWith (truncateAtBoundary "One two three four five six seven eight." 20)
              "[Content truncated...]" = true.
Proof.
  apply (truncateAtBoundary_marked "One two three four five six seven eight." 20).
  reflexivity.
Defined.

Section ContentBounds.
Context `{host : Dom}.

Lemma fallbackExtract_shape html maxChars :
  fallbackExtract html maxChars = EmptyString \/
  exists text, fallbackExtract html maxChars = truncateIfLonger (cleanWhitespace text) maxChars.
Proof.
  unfold fallbackExtract. destruct (parseHTML html) as [document|]; [|by left].
  right. cbn [mbind try_bind mret try_ret try_catch]. by eexists.
Qed.

Lemma extractContent_shape html maxChars :
  extractContent html maxChars = EmptyString \/
  exists text, extractContent html maxChars = truncateIfLonger (cleanWhitespace text) maxChars.
Proof.
  unfold extractContent. destruct (negb (Js.truthy html)); [by left|].
  destruct (parseHTML html) as [document|];
    cbn [mbind try_bind mret try_ret try_catch]; [|apply fallbackExtract_shape].
  destruct (readabilityText document) as [[text|]|];
    cbn [mbind try_bind mret try_ret try_catch]; try apply fallbackExtract_shape.
  destruct (Js.truthy text); cbn [try_catch]; [|apply fallbackExtract_shape].
  right. by eexists.
Qed.

Lemma truncateIfLonger_length cleaned maxChars :
  0 <= maxChars -> Js.length (truncateIfLonger cleaned maxChars) <= maxChars + 27.
Proof.
  intros Hmax. unfold truncateIfLonger.
  destruct (Z.gtb_spec (Js.length cleaned) maxChars); [|lia].
  by apply truncateAtBoundary_length.
Qed.

Lemma singleSpaced_take n s : singleSpaced s = true -> singleSpaced (Js.take n s) = true.
Proof. rewrite <- (str_take_drop n s) at 1. apply singleSpaced_app_l. Qed.

Lemma truncateIfLonger_singleSpaced cleaned maxChars :
  singleSpaced cleaned = true -> singleSpaced (truncateIfLonger cleaned maxChars) = true.
Proof.
  intros Hs. unfold truncateIfLonger.
  destruct (Z.gtb_spec (Js.length cleaned) maxChars) as [Hlong|]; [|done].
  destruct (truncateAtBoundary_shape cleaned maxChars) as (n & mark & -> & Hmark & _);
    [lia|].
  rewrite singleSpaced_app, singleSpaced_trim by by apply singleSpaced_take.
  by destruct Hmark as [-> | ->].
Qed.

(** X4. The length bound of extractContent. *)
Theorem extractContent_length html maxChars :
  0 <= maxChars -> Js.length (extractContent html maxChars) <= maxChars + 27.
Proof.
  intros Hmax. destruct (extractContent_shape html maxChars) as [->|[text ->]].
  - change (Js.length EmptyString) with 0. lia.
  - by apply truncateIfLonger_length.
Qed.

(** X5. [extractContent] never returns two consecutive spaces. *)
Theorem extractContent_single_spaces html maxChars before after :
  extractContent html maxChars <> before +:+ "  " +:+ after.
Proof.
  apply singleSpaced_spec.
  destruct (extractContent_shape html maxChars) as [->|[text ->]]; [done|].
  apply truncateIfLonger_singleSpaced, singleSpaced_cleanWhitespace.
Qed.

(** X6. Without a document there is no text. *)
Theorem extractContent_unparseable html maxChars :
  html = EmptyString \/ parseHTML html = Throw ->
  extractContent html maxChars = EmptyString.
Proof.
  unfold extractContent, fallbackExtract. intros [->|H]; [done|].
  rewrite H. cbn [mbind try_bind try_catch]. by destruct (negb (Js.truthy html)).
Qed.

End ContentBounds.

Lemma extractContent_length_witness :
  Js.length
    (extractContent
       "<html><head><title>Good</title></head><body><p>Content</p></body></html>" 3)
    <= 3 + 27.
Proof.
  apply (extractContent_length
           "<html><head><title>Good</title></head><body><p>Content</p></body></html>" 3).
  lia.
Defined.

Lemma extractContent_unparseable_witness :
  extractContent "" 15000 = EmptyString.
Proof. apply (extractContent_unparseable "" 15000). left. reflexivity. Defined.

(** ** Further properties of url.ts *)

Lemma filteredParams_fold parsed :
  filteredParams parsed = foldl copyParam [] (searchParams parsed).
Proof. done. Qed.

Lemma set_elem name value params kv :
  kv ∈ URLSearchParams.set name value params ->
  kv = (name, value) \/ (kv ∈ params /\ kv.1 <> name).
Proof.
  induction params as [|[k v] rest IH]; cbn [URLSearchParams.set].
  - intros ->%list_elem_of_singleton. by left.
  - destruct (String.eqb_spec k name) as [->|Hne].
    + intros [->|Hin]%elem_of_cons; [by left|].
      apply list_elem_of_filter in Hin as [Hk Hin]. right. split; [by right|done].
    + intros [->|Hin]%elem_of_cons; [right; split; [by left|done]|].
      destruct (IH Hin) as [->|[? ?]]; [by left|]. right. split; [by right|done].
Qed.

Lemma set_other name value params kv :
  kv ∈ params -> kv.1 <> name -> kv ∈ URLSearchParams.set name value params.
Proof.
  induction params as [|[k v] rest IH]; [by intros ?%elem_of_nil|].
  cbn [URLSearchParams.set]. intros [->|Hin]%elem_of_cons Hne.
  - cbn in Hne. destruct (String.eqb_spec k name); [done|]. by left.
  - destruct (String.eqb_spec k name) as [->|_].
    + right. by apply list_elem_of_filter.
    + right. by apply IH.
Qed.

Lemma set_this name value params :
  NoDup params.*1 -> (name, value) ∈ URLSearchParams.set name value params.
Proof.
  induction params as [|[k v] rest IH]; cbn [URLSearchParams.set]; intros Hnd.
  - by left.
  - destruct (String.eqb_spec k name) as [->|_]; [by left|].
    right. apply IH. by apply NoDup_cons in Hnd as [_ ?].
Qed.

Lemma set_names name value params k :
  k ∈ (URLSearchParams.set name value params).*1 <-> k = name \/ k ∈ params.*1.
Proof.
  induction params as [|[k' v] rest IH]; cbn [URLSearchParams.set].
  - cbn. rewrite list_elem_of_singleton. split; [by left|].
    by intros [?|?%elem_of_nil].
  - destruct (String.eqb_spec k' name) as [->|Hne].
    + cbn [fmap list_fmap fst]. rewrite !elem_of_cons. split.
      * intros [->|Hin]; [by left|]. right. right.
        apply list_elem_of_fmap in Hin as (kv & -> & Hin).
        apply list_elem_of_filter in Hin as [_ Hin].
        apply list_elem_of_fmap. by exists kv.
      * intros [->|[->|Hin]]; [by left|by left|].
        destruct (decide (k = name)) as [->|Hk]; [by left|]. right.
        apply list_elem_of_fmap in Hin as (kv & -> & Hin).
        apply list_elem_of_fmap. exists kv. split; [done|]. by apply list_elem_of_filter.
    + cbn [fmap list_fmap fst]. rewrite !elem_of_cons, IH. tauto.
Qed.

Lemma set_NoDup name value params :
  NoDup params.*1 -> NoDup (URLSearchParams.set name value params).*1.
Proof.
  induction params as [|[k v] rest IH]; cbn [URLSearchParams.set]; intros Hnd.
  - apply NoDup_singleton.
  - apply NoDup_cons in Hnd as [Hk Hnd].
    destruct (String.eqb_spec k name) as [->|Hne].
    + cbn [fmap list_fmap fst]. apply NoDup_cons. split.
      * intros Hin. apply Hk. apply list_elem_of_fmap in Hin as (kv & E & Hin).
        apply list_elem_of_filter in Hin as [_ Hin].
        apply list_elem_of_fmap. by exists kv.
      * eapply sublist_NoDup; [exact Hnd|]. apply fmap_sublist, sublist_filter.
    + cbn [fmap list_fmap fst]. apply NoDup_cons. split; [|by apply IH].
      rewrite set_names. intros [?|?]; done.
Qed.

Lemma set_fresh name value params :
  name ∉ params.*1 -> URLSearchParams.set name value params = params ++ [(name, value)].
Proof.
  induction params as [|[k v] rest IH]; [done|]. cbn [URLSearchParams.set].
  intros Hfresh. apply not_elem_of_cons in Hfresh as [Hne Hfresh]. cbn in Hne.
  destruct (String.eqb_spec k name); [done|]. by rewrite IH.
Qed.

Lemma copyParam_kept params param :
  kept param -> copyParam params param = URLSearchParams.set param.1 param.2 params.
Proof. intros H. unfold copyParam. by rewrite bool_decide_eq_false_2. Qed.

Lemma copyParam_tracking params param :
  ~ kept param -> copyParam params param = params.
Proof.
  intros H. unfold copyParam. rewrite bool_decide_eq_true_2; [done|].
  unfold kept in H. by apply dec_stable.
Qed.

Lemma copied_sound (params : list (string * string)) :
  forall acc,
    NoDup acc.*1 -> (forall kv, kv ∈ acc -> kept kv) ->
    let result := foldl copyParam acc params in
    NoDup result.*1 /\
    (forall kv, kv ∈ result -> kept kv /\ (kv ∈ acc \/ kv ∈ params)) /\
    (forall k, k ∈ acc.*1 -> k ∈ result.*1) /\
    (forall kv, kv ∈ params -> kept kv -> kv.1 ∈ result.*1).
Proof.
  induction params as [|[k v] params IH]; intros acc Hnd Hacc; cbn zeta.
  - cbn [foldl]. split; [done|]. split; [by auto|]. split; [done|].
    by intros ? ?%elem_of_nil.
  - cbn [foldl]. destruct (decide (kept (k, v))) as [Hk|Hk].
    + rewrite copyParam_kept by done. cbn [fst snd].
      destruct (IH (URLSearchParams.set k v acc)) as (H1 & H2 & H3 & H4).
      { by apply set_NoDup. }
      { intros kv [->|[? _]]%set_elem; [done|by apply Hacc]. }
      split; [done|]. split; [|split].
      * intros kv Hin. destruct (H2 kv Hin) as [? [Hs|?]]; (split; [done|]).
        -- apply set_elem in Hs as [->|[? _]]; [right; by left|by left].
        -- right. by right.
      * intros k' Hin. apply H3. apply set_names. by right.
      * intros kv [->|Hin]%elem_of_cons Hkv; [|by apply H4].
        apply H3. apply set_names. by left.
    + rewrite copyParam_tracking by done.
      destruct (IH acc Hnd Hacc) as (H1 & H2 & H3 & H4).
      split; [done|]. split; [|split; [done|]].
      * intros kv Hin. destruct (H2 kv Hin) as [? [?|?]]; (split; [done|]); auto.
        right. by right.
      * intros kv [->|Hin]%elem_of_cons Hkv; [done|by apply H4].
Qed.

Lemma copied_preserved (params : list (string * string)) :
  forall acc kv,
    kv ∈ acc -> (forall other, other ∈ params -> other.1 <> kv.1) ->
    kv ∈ foldl copyParam acc params.
Proof.
  induction params as [|param params IH]; intros acc kv Hin Hother; [done|].
  cbn [foldl]. apply IH; [|intros other ?; apply Hother; by right].
  unfold copyParam. case_bool_decide; [done|].
  apply set_other; [done|]. intros E. by apply (Hother param); [left|].
Qed.

(** X7. What normalizeUrl keeps of the query. *)
Theorem filteredParams_sound (parsed : URL) :
  let result := filteredParams parsed in
  NoDup result.*1 /\
  (forall kv, kv ∈ result -> kept kv /\ kv ∈ searchParams parsed) /\
  (forall kv, kv ∈ searchParams parsed -> kept kv -> kv.1 ∈ result.*1) /\
  (forall before kv after,
     searchParams parsed = before ++ kv :: after -> kept kv ->
     (forall later, later ∈ after -> later.1 <> kv.1) ->
     kv ∈ result).
Proof.
  cbn zeta. rewrite filteredParams_fold.
  destruct (copied_sound (searchParams parsed) []) as (H1 & H2 & _ & H4).
  { constructor. } { by intros ? ?%elem_of_nil. }
  split; [done|]. split; [|split; [done|]].
  - intros kv Hin. destruct (H2 kv Hin) as [? [?%elem_of_nil|?]]; done.
  - intros before kv after -> Hk Hlast. rewrite foldl_app. cbn [foldl].
    apply copied_preserved; [|done].
    rewrite copyParam_kept by done. destruct kv as [k v]. apply set_this.
    destruct (copied_sound before []) as (Hnd & _); [constructor| |done].
    by intros ? ?%elem_of_nil.
Qed.

Lemma copied_distinct (params : list (string * string)) :
  forall acc,
    NoDup (acc ++ filter kept params).*1 ->
    foldl copyParam acc params = acc ++ filter kept params.
Proof.
  induction params as [|param params IH]; intros acc Hnd.
  - by rewrite filter_nil, app_nil_r.
  - cbn [foldl]. destruct (decide (kept param)) as [Hk|Hk].
    + rewrite (filter_cons_True kept) in * by done.
      rewrite copyParam_kept by done.
      assert (param.1 ∉ acc.*1) as Hfresh.
      { rewrite fmap_app in Hnd. apply NoDup_app in Hnd as (_ & Hdisj & _).
        intros Hin. apply (Hdisj _ Hin). by left. }
      rewrite set_fresh by done. destruct param as [k v]. cbn [fst snd].
      rewrite IH; rewrite <- app_assoc; done.
    + rewrite (filter_cons_False kept) in * by done.
      rewrite copyParam_tracking by done. by apply IH.
Qed.

(** X8. Without repeated names, filtering is all that happens to the query. *)
Theorem filteredParams_distinct (parsed : URL) :
  NoDup (filter kept (searchParams parsed)).*1 ->
  filteredParams parsed = filter kept (searchParams parsed).
Proof. intros H. rewrite filteredParams_fold. by apply (copied_distinct _ []). Qed.

Lemma filteredParams_distinct_witness :
  filteredParams
    {| protocol := "https:"; hostname := "example.com"; pathname := "/search";
       searchParams := [("q", "test"); ("UTM_Source", "x"); ("page", "2"); ("fbclid", "y")] |} =
  filter kept [("q", "test"); ("UTM_Source", "x"); ("page", "2"); ("fbclid", "y")].
Proof.
  apply (filteredParams_distinct
           {| protocol := "https:"; hostname := "example.com"; pathname := "/search";
              searchParams := [("q", "test"); ("UTM_Source", "x"); ("page", "2");
                               ("fbclid", "y")] |}).
  refine (bool_decide_unpack _ _). vm_compute. exact I.
Defined.

Lemma copied_ignores_tracking (params : list (string * string)) :
  forall acc, foldl copyParam acc params = foldl copyParam acc (filter kept params).
Proof.
  induction params as [|param params IH]; intros acc; [done|].
  cbn [foldl]. destruct (decide (kept param)) as [Hk|Hk].
  - rewrite (filter_cons_True kept) by done. cbn [foldl]. apply IH.
  - rewrite (filter_cons_False kept) by done.
    rewrite copyParam_tracking by done. apply IH.
Qed.

Lemma toLowerCase_app a b :
  Js.toLowerCase (a +:+ b) = Js.toLowerCase a +:+ Js.toLowerCase b.
Proof.
  induction a as [|c a IH]; [done|].
  rewrite str_app_cons. cbn [Js.toLowerCase]. by rewrite IH, str_app_cons.
Qed.

Lemma sliceFrom_app a b : Js.sliceFrom (a +:+ b) (Js.length a) = b.
Proof.
  unfold Js.sliceFrom, Js.clampIndex. pose proof (str_length_nonneg a).
  pose proof (str_length_nonneg b).
  destruct (Z.ltb_spec (Js.length a) 0); [lia|].
  rewrite str_length_app, Z.min_l by lia. unfold Js.length.
  rewrite Nat2Z.id. apply str_drop_app_length.
Qed.

Lemma filter_kept_none (params : list (string * string)) :
  (forall kv, kv ∈ params -> ~ kept kv) -> filter kept params = [].
Proof.
  induction params as [|param params IH]; intros Hall; [done|].
  rewrite filter_cons_False by (apply Hall; by left).
  apply IH. intros kv ?. apply Hall. by right.
Qed.

Section Canonical.
Variable newURL : string -> Try URL.

(** X9. Tracking parameters do not show in the key. *)
Theorem normalizeUrl_ignores_tracking url1 url2 parsed1 parsed2 :
  newURL url1 = Ok parsed1 -> newURL url2 = Ok parsed2 ->
  protocol parsed1 = protocol parsed2 ->
  hostname parsed1 = hostname parsed2 ->
  pathname parsed1 = pathname parsed2 ->
  filter kept (searchParams parsed1) = filter kept (searchParams parsed2) ->
  normalizeUrl newURL url1 = normalizeUrl newURL url2.
Proof.
  intros H1 H2 Hp Hh Hpath Hq.
  rewrite (normalizeUrl_parsed _ _ _ H1), (normalizeUrl_parsed _ _ _ H2).
  unfold normalizedHostname, normalizedPathname. rewrite Hp, Hh, Hpath.
  rewrite !filteredParams_fold.
  rewrite (copied_ignores_tracking (searchParams parsed1)),
          (copied_ignores_tracking (searchParams parsed2)).
  by rewrite Hq.
Qed.

(** X10. A URL whose parameters are all tracking parameters has no query
    left, and no question mark either. *)
Theorem normalizeUrl_without_query url parsed :
  newURL url = Ok parsed ->
  (forall kv, kv ∈ searchParams parsed -> ~ kept kv) ->
  normalizeUrl newURL url =
    protocol parsed +:+ "//" +:+ normalizedHostname parsed +:+
    normalizedPathname parsed.
Proof.
  intros H Hall. rewrite (normalizeUrl_parsed _ _ _ H), filteredParams_fold.
  rewrite copied_ignores_tracking.
  rewrite filter_kept_none by done. cbn. by rewrite str_app_nil_r.
Qed.

(** X11. A leading "www." of the host, in any case, does not show in the key. *)
Theorem normalizeUrl_ignores_www url1 url2 parsed1 parsed2 www :
  newURL url1 = Ok parsed1 -> newURL url2 = Ok parsed2 ->
  protocol parsed1 = protocol parsed2 ->
  pathname parsed1 = pathname parsed2 ->
  searchParams parsed1 = searchParams parsed2 ->
  Js.toLowerCase www = "www." ->
  hostname parsed2 = www +:+ hostname parsed1 ->
  Js.startsWith (Js.toLowerCase (hostname parsed1)) "www." = false ->
  normalizeUrl newURL url1 = normalizeUrl newURL url2.
Proof.
  intros H1 H2 Hp Hpath Hq Hwww Hh Hplain.
  rewrite (normalizeUrl_parsed _ _ _ H1), (normalizeUrl_parsed _ _ _ H2).
  unfold normalizedPathname, filteredParams. rewrite Hp, Hpath, Hq.
  f_equal. f_equal. f_equal.
  unfold normalizedHostname. rewrite Hh, toLowerCase_app, Hwww, Hplain.
  rewrite startsWith_app.
  change 4 with (Js.length "www."). by rewrite sliceFrom_app.
Qed.

End Canonical.

Lemma normalizeUrl_ignores_www_witness :
  normalizeUrl exampleURL "https://a.com/x" =
  normalizeUrl exampleURL "https://www.a.com/x".
Proof.
  apply (normalizeUrl_ignores_www exampleURL "https://a.com/x" "https://www.a.com/x"
           {| protocol := "https:"; hostname := "a.com"; pathname := "/x";
              searchParams := [] |}
           {| protocol := "https:"; hostname := "www.a.com"; pathname := "/x";
              searchParams := [] |} "www."); reflexivity.
Defined.

Lemma normalizeUrl_without_query_witness :
  let newURL (url : string) :=
    Ok {| protocol := "https:"; hostname := "example.com"; pathname := "/page";
          searchParams := [("utm_source", "google"); ("FBCLID", "abc")] |} in
  normalizeUrl newURL "https://example.com/page?utm_source=google&FBCLID=abc" =
    "https:" +:+ "//" +:+ "example.com" +:+ "/page".
Proof.
  intros newURL.
  apply (normalizeUrl_without_query newURL
           "https://example.com/page?utm_source=google&FBCLID=abc"
           {| protocol := "https:"; hostname := "example.com"; pathname := "/page";
              searchParams := [("utm_source", "google"); ("FBCLID", "abc")] |});
    [reflexivity|].
  intros kv Hin.
  apply elem_of_cons in Hin as [->|Hin]; [by vm_compute|].
  apply elem_of_cons in Hin as [->|Hin]; [by vm_compute|].
  by apply elem_of_nil in Hin.
Defined.

Lemma normalizeUrl_ignores_tracking_witness :
  let newURL (url : string) :=
    Ok {| protocol := "https:"; hostname := "example.com"; pathname := "/p";
          searchParams :=
            if String.eqb url "https://example.com/p?id=1" then [("id", "1")]
            else [("utm_source", "x"); ("id", "1"); ("gclid", "z")] |} in
  normalizeUrl newURL "https://example.com/p?id=1" =
  normalizeUrl newURL "https://example.com/p?utm_source=x&id=1&gclid=z".
Proof.
  intros newURL.
  apply (normalizeUrl_ignores_tracking newURL
           "https://example.com/p?id=1"
           "https://example.com/p?utm_source=x&id=1&gclid=z"
           {| protocol := "https:"; hostname := "example.com"; pathname := "/p";
              searchParams := [("id", "1")] |}
           {| protocol := "https:"; hostname := "example.com"; pathname := "/p";
              searchParams := [("utm_source", "x"); ("id", "1"); ("gclid", "z")] |});
    reflexivity.
Defined.

Lemma repeatChar_snoc c n :
  Js.repeatChar c (S n) = Js.repeatChar c n +:+ String c EmptyString.
Proof. induction n as [|n IH]; [done|]. cbn [Js.repeatChar] in *. by rewrite IH at 1. Qed.

Lemma stripTrailing_snoc c s :
  Js.stripTrailing c (s +:+ String c EmptyString) = Js.stripTrailing c s.
Proof.
  induction s as [|a s IH].
  - rewrite str_app_nil_l. cbn [Js.stripTrailing]. by rewrite Ascii.eqb_refl.
  - rewrite str_app_cons. cbn [Js.stripTrailing]. by rewrite IH.
Qed.

Lemma stripTrailing_repeat c s n :
  Js.stripTrailing c (s +:+ Js.repeatChar c n) = Js.stripTrailing c s.
Proof.
  induction n as [|n IH]; [by rewrite str_app_nil_r|].
  by rewrite repeatChar_snoc, <- str_app_assoc, stripTrailing_snoc.
Qed.

Lemma stripTrailing_unchanged c s :
  (forall before, s <> before +:+ String c EmptyString) -> Js.stripTrailing c s = s.
Proof.
  intros Hend. destruct (stripTrailing_spec c s) as ([|n] & E & _).
  - by rewrite str_app_nil_r in E.
  - rewrite repeatChar_snoc, <- str_app_assoc in E. by apply Hend in E.
Qed.

(** X12. Trailing slashes of the path do not show in the key. *)
Theorem normalizeUrl_ignores_trailing_slashes (newURL : string -> Try URL)
    url1 url2 parsed1 parsed2 n :
  newURL url1 = Ok parsed1 -> newURL url2 = Ok parsed2 ->
  protocol parsed1 = protocol parsed2 ->
  hostname parsed1 = hostname parsed2 ->
  searchParams parsed1 = searchParams parsed2 ->
  pathname parsed1 <> EmptyString ->
  (forall before, pathname parsed1 <> before +:+ "/") ->
  pathname parsed2 = pathname parsed1 +:+ Js.repeatChar "/" n ->
  normalizeUrl newURL url1 = normalizeUrl newURL url2.
Proof.
  intros H1 H2 Hp Hh Hq Hne Hend Hpath.
  rewrite (normalizeUrl_parsed _ _ _ H1), (normalizeUrl_parsed _ _ _ H2).
  unfold normalizedHostname, filteredParams. rewrite Hp, Hh, Hq.
  f_equal. f_equal. f_equal. f_equal.
  unfold normalizedPathname. rewrite Hpath.
  assert (Js.endsWith (pathname parsed1) "/" = false) as Hplain.
  { destruct (Js.endsWith _ _) eqn:E; [|done].
    apply endsWith_spec in E as [before E]. by apply Hend in E. }
  rewrite Hplain, andb_false_r. destruct n as [|n].
  { cbn [Js.repeatChar]. by rewrite str_app_nil_r, Hplain, andb_false_r. }
  assert (Js.endsWith (pathname parsed1 +:+ Js.repeatChar "/" (S n)) "/" = true) as ->.
  { apply endsWith_spec. exists (pathname parsed1 +:+ Js.repeatChar "/" n).
    by rewrite repeatChar_snoc, str_app_assoc. }
  assert (String.eqb (pathname parsed1 +:+ Js.repeatChar "/" (S n)) "/" = false) as ->.
  { apply String.eqb_neq. intros E.
    destruct (pathname parsed1) as [|a [|b r]]; [done| |].
    - rewrite str_app_cons, str_app_nil_l in E. cbn [Js.repeatChar] in E. done.
    - rewrite !str_app_cons in E. done. }
  cbn [negb andb]. rewrite stripTrailing_repeat. symmetry.
  by apply stripTrailing_unchanged.
Qed.

Lemma normalizeUrl_ignores_trailing_slashes_witness :
  let newURL (url : string) :=
    Ok {| protocol := "https:"; hostname := "example.com";
          pathname := if String.eqb url "https://example.com/page" then "/page"
                      else "/page//";
          searchParams := [] |} in
  normalizeUrl newURL "https://example.com/page" =
  normalizeUrl newURL "https://example.com/page//".
Proof.
  intros newURL.
  apply (normalizeUrl_ignores_trailing_slashes newURL
           "https://example.com/page" "https://example.com/page//"
           {| protocol := "https:"; hostname := "example.com"; pathname := "/page";
              searchParams := [] |}
           {| protocol := "https:"; hostname := "example.com"; pathname := "/page//";
              searchParams := [] |} 2); try reflexivity; try discriminate.
  intros before E. cbn [pathname] in E.
  assert (Js.endsWith "/page" "/" = true) as H; [|discriminate H].
  apply endsWith_spec. by exists before.
Defined.

Section DeduplicateMore.
Variable newURL : string -> Try URL.
Local Abbreviation key := (normalizeUrl newURL).

Lemma deduplicateLoop_distinct (urls : list string) :
  forall (seen : gset string) (unique : list string),
    (forall k, k ∈ seen <-> k ∈ key <$> unique) ->
    NoDup (key <$> (unique ++ urls)) ->
    deduplicateLoop newURL seen unique urls = unique ++ urls.
Proof.
  induction urls as [|url urls IH]; intros seen unique Hseen Hnd.
  - by rewrite app_nil_r.
  - cbn [deduplicateLoop]. rewrite bool_decide_eq_false_2.
    + rewrite IH; rewrite <- ?app_assoc; [done| |done].
      intros k. rewrite fmap_app, elem_of_union, elem_of_singleton, elem_of_app.
      cbn. rewrite list_elem_of_singleton, Hseen. tauto.
    + rewrite Hseen. rewrite fmap_app in Hnd.
      apply NoDup_app in Hnd as (_ & Hdisj & _). intros Hin.
      apply (Hdisj _ Hin). cbn. by left.
Qed.

(** X13. URLs with pairwise distinct keys all survive, in their order. *)
Theorem deduplicateUrls_distinct (urls : list string) :
  NoDup (key <$> urls) -> deduplicateUrls newURL urls = urls.
Proof.
  intros Hnd. unfold deduplicateUrls. rewrite deduplicateLoop_distinct; [done| |done].
  intros k. cbn. split; [set_solver|by intros ?%elem_of_nil].
Qed.

(** X14. Deduplicating twice is deduplicating once. *)
Theorem deduplicateUrls_idempotent (urls : list string) :
  deduplicateUrls newURL (deduplicateUrls newURL urls) = deduplicateUrls newURL urls.
Proof.
  apply deduplicateUrls_distinct.
  by destruct (deduplicateUrls_spec newURL urls) as (_ & ? & _).
Qed.

Lemma deduplicateLoop_app (earlier later : list string) :
  forall (seen : gset string) (unique : list string),
    (forall k, k ∈ seen <-> k ∈ key <$> unique) ->
    NoDup (key <$> unique) ->
    exists seen',
      deduplicateLoop newURL seen unique (earlier ++ later) =
        deduplicateLoop newURL seen'
          (deduplicateLoop newURL seen unique earlier) later /\
      (forall k, k ∈ seen' <-> k ∈ key <$> deduplicateLoop newURL seen unique earlier) /\
      NoDup (key <$> deduplicateLoop newURL seen unique earlier).
Proof.
  induction earlier as [|url earlier IH]; intros seen unique Hseen Hnd.
  - by exists seen.
  - cbn [app deduplicateLoop]. case_bool_decide as Hin; [by apply IH|].
    apply IH.
    + intros k. rewrite fmap_app, elem_of_union, elem_of_singleton, elem_of_app.
      cbn. rewrite list_elem_of_singleton, Hseen. tauto.
    + rewrite fmap_app. apply NoDup_app. split; [done|]. split.
      * intros k Hk ->%list_elem_of_singleton. by apply Hin, Hseen.
      * apply NoDup_singleton.
Qed.

(** X15. What is kept of a list does not depend on what follows it. *)
Theorem deduplicateUrls_app (earlier later : list string) :
  exists more,
    deduplicateUrls newURL (earlier ++ later) =
      deduplicateUrls newURL earlier ++ more /\
    sublist more later.
Proof.
  unfold deduplicateUrls.
  destruct (deduplicateLoop_app earlier later ∅ []) as (seen' & -> & Hseen & Hnd).
  { intros k. cbn. split; [set_solver|by intros ?%elem_of_nil]. }
  { constructor. }
  destruct (deduplicateLoop_spec newURL later seen' _ Hseen Hnd)
    as (added & -> & Hsub & _).
  by exists added.
Qed.

End DeduplicateMore.

Lemma deduplicateUrls_distinct_witness :
  deduplicateUrls exampleURL ["https://a.com/x"; "https://b.com/x"; "not-a-url"] =
    ["https://a.com/x"; "https://b.com/x"; "not-a-url"].
Proof.
  apply (deduplicateUrls_distinct exampleURL
           ["https://a.com/x"; "https://b.com/x"; "not-a-url"]).
  refine (bool_decide_unpack _ _). vm_compute. exact I.
Defined.

(** ** Further properties of fetch.ts *)

Section FetchMore.
Context `{host : Dom}.

Lemma present_app_nonempty (a b : string) :
  a <> EmptyString -> present (Some (a +:+ b)) = true.
Proof.
  intros Ha. apply present_nonempty. eexists. split; [done|].
  destruct a; [done|]. by rewrite str_app_cons.
Qed.

(** X16. A page is fetched or it fails, never both; and a response with an
    error status, a response that is not HTML and a timeout always fail
    with a message. *)
Theorem fetchSinglePage_outcome (url : string) (timeout maxChars : Z)
    (outcome : Settled Fetch.Response) :
  let result := Fetch.fetchSinglePage url timeout maxChars outcome in
  ((exists message, Fetch.error result = Some message) /\
   Fetch.content result = None /\ Fetch.title result = None \/
   Fetch.error result = None /\ exists text, Fetch.content result = Some text) /\
  (forall response, outcome = Fulfilled response -> Fetch.ok response = false ->
     Fetch.error result = Some ("HTTP " +:+ Js.numberToString (Fetch.status response)) /\
     failed result) /\
  (forall response, outcome = Fulfilled response -> Fetch.ok response = true ->
     Js.includes (orEmpty (Fetch.contentType response)) "text/html" = false ->
     Js.includes (orEmpty (Fetch.contentType response)) "application/xhtml" = false ->
     failed result) /\
  (forall message, outcome = Rejected (ErrorObject "AbortError" message) ->
     failed result).
Proof.
  cbn zeta. split; [|split; [|split]].
  - unfold Fetch.fetchSinglePage, Fetch.onThrown, Fetch.failure.
    destruct outcome as [response|reason].
    + destruct (negb (Fetch.ok response)); [left; by eauto|].
      destruct (_ && _); [left; by eauto|].
      destruct (Fetch.text response) as [html|reason]; [right; by eauto|].
      destruct reason as [name message|rendering]; [|left; by eauto].
      destruct (String.eqb name "AbortError"); left; by eauto.
    + destruct reason as [name message|rendering]; [|left; by eauto].
      destruct (String.eqb name "AbortError"); left; by eauto.
  - intros response -> Hok. unfold Fetch.fetchSinglePage. rewrite Hok. cbn [negb].
    split; [done|]. unfold failed, Fetch.failure. cbn [Fetch.error].
    by apply present_app_nonempty.
  - intros response -> Hok Hhtml Hxhtml. unfold Fetch.fetchSinglePage.
    rewrite Hok, Hhtml, Hxhtml. cbn [negb andb].
    unfold failed, Fetch.failure. cbn [Fetch.error]. by apply present_app_nonempty.
  - intros message ->. unfold Fetch.fetchSinglePage, Fetch.onThrown.
    replace (String.eqb "AbortError" "AbortError") with true by done.
    unfold failed, Fetch.failure. cbn [Fetch.error]. by apply present_app_nonempty.
Qed.

End FetchMore.

(** What one page contributes to the three maps. *)
Lemma organize_lookup (entries : list (string * Fetch.PageResult)) :
  forall contents titles errors,
    NoDup entries.*1 ->
    let '(contents', titles', errors') :=
      foldl Fetch.organize (contents, titles, errors) entries in
    (forall url, url ∉ entries.*1 ->
       contents' !! url = contents !! url /\ titles' !! url = titles !! url /\
       errors' !! url = errors !! url) /\
    (forall url result, (url, result) ∈ entries -> url <> "__proto__" ->
       if present (Fetch.error result) then
         errors' !! url = Fetch.error result /\
         contents' !! url = contents !! url /\ titles' !! url = titles !! url
       else
         errors' !! url = errors !! url /\
         contents' !! url =
           (if present (Fetch.content result) then Fetch.content result
            else contents !! url) /\
         titles' !! url =
           (if present (Fetch.title result) then Fetch.title result
            else titles !! url)).
Proof.
  induction entries as [|[url0 result0] entries IH]; intros contents titles errors Hnd.
  - cbn. split; [done|]. by intros ? ? ?%elem_of_nil ?.
  - cbn [fmap list_fmap fst] in Hnd. apply NoDup_cons in Hnd as [Hfresh Hnd].
    cbn [foldl]. set (acc := Fetch.organize _ _).
    destruct acc as [[contents1 titles1] errors1] eqn:Eacc.
    specialize (IH contents1 titles1 errors1 Hnd).
    destruct (foldl Fetch.organize _ entries) as [[contents' titles'] errors'].
    destruct IH as [Hout Hin].
    assert (forall o : option string, present o = true -> Some (orEmpty o) = o) as Hsome.
    { intros [t|]; [done|discriminate]. }
    assert (forall url, url <> url0 ->
              contents1 !! url = contents !! url /\ titles1 !! url = titles !! url /\
              errors1 !! url = errors !! url) as Hother.
    { intros url Hne. unfold acc, Fetch.organize in Eacc.
      destruct (present (Fetch.error result0)); injection Eacc as <- <- <-.
      - by rewrite assign_lookup_other.
      - split; [|split; [|done]].
        + destruct (present (Fetch.content result0)); [by rewrite assign_lookup_other|done].
        + destruct (present (Fetch.title result0)); [by rewrite assign_lookup_other|done]. }
    split.
    + intros url [Hne Hnot]%not_elem_of_cons.
      destruct (Hout url Hnot) as (-> & -> & ->). by apply Hother.
    + intros url result [[= -> ->]|Hmem]%elem_of_cons Hproto.
      * destruct (Hout url0 Hfresh) as (-> & -> & ->).
        unfold acc, Fetch.organize in Eacc.
        destruct (present (Fetch.error result0)) eqn:Ee; injection Eacc as <- <- <-.
        -- by rewrite assign_other, lookup_insert_eq, Hsome.
        -- split; [done|]. split.
           ++ destruct (present (Fetch.content result0)) eqn:Ec; [|done].
              by rewrite assign_other, lookup_insert_eq, Hsome.
           ++ destruct (present (Fetch.title result0)) eqn:Et; [|done].
              by rewrite assign_other, lookup_insert_eq, Hsome.
      * assert (url <> url0) as Hne.
        { intros ->. apply Hfresh, list_elem_of_fmap. by exists (url0, result). }
        destruct (Hother url Hne) as (E1 & E2 & E3).
        specialize (Hin url result Hmem Hproto). rewrite E1, E2, E3 in Hin. exact Hin.
Qed.

(** Nothing is ever recorded under "__proto__". *)
Lemma organize_proto (entries : list (string * Fetch.PageResult)) :
  forall contents titles errors,
    let '(contents', titles', errors') :=
      foldl Fetch.organize (contents, titles, errors) entries in
    contents' !! "__proto__" = contents !! "__proto__" /\
    titles' !! "__proto__" = titles !! "__proto__" /\
    errors' !! "__proto__" = errors !! "__proto__".
Proof.
  induction entries as [|[url result] entries IH]; intros contents titles errors.
  - done.
  - cbn [foldl]. set (acc := Fetch.organize _ _).
    destruct acc as [[contents1 titles1] errors1] eqn:Eacc.
    specialize (IH contents1 titles1 errors1).
    destruct (foldl Fetch.organize _ entries) as [[contents' titles'] errors'].
    destruct IH as (-> & -> & ->).
    unfold acc, Fetch.organize in Eacc.
    destruct (present (Fetch.error result)); injection Eacc as <- <- <-.
    + by rewrite assign_lookup_proto.
    + split; [|split; [|done]].
      * destruct (present (Fetch.content result)); [by rewrite assign_lookup_proto|done].
      * destruct (present (Fetch.title result)); [by rewrite assign_lookup_proto|done].
Qed.

Section FetchPagesMore.
Context `{host : Dom}.

(** X17. What the maps of fetchPages hold for each of pairwise distinct URLs:
    for a URL other than "__proto__", the error of its page if there is
    one, and else its text and its title where they are not empty; and
    nothing under "__proto__", whatever the URLs are. *)
Theorem fetchPages_lookup (urls : list string) (maxChars timeout : Z)
    (network : nat -> string -> Settled Fetch.Response) :
  let result := Fetch.fetchPages urls maxChars timeout network in
  (forall (i : nat) (url : string),
     NoDup urls -> urls !! i = Some url -> url <> "__proto__" ->
     let page := Fetch.fetchSinglePage url timeout maxChars (network i url) in
     if present (Fetch.error page) then
       Fetch.errors result !! url = Fetch.error page /\
       Fetch.contents result !! url = None /\ Fetch.titles result !! url = None
     else
       Fetch.errors result !! url = None /\
       Fetch.contents result !! url =
         (if present (Fetch.content page) then Fetch.content page else None) /\
       Fetch.titles result !! url =
         (if present (Fetch.title page) then Fetch.title page else None)) /\
  Fetch.errors result !! "__proto__" = None /\
  Fetch.contents result !! "__proto__" = None /\
  Fetch.titles result !! "__proto__" = None.
Proof.
  cbn zeta. split.
  - intros i url Hnd Hi Hproto. unfold Fetch.fetchPages.
    case_bool_decide as Hempty; [by subst urls|].
    set (results := imap _ urls).
    pose proof (organize_lookup (zip urls results) ∅ ∅ ∅) as H.
    unfold results in H at 1. rewrite zip_imap_fst in H. specialize (H Hnd).
    destruct (foldl Fetch.organize _ _) as [[contents titles] errors].
    cbn [Fetch.contents Fetch.titles Fetch.errors].
    destruct H as [_ H].
    specialize (H url (Fetch.fetchSinglePage url timeout maxChars (network i url))).
    rewrite !lookup_empty in H. apply H; [|done].
    apply list_elem_of_lookup. exists i.
    apply lookup_zip_with_Some.
    exists url, (Fetch.fetchSinglePage url timeout maxChars (network i url)).
    split; [done|]. split; [done|].
    unfold results. by rewrite list_lookup_imap, Hi.
  - unfold Fetch.fetchPages. case_bool_decide as Hempty; [done|].
    match goal with
    | |- context [foldl Fetch.organize ?acc ?entries] =>
        pose proof (organize_proto entries ∅ ∅ ∅) as H;
        destruct (foldl Fetch.organize acc entries) as [[contents titles] errors]
    end.
    cbn [Fetch.contents Fetch.titles Fetch.errors].
    rewrite !lookup_empty in H. by destruct H as (-> & -> & ->).
Qed.

End FetchPagesMore.

Lemma fetchPages_lookup_witness :
  let urls := ["https://good.example.com"; "https://bad.example.com"] in
  let network (i : nat) (url : string) :=
    if bool_decide (i = 0%nat)
    then htmlResponse 200
           "<html><head><title>Good</title></head><body><p>Content</p></body></html>"
    else htmlResponse 500 "" in
  let result := Fetch.fetchPages urls 15000 30 network in
  Fetch.errors result !! "https://bad.example.com" = Some "HTTP 500" /\
  Fetch.contents result !! "https://bad.example.com" = None /\
  Fetch.titles result !! "https://bad.example.com" = None.
Proof.
  intros urls network.
  refine (proj1 (fetchPages_lookup urls 15000 30 network)
            1%nat "https://bad.example.com" _ _ _).
  - refine (bool_decide_unpack _ _). vm_compute. exact I.
  - reflexivity.
  - discriminate.
Defined.

Lemma size_insert_le (m : gmap string string) (k v : string) :
  (size (<[k := v]> m) <= S (size m))%nat.
Proof. rewrite map_size_insert. destruct (m !! k); unfold id; lia. Qed.

Lemma assign_bound (m : gmap string string) (k v : string) :
  (size (Obj.assign k v m) <= S (size m))%nat /\
  dom (Obj.assign k v m) ⊆ dom m ∪ {[k]}.
Proof.
  unfold Obj.assign. destruct (String.eqb k "__proto__").
  - split; [lia|set_solver].
  - split; [apply size_insert_le|]. rewrite dom_insert_L. set_solver.
Qed.

Lemma organize_bound (entries : list (string * Fetch.PageResult)) :
  forall contents titles errors,
    let '(contents', titles', errors') :=
      foldl Fetch.organize (contents, titles, errors) entries in
    (size contents' + size errors' <= size contents + size errors + length entries)%nat /\
    dom contents' ⊆ dom contents ∪ list_to_set entries.*1 /\
    dom titles' ⊆ dom titles ∪ list_to_set entries.*1 /\
    dom errors' ⊆ dom errors ∪ list_to_set entries.*1.
Proof.
  induction entries as [|[url result] entries IH]; intros contents titles errors.
  - cbn. split; [lia|]. set_solver.
  - cbn [foldl Fetch.organize]. cbn [length fmap list_fmap fst list_to_set].
    destruct (present (Fetch.error result)).
    + specialize (IH contents titles (Obj.assign url (orEmpty (Fetch.error result)) errors)).
      destruct (foldl Fetch.organize _ entries) as [[contents' titles'] errors'].
      destruct IH as (Hsize & Hc & Ht & He).
      destruct (assign_bound errors url (orEmpty (Fetch.error result))).
      split; [lia|]. set_solver.
    + set (contents1 := if present (Fetch.content result) then _ else contents).
      set (titles1 := if present (Fetch.title result) then _ else titles).
      specialize (IH contents1 titles1 errors).
      destruct (foldl Fetch.organize _ entries) as [[contents' titles'] errors'].
      destruct IH as (Hsize & Hc & Ht & He).
      assert ((size contents1 <= S (size contents))%nat /\
              dom contents1 ⊆ dom contents ∪ {[url]}) as [? ?].
      { unfold contents1. destruct (present (Fetch.content result)).
        - apply assign_bound.
        - split; [lia|set_solver]. }
      assert (dom titles1 ⊆ dom titles ∪ {[url]}).
      { unfold titles1. destruct (present (Fetch.title result)); [|set_solver].
        apply assign_bound. }
      split; [lia|]. set_solver.
Qed.

(** X18. No page is counted twice, and no map has a key that is not one of
    the URLs. *)
Theorem fetchPages_bound `{host : Dom} (urls : list string) (maxChars timeout : Z)
    (network : nat -> string -> Settled Fetch.Response) :
  let result := Fetch.fetchPages urls maxChars timeout network in
  0 <= Fetch.successCount result /\ 0 <= Fetch.errorCount result /\
  Fetch.successCount result + Fetch.errorCount result <= Z.of_nat (length urls) /\
  dom (Fetch.contents result) ∪ dom (Fetch.titles result) ∪ dom (Fetch.errors result)
    ⊆ list_to_set urls.
Proof.
  cbn zeta. unfold Fetch.fetchPages. case_bool_decide as Hempty.
  { subst urls. cbn. split; [done|]. split; [done|]. split; [done|]. set_solver. }
  match goal with
  | |- context [foldl Fetch.organize ?acc ?entries] =>
      pose proof (organize_bound entries ∅ ∅ ∅) as H;
      destruct (foldl Fetch.organize acc entries) as [[contents titles] errors]
  end.
  rewrite !zip_imap_fst, length_zip_with, length_imap, Nat.min_id in H.
  cbn [Fetch.contents Fetch.titles Fetch.errors Fetch.successCount Fetch.errorCount].
  destruct H as (Hsize & Hc & Ht & He).
  rewrite !dom_empty_L in *. rewrite map_size_empty in Hsize.
  split; [lia|]. split; [lia|]. split; [lia|]. set_solver.
Qed.

(** ** Further properties of search.ts *)

Section SearchPageMore.
Context `{host : ResultDom}.

Lemma scanResults_take (document : @Document resultDom) maxResults
    (divs : list (@Element resultDom)) :
  forall results,
    SearchPage.scanResults document maxResults results divs =
      results ++ take (Z.to_nat (maxResults - Z.of_nat (length results)))
                      (omap (SearchPage.hitOf document) divs).
Proof.
  induction divs as [|div divs IH]; intros results; cbn [SearchPage.scanResults].
  - change (omap (SearchPage.hitOf document) []) with (@nil Search.Hit).
    by rewrite take_nil, app_nil_r.
  - change (omap (SearchPage.hitOf document) (div :: divs))
      with (match SearchPage.hitOf document div with
            | Some hit => hit :: omap (SearchPage.hitOf document) divs
            | None => omap (SearchPage.hitOf document) divs
            end).
    destruct (Z.geb_spec (Z.of_nat (length results)) maxResults) as [Hfull|Hroom].
    + replace (Z.to_nat _) with 0%nat by lia. by rewrite take_0, app_nil_r.
    + destruct (SearchPage.hitOf document div) as [hit|].
      * rewrite IH, length_app. cbn [length]. rewrite <- app_assoc. cbn [app].
        replace (Z.to_nat (maxResults - Z.of_nat (length results)))
          with (S (Z.to_nat (maxResults - Z.of_nat (length results + 1)))) by lia.
        done.
      * apply IH.
Qed.

Lemma parseDdgHtmlResults_take (html : string) (maxResults : Z) :
  SearchPage.parseDdgHtmlResults html maxResults =
    (document ← @parseHTML resultDom html;
     mret (take (Z.to_nat maxResults)
                (omap (SearchPage.hitOf document) (querySelectorAll document ".result")))).
Proof.
  unfold SearchPage.parseDdgHtmlResults.
  destruct (@parseHTML resultDom html) as [document|]; [|done].
  cbn [mbind try_bind mret try_ret]. rewrite scanResults_take. cbn [length app].
  by rewrite Z.sub_0_r.
Qed.

Lemma truthy_nonempty s : Js.truthy s = true <-> s <> EmptyString.
Proof.
  unfold Js.truthy. rewrite negb_true_iff. split.
  - intros H ->. by rewrite String.eqb_refl in H.
  - by intros ?%String.eqb_neq.
Qed.

Lemma hitOf_wellFormed (document : @Document resultDom) div hit :
  SearchPage.hitOf document div = Some hit -> wellFormedHit hit.
Proof.
  unfold SearchPage.hitOf.
  destruct (querySelectorWithin document div "a.result__a") as [linkEl|]; [|done].
  destruct (negb _ || Js.startsWith _ _) eqn:Eskip; [done|].
  apply orb_false_elim in Eskip as [_ Had].
  destruct (Js.truthy _ && Js.truthy _) eqn:Epush; [|done].
  apply andb_prop in Epush as [Hhref Htitle].
  intros [= <-]. unfold wellFormedHit. cbn [Search.url Search.title Search.snippet].
  split; [by apply truthy_nonempty|]. split; [done|].
  split; [by apply truthy_nonempty|]. split; [apply trim_idempotent|].
  destruct (querySelectorWithin document div ".result__snippet");
    [apply trim_idempotent|done].
Qed.

(** The body of the loop pushes a hit exactly where the result element is
    as [givesHit] says. *)
Lemma hitOf_gives (document : @Document resultDom) div hit :
  SearchPage.hitOf document div = Some hit <-> givesHit document div hit.
Proof.
  unfold SearchPage.hitOf, givesHit, SearchPage.AD_REDIRECT. split.
  - destruct (querySelectorWithin document div "a.result__a") as [linkEl|]; [|done].
    destruct (negb _ || Js.startsWith _ _) eqn:Eskip; [done|].
    apply orb_false_elim in Eskip as [_ Had].
    destruct (Js.truthy _ && Js.truthy _) eqn:Epush; [|done].
    apply andb_prop in Epush as [Hhref Htitle].
    intros [= <-]. exists linkEl. cbn [Search.url Search.title Search.snippet].
    split; [done|]. split; [done|]. split; [by apply truthy_nonempty|].
    split; [done|]. split; [done|]. split; [by apply truthy_nonempty|]. done.
  - intros (linkEl & -> & Hurl & Hne & Had & Htitle & Htne & Hsnippet).
    rewrite <- Hurl, <- Htitle, <- Hsnippet, Had.
    apply truthy_nonempty in Hne, Htne. rewrite Hne, Htne. cbn [negb orb andb].
    by destruct hit.
Qed.

Lemma omap_id_fmap {A B} (f : A -> option B) (l : list A) :
  omap id (f <$> l) = omap f l.
Proof.
  induction l as [|x l IH]; [done|].
  change (omap id (f <$> x :: l))
    with (match f x with Some y => y :: omap id (f <$> l) | None => omap id (f <$> l) end).
  change (omap f (x :: l))
    with (match f x with Some y => y :: omap f l | None => omap f l end).
  by rewrite IH.
Qed.

(** X19. [parseDdgHtmlResults] throws where the parser throws.  Otherwise
    every result element gives one hit or none: it gives a hit when its
    link [a.result__a] has an href that is not empty and is not an ad
    redirect, and a text that is not empty when trimmed; the hit has that
    href, that trimmed text as its title, and the trimmed text of
    [.result__snippet] as its snippet, or the empty one.  The result is the
    first [maxResults] of these hits, in document order; elements that
    give no hit do not count. *)
Theorem parseDdgHtmlResults_first_hits (html : string) (maxResults : Z) :
  match @parseHTML resultDom html with
  | Throw => SearchPage.parseDdgHtmlResults html maxResults = Throw
  | Ok document =>
      exists found : list (option Search.Hit),
        Forall2 (fun div gives =>
                   match gives with
                   | Some hit => givesHit document div hit
                   | None => forall hit, ~ givesHit document div hit
                   end)
                (querySelectorAll document ".result") found /\
        SearchPage.parseDdgHtmlResults html maxResults =
          Ok (take (Z.to_nat maxResults) (omap id found))
  end.
Proof.
  rewrite parseDdgHtmlResults_take.
  destruct (@parseHTML resultDom html) as [document|]; [|done].
  exists (SearchPage.hitOf document <$> querySelectorAll document ".result").
  split; [|by rewrite omap_id_fmap].
  apply Forall2_fmap_r, Forall_Forall2_diag, Forall_forall. intros div _.
  unfold compose. destruct (SearchPage.hitOf document div) as [hit|] eqn:E.
  - by apply hitOf_gives.
  - intros hit Hgives. apply hitOf_gives in Hgives. congruence.
Qed.

(** X20. Whatever happens to the request, searchSingleQuery returns at most
    [maxResults] hits, each with a URL that is not empty and not an ad
    redirect, a title that is not empty, and title and snippet trimmed. *)
Theorem searchSingleQuery_hits (query : string) (maxResults : Z)
    (outcome : Settled Fetch.Response) :
  let hits := SearchPage.searchSingleQuery query maxResults outcome in
  Z.of_nat (length hits) <= Z.max 0 maxResults /\
  Forall wellFormedHit hits /\
  (forall response, outcome = Fulfilled response -> Fetch.ok response = false ->
     hits = []).
Proof.
  cbn zeta. unfold SearchPage.searchSingleQuery.
  assert (Z.of_nat (@length Search.Hit []) <= Z.max 0 maxResults) as Hnil by (cbn; lia).
  destruct outcome as [response|reason]; [|by split].
  destruct (negb (Fetch.ok response)) eqn:Eok; [by split|].
  split; [|split].
  - destruct (Fetch.text response) as [html|]; [|done].
    rewrite parseDdgHtmlResults_take.
    destruct (@parseHTML resultDom html) as [document|]; [|done].
    cbn [mbind try_bind mret try_ret try_catch]. rewrite length_take. lia.
  - destruct (Fetch.text response) as [html|]; [|done].
    rewrite parseDdgHtmlResults_take.
    destruct (@parseHTML resultDom html) as [document|]; [|done].
    cbn [mbind try_bind mret try_ret try_catch].
    apply Forall_take, Forall_forall. intros hit Hin.
    apply list_elem_of_omap in Hin as (div & _ & Hhit).
    by eapply hitOf_wellFormed.
  - intros ? [= <-] Hok. rewrite Hok in Eok. done.
Qed.

End SearchPageMore.

(** ** multiSearch: URLs and per-query results *)

Lemma hitUrls_app a b : hitUrls (a ++ b) = hitUrls a ++ hitUrls b.
Proof. unfold hitUrls. by rewrite fmap_app, filter_app. Qed.

Lemma hitUrls_concat (results : list (list Search.Hit)) :
  hitUrls (concat results) = concat (hitUrls <$> results).
Proof.
  induction results as [|hits results IH]; [done|].
  cbn [concat fmap list_fmap]. by rewrite hitUrls_app, IH.
Qed.

Lemma collectHit_urls (hits : list Search.Hit) :
  forall c queryUrls,
    let '(c', queryUrls') := foldl Search.collectHit (c, queryUrls) hits in
    Search.allUrls c' = Search.allUrls c ++ hitUrls hits /\
    queryUrls' = queryUrls ++ hitUrls hits /\
    Search.queryToUrls c' = Search.queryToUrls c.
Proof.
  induction hits as [|hit hits IH]; intros c queryUrls.
  - cbn. by rewrite !app_nil_r.
  - cbn [foldl]. unfold Search.collectHit at 2. unfold Js.truthy, hitUrls.
    rewrite negb_involutive. cbn [fmap list_fmap].
    destruct (String.eqb_spec (Search.url hit) EmptyString) as [Hempty|Hurl].
    + rewrite filter_cons_False by (by intros ?). apply IH.
    + rewrite filter_cons_True by done.
      match goal with
      | |- context [foldl Search.collectHit (?c1, ?q1) hits] =>
          specialize (IH c1 q1); destruct (foldl Search.collectHit (c1, q1) hits)
      end.
      cbn [Search.allUrls Search.queryToUrls] in IH.
      destruct IH as (-> & -> & ->). rewrite <- !app_assoc. done.
Qed.

Lemma collectQuery_urls (entries : list (string * list Search.Hit)) :
  forall c,
    let c' := foldl Search.collectQuery c entries in
    Search.allUrls c' = Search.allUrls c ++ concat (hitUrls <$> entries.*2) /\
    Search.queryToUrls c' =
      foldl (fun m entry => Obj.assignObject entry.1 (hitUrls entry.2) m)
            (Search.queryToUrls c) entries.
Proof.
  induction entries as [|[query hits] entries IH]; intros c; cbn zeta.
  - cbn. by rewrite app_nil_r.
  - cbn [foldl fmap list_fmap concat snd fst].
    unfold Search.collectQuery at 2 4.
    pose proof (collectHit_urls hits c []) as H.
    destruct (foldl Search.collectHit (c, []) hits) as [c1 queryUrls].
    destruct H as (Hall & Hq & Hmap). cbn [app] in Hq. subst queryUrls.
    match goal with
    | |- context [foldl Search.collectQuery ?c2 entries] =>
        destruct (IH c2) as [-> ->]
    end.
    cbn [Search.allUrls Search.queryToUrls]. by rewrite Hall, Hmap, <- app_assoc.
Qed.

Lemma insert_fold_lookup {A V} (f : A -> V) (entries : list (string * A)) :
  forall (m : gmap string V) before key value after,
    entries = before ++ (key, value) :: after -> key ∉ after.*1 ->
    foldl (fun m entry => <[entry.1 := f entry.2]> m) m entries !! key =
      Some (f value).
Proof.
  intros m before key value after -> Hlast. rewrite foldl_app. cbn [foldl fst snd].
  set (m1 := <[key := f value]> _).
  assert (m1 !! key = Some (f value)) as H by apply lookup_insert_eq.
  clearbody m1. revert m1 H. induction after as [|[k v] after IH]; intros m1 H; [done|].
  cbn [foldl fst snd]. apply not_elem_of_cons in Hlast as [Hne Hlast]. cbn in Hne.
  apply IH; [done|]. by rewrite lookup_insert_ne.
Qed.

Lemma insert_fold_dom {A V} (f : A -> V) (entries : list (string * A))
    (m : gmap string V) :
  dom (foldl (fun m entry => <[entry.1 := f entry.2]> m) m entries) =
    dom m ∪ list_to_set entries.*1.
Proof.
  revert m. induction entries as [|[k v] entries IH]; intros m.
  - cbn. set_solver.
  - cbn [foldl fst snd fmap list_fmap list_to_set]. rewrite IH, dom_insert_L. set_solver.
Qed.

(** The own properties after a run of assignments are those of the
    assignments under other keys than "__proto__". *)
Lemma assignObject_fold_own {A V} (f : A -> V) (entries : list (string * A)) :
  forall m : Obj.Dict V,
    Obj.own (foldl (fun m entry => Obj.assignObject entry.1 (f entry.2) m) m entries) =
      foldl (fun m entry => <[entry.1 := f entry.2]> m) (Obj.own m)
            (filter (fun entry => entry.1 <> "__proto__") entries).
Proof.
  induction entries as [|[k v] entries IH]; intros m; [done|].
  cbn [foldl fst snd]. rewrite IH. unfold Obj.assignObject.
  destruct (String.eqb_spec k "__proto__") as [->|Hne].
  - by rewrite filter_cons_False by (cbn; tauto).
  - by rewrite filter_cons_True by done.
Qed.

Lemma assignObject_fold_prototype {A V} (f : A -> V) (entries : list (string * A)) :
  forall m : Obj.Dict V,
    "__proto__" ∉ entries.*1 ->
    Obj.prototype
      (foldl (fun m entry => Obj.assignObject entry.1 (f entry.2) m) m entries) =
      Obj.prototype m.
Proof.
  induction entries as [|[k v] entries IH]; intros m Hproto; [done|].
  cbn [fmap list_fmap fst] in Hproto.
  apply not_elem_of_cons in Hproto as [Hk Hproto].
  cbn [foldl fst snd]. rewrite IH by done. unfold Obj.assignObject.
  by destruct (String.eqb_spec k "__proto__").
Qed.

Lemma lookup_responses (endpoint : nat -> string -> list Search.Hit) queries :
  forall n i query,
    queries !! i = Some query ->
    responses endpoint n queries !! i = Some (endpoint (n + i)%nat query).
Proof.
  induction queries as [|q queries IH]; intros n i query Hi; [done|].
  destruct i as [|i]; simpl in *.
  - injection Hi as ->. by rewrite Nat.add_0_r.
  - replace (n + S i)%nat with (S n + i)%nat by lia. by apply IH.
Qed.

Lemma length_responses (endpoint : nat -> string -> list Search.Hit) queries :
  forall n, length (responses endpoint n queries) = length queries.
Proof. induction queries as [|q queries IH]; intros n; [done|]. cbn. by rewrite IH. Qed.

Lemma zip_responses_fst (endpoint : nat -> string -> list Search.Hit) queries :
  forall n, (zip queries (responses endpoint n queries)).*1 = queries.
Proof. induction queries as [|q queries IH]; intros n; [done|]. cbn. by rewrite IH. Qed.

Section MultiSearchMore.
Variable newURL : string -> Try URL.
Variable endpoint : nat -> string -> list Search.Hit.

(** X21. The URLs of multiSearch are the URLs of all hits, those of the first
    query first and empty ones left out, deduplicated. *)
Theorem multiSearch_urls (queries : list string) (resultsPerQuery : Z) :
  Search.urls
    (Search.run endpoint 0 (Search.multiSearch newURL queries resultsPerQuery)).2 =
    deduplicateUrls newURL (hitUrls (concat (responses endpoint 0 queries))).
Proof.
  rewrite run_multiSearch. cbn [snd]. unfold Search.aggregate. cbn [Search.urls].
  destruct (collectQuery_urls (zip queries (responses endpoint 0 queries))
              Search.noneCollected) as [-> _].
  by rewrite zip_responses_snd, hitUrls_concat.
Qed.

(** X22. [queryResults] has an own entry for every query but "__proto__",
    and it lists the URLs of the hits of that query, not deduplicated, in
    the order of the page; of a query that is repeated, the last request
    counts.  For the query "__proto__" there is no entry: the list of its
    last request becomes the prototype of [queryResults] instead. *)
Theorem multiSearch_queryResults (queries : list string) (resultsPerQuery : Z) :
  let result :=
    (Search.run endpoint 0 (Search.multiSearch newURL queries resultsPerQuery)).2 in
  dom (Obj.own (Search.queryResults result)) = list_to_set queries ∖ {["__proto__"]} /\
  (forall i query,
     queries !! i = Some query -> query <> "__proto__" ->
     (forall j, (i < j)%nat -> queries !! j <> Some query) ->
     Obj.own (Search.queryResults result) !! query = Some (hitUrls (endpoint i query))) /\
  (forall i,
     queries !! i = Some "__proto__" ->
     (forall j, (i < j)%nat -> queries !! j <> Some "__proto__") ->
     Obj.prototype (Search.queryResults result) =
       Some (hitUrls (endpoint i "__proto__"))) /\
  ("__proto__" ∉ queries -> Obj.prototype (Search.queryResults result) = None).
Proof.
  cbn zeta. rewrite run_multiSearch. cbn [snd]. unfold Search.aggregate.
  cbn [Search.queryResults].
  destruct (collectQuery_urls (zip queries (responses endpoint 0 queries))
              Search.noneCollected) as [_ ->].
  cbn [Search.noneCollected Search.queryToUrls].
  set (entries := zip queries (responses endpoint 0 queries)).
  assert (forall i query,
            queries !! i = Some query ->
            (forall j, (i < j)%nat -> queries !! j <> Some query) ->
            entries =
              zip (take i queries) (take i (responses endpoint 0 queries)) ++
              (query, endpoint i query) ::
              zip (drop (S i) queries) (drop (S i) (responses endpoint 0 queries)) /\
            query ∉ (zip (drop (S i) queries)
                         (drop (S i) (responses endpoint 0 queries))).*1) as Hsplit.
  { intros i query Hi Hlast.
    pose proof (lookup_responses endpoint queries 0 i query Hi) as Hr. cbn in Hr.
    split.
    - unfold entries.
      rewrite <- (take_drop_middle queries i query Hi) at 1.
      rewrite <- (take_drop_middle (responses endpoint 0 queries) i _ Hr) at 1.
      rewrite zip_with_app; [done|].
      rewrite !length_take, length_responses. done.
    - intros Hin. apply list_elem_of_fmap in Hin as ([q hits] & -> & Hin).
      apply elem_of_zip_l in Hin. cbn [fst] in *.
      apply list_elem_of_lookup in Hin as [j Hj]. rewrite lookup_drop in Hj.
      by apply (Hlast (S i + j)%nat); [lia|]. }
  split; [|split; [|split]].
  - rewrite assignObject_fold_own, insert_fold_dom. cbn [Obj.empty Obj.own].
    rewrite dom_empty_L, (left_id_L ∅ (∪)).
    rewrite <- (zip_responses_fst endpoint queries 0). fold entries.
    apply set_eq. intros key.
    rewrite elem_of_list_to_set, elem_of_difference, elem_of_list_to_set,
      elem_of_singleton, !list_elem_of_fmap.
    split.
    + intros (entry & -> & [Hne Hin]%list_elem_of_filter). split; [by exists entry|done].
    + intros [(entry & -> & Hin) Hne]. exists entry. split; [done|].
      by apply list_elem_of_filter.
  - intros i query Hi Hne Hlast. destruct (Hsplit i query Hi Hlast) as [E Hafter].
    rewrite assignObject_fold_own.
    apply (insert_fold_lookup hitUrls _ _
             (filter (fun entry => entry.1 <> "__proto__")
                (zip (take i queries) (take i (responses endpoint 0 queries))))
             query (endpoint i query)
             (filter (fun entry => entry.1 <> "__proto__")
                (zip (drop (S i) queries) (drop (S i) (responses endpoint 0 queries))))).
    + rewrite E, filter_app, filter_cons_True by done. done.
    + intros (entry & -> & [_ Hin]%list_elem_of_filter)%list_elem_of_fmap.
      apply Hafter, list_elem_of_fmap. by exists entry.
  - intros i Hi Hlast. destruct (Hsplit i "__proto__" Hi Hlast) as [E Hafter].
    rewrite E, foldl_app. cbn [foldl fst snd].
    rewrite assignObject_fold_prototype by done. done.
  - intros Hnone. rewrite assignObject_fold_prototype; [done|].
    unfold entries. by rewrite zip_responses_fst.
Qed.

End MultiSearchMore.

(** ** The command line *)

Lemma runInstaller_supported platform :
  platform ∈ Cli.SUPPORTED_PLATFORMS ->
  Cli.runInstaller platform = [Cli.InstallClaudeCode] \/
  Cli.runInstaller platform = [Cli.InstallOpenCode].
Proof.
  unfold Cli.SUPPORTED_PLATFORMS.
  intros [->|[->|?%elem_of_nil]%elem_of_cons]%elem_of_cons; [by left|by right|done].
Qed.

(** X23. Where the command line leads. *)
Theorem main_routing (args : list string) :
  let flagged :=
    "--help" ∈ args \/ "-h" ∈ args \/ "--version" ∈ args \/ "-v" ∈ args in
  (flagged ->
   Cli.main args = [Cli.WriteHelp; Cli.ProcessExit 0] \/
   Cli.main args = [Cli.WriteVersion; Cli.ProcessExit 0]) /\
  (Cli.StartServer ∈ Cli.main args <-> ~ flagged /\ Cli.argument args 0 = None) /\
  (Cli.InstallClaudeCode ∈ Cli.main args \/ Cli.InstallOpenCode ∈ Cli.main args <->
   ~ flagged /\ Cli.argument args 0 = Some "install" /\
   exists platform,
     Cli.argument args 1 = Some platform /\ platform ∈ Cli.SUPPORTED_PLATFORMS) /\
  (forall platform,
     Cli.ConsoleError ("Unknown platform: " +:+ platform) ∉ Cli.main args).
Proof.
  cbn zeta. unfold Cli.main.
  destruct (decide ("--help" ∈ args)) as [H1|H1];
    [rewrite (bool_decide_eq_true_2 _ H1)|rewrite (bool_decide_eq_false_2 _ H1)].
  { cbn [orb]. split; [by left|]. split; [|split].
    - split; [set_solver|]. intros [Hf _]. tauto.
    - split; [set_solver|]. intros [Hf _]. tauto.
    - intros platform. set_solver. }
  destruct (decide ("-h" ∈ args)) as [H2|H2];
    [rewrite (bool_decide_eq_true_2 _ H2)|rewrite (bool_decide_eq_false_2 _ H2)].
  { cbn [orb]. split; [by left|]. split; [|split].
    - split; [set_solver|]. intros [Hf _]. tauto.
    - split; [set_solver|]. intros [Hf _]. tauto.
    - intros platform. set_solver. }
  cbn [orb].
  destruct (decide ("--version" ∈ args)) as [H3|H3];
    [rewrite (bool_decide_eq_true_2 _ H3)|rewrite (bool_decide_eq_false_2 _ H3)].
  { cbn [orb]. split; [by right|]. split; [|split].
    - split; [set_solver|]. intros [Hf _]. tauto.
    - split; [set_solver|]. intros [Hf _]. tauto.
    - intros platform. set_solver. }
  destruct (decide ("-v" ∈ args)) as [H4|H4];
    [rewrite (bool_decide_eq_true_2 _ H4)|rewrite (bool_decide_eq_false_2 _ H4)].
  { cbn [orb]. split; [by right|]. split; [|split].
    - split; [set_solver|]. intros [Hf _]. tauto.
    - split; [set_solver|]. intros [Hf _]. tauto.
    - intros platform. set_solver. }
  cbn [orb]. split; [tauto|].
  assert (~ ("--help" ∈ args \/ "-h" ∈ args \/ "--version" ∈ args \/ "-v" ∈ args))
    as Hplain by tauto.
  destruct (Cli.argument args 0) as [command|] eqn:E0.
  2:{ split; [split; [done|by intros; left]|]. split; [|set_solver].
      split; [set_solver|]. by intros (_ & ? & _). }
  destruct (String.eqb_spec command "install") as [->|Hcmd].
  2:{ split; [split; [set_solver|by intros [_ ?]]|]. split.
      - split; [set_solver|]. intros (_ & [= ?] & _). done.
      - intros platform Hin. repeat (apply elem_of_cons in Hin as [Hin|Hin]); try done.
        by apply elem_of_nil in Hin. }
  destruct (Cli.argument args 1) as [platform|] eqn:E1.
  2:{ split; [split; [set_solver|by intros [_ ?]]|]. split.
      - split; [set_solver|]. by intros (_ & _ & ? & ? & _).
      - intros platform Hin. repeat (apply elem_of_cons in Hin as [Hin|Hin]); try done.
        by apply elem_of_nil in Hin. }
  case_bool_decide as Hsup; cbn [negb].
  - destruct (runInstaller_supported platform Hsup) as [-> | ->].
    + split; [split; [set_solver|by intros [_ ?]]|]. split.
      * split; [by eauto 6|]. intros _. left. by left.
      * intros p Hin. apply list_elem_of_singleton in Hin. done.
    + split; [split; [set_solver|by intros [_ ?]]|]. split.
      * split; [by eauto 6|]. intros _. right. by left.
      * intros p Hin. apply list_elem_of_singleton in Hin. done.
  - split; [split; [set_solver|by intros [_ ?]]|]. split.
    + split; [set_solver|]. intros (_ & _ & p & [= <-] & ?). done.
    + intros p Hin. repeat (apply elem_of_cons in Hin as [Hin|Hin]); try done.
      by apply elem_of_nil in Hin.
Qed.

(** ** The thresholds in integers *)

(** [lia] with the powers of two taken as unknowns. *)
Ltac lia_pow :=
  repeat match goal with
         | |- context [2 ^ ?e] =>
             let x := fresh "pow" in set (x := 2 ^ e) in *; clearbody x
         | H : context [2 ^ ?e] |- _ =>
             let x := fresh "pow" in set (x := 2 ^ e) in *; clearbody x
         end;
  lia.

Lemma digits2_bounds (p : positive) :
  2 ^ (Z.pos (digits2_pos p) - 1) <= Z.pos p < 2 ^ Z.pos (digits2_pos p).
Proof.
  induction p as [p IH|p IH|]; cbn [digits2_pos]; [| |done].
  - rewrite Pos2Z.inj_succ, (Pos2Z.inj_xI p).
    replace (Z.succ (Z.pos (digits2_pos p)) - 1) with (Z.succ (Z.pos (digits2_pos p) - 1)) by lia.
    rewrite !Z.pow_succ_r by lia. lia_pow.
  - rewrite Pos2Z.inj_succ, (Pos2Z.inj_xO p).
    replace (Z.succ (Z.pos (digits2_pos p)) - 1) with (Z.succ (Z.pos (digits2_pos p) - 1)) by lia.
    rewrite !Z.pow_succ_r by lia. lia_pow.
Qed.

Lemma digits2_unique (p : positive) (d : Z) :
  2 ^ (d - 1) <= Z.pos p < 2 ^ d -> Z.pos (digits2_pos p) = d.
Proof.
  intros [Hlo Hhi]. pose proof (digits2_bounds p) as [Hlo' Hhi'].
  destruct (Z.lt_trichotomy (Z.pos (digits2_pos p)) d) as [Hlt|[?|Hgt]]; [|done|].
  - assert (2 ^ Z.pos (digits2_pos p) <= 2 ^ (d - 1)) by (apply Z.pow_le_mono_r; lia).
    lia_pow.
  - assert (0 < d).
    { destruct (Z.lt_ge_cases 0 d); [done|]. exfalso.
      rewrite (Z.pow_neg_r 2 (d - 1)) in Hlo by lia.
      assert (2 ^ d <= 2 ^ 0) by (apply Z.pow_le_mono_r; lia).
      change (2 ^ 0) with 1 in *. lia_pow. }
    assert (2 ^ d <= 2 ^ (Z.pos (digits2_pos p) - 1)) by (apply Z.pow_le_mono_r; lia).
    lia_pow.
Qed.

Lemma iter_xO (m d : positive) :
  Z.pos (Pos.iter xO m d) = Z.pos m * 2 ^ Z.pos d.
Proof.
  induction d as [|d IH] using Pos.peano_ind.
  - cbn [Pos.iter]. rewrite (Pos2Z.inj_xO m). change (2 ^ 1) with 2. lia.
  - rewrite Pos.iter_succ, (Pos2Z.inj_xO (Pos.iter xO m d)), IH, Pos2Z.inj_succ,
      Z.pow_succ_r by lia.
    lia_pow.
Qed.

Lemma shr_1_m mrs : 0 <= shr_m mrs -> shr_m (shr_1 mrs) = shr_m mrs / 2.
Proof.
  destruct mrs as [m r s]. cbn [shr_m shr_1]. intros Hm.
  destruct m as [|[p|p|]|p]; cbn [shr_m]; try lia; try done.
  - rewrite (Pos2Z.inj_xI p). apply Z.div_unique with 1; lia.
  - rewrite (Pos2Z.inj_xO p). apply Z.div_unique with 0; lia.
Qed.

Lemma iter_shr_m (p : positive) :
  forall mrs, 0 <= shr_m mrs ->
    shr_m (SpecFloat.iter_pos shr_1 p mrs) = shr_m mrs / 2 ^ Z.pos p.
Proof.
  assert (forall k, 0 < 2 ^ Z.pos k) as Hpow.
  { intros k. apply Z.pow_pos_nonneg; lia. }
  induction p as [p IH|p IH|]; intros mrs Hm; cbn [SpecFloat.iter_pos].
  - assert (0 <= shr_m mrs / 2) by (apply Z.div_pos; lia).
    assert (0 <= shr_m mrs / 2 / 2 ^ Z.pos p) by (apply Z.div_pos; [lia|apply Hpow]).
    rewrite IH; rewrite IH; rewrite shr_1_m; try done; try (rewrite shr_1_m by done; done).
    rewrite !Z.div_div by (pose proof (Hpow p); lia).
    f_equal. rewrite (Pos2Z.inj_xI p).
    replace (2 * Z.pos p + 1) with (1 + (Z.pos p + Z.pos p)) by lia.
    rewrite !Z.pow_add_r by lia. change (2 ^ 1) with 2. ring.
  - assert (0 <= shr_m mrs / 2 ^ Z.pos p) by (apply Z.div_pos; [lia|apply Hpow]).
    rewrite IH; rewrite IH; try done.
    rewrite !Z.div_div by (pose proof (Hpow p); lia).
    f_equal. rewrite (Pos2Z.inj_xO p).
    replace (2 * Z.pos p) with (Z.pos p + Z.pos p) by lia.
    rewrite Z.pow_add_r by lia. done.
  - rewrite shr_1_m by done. done.
Qed.

Lemma round_nearest_even_bounds (x : Z) (l : location) :
  x <= round_nearest_even x l <= x + 1.
Proof.
  destruct l as [|[| |]]; cbn [round_nearest_even]; try lia.
  destruct (Z.even x); lia.
Qed.

Lemma fexp_normal (e : Z) :
  -1021 <= e -> fexp Num.prec Num.emax e = e - 53.
Proof. unfold fexp, emin, Num.prec, Num.emax. lia. Qed.

(** A mantissa of 53 digits is kept as it is. *)
Lemma binary_round_aux_exact (s : bool) (m : positive) (e : Z) :
  Z.pos (digits2_pos m) = 53 -> -1074 <= e <= 971 ->
  binary_round_aux Num.prec Num.emax s (Z.pos m) e loc_Exact = S754_finite s m e.
Proof.
  intros Hd He. unfold binary_round_aux, shr_fexp.
  cbn [Zdigits2 shr_record_of_loc]. rewrite Hd, fexp_normal by lia.
  replace (53 + e - 53 - e) with 0 by lia.
  cbn [shr shr_m loc_of_shr_record round_nearest_even Zdigits2 shr_record_of_loc].
  rewrite Hd, fexp_normal by lia.
  replace (53 + e - 53 - e) with 0 by lia.
  cbn [shr shr_m].
  replace (e <=? Num.emax - Num.prec) with true; [done|].
  symmetry. apply Z.leb_le. unfold Num.emax, Num.prec. lia.
Qed.

(** The binary64 value of a positive integer below 2^53 is the integer. *)
Lemma ofZ_exact (i d : Z) :
  0 < d <= 53 -> 2 ^ (d - 1) <= i < 2 ^ d ->
  exists m : positive,
    Num.ofZ i = S754_finite false m (d - 53) /\
    Z.pos m = i * 2 ^ (53 - d) /\
    Z.pos (digits2_pos m) = 53.
Proof.
  intros Hd Hi.
  assert (0 < 2 ^ (d - 1)) by (apply Z.pow_pos_nonneg; lia).
  destruct i as [|p|p]; [lia| |lia].
  pose proof (digits2_unique p d Hi) as Hp.
  unfold Num.ofZ, binary_normalize, binary_round.
  rewrite Hp, fexp_normal by lia. unfold shl_align.
  replace (d + 0 - 53 - 0) with (d - 53) by lia.
  destruct (d - 53) as [|k|k] eqn:Hk; [|lia|].
  - exists p. replace (53 - d) with 0 by lia. replace d with 53 in Hp by lia.
    rewrite binary_round_aux_exact by (done || lia).
    change (2 ^ 0) with 1. split; [done|]. split; [lia|done].
  - assert (Z.pos (Pos.iter xO p k) = Z.pos p * 2 ^ (53 - d)) as Hm.
    { rewrite iter_xO. f_equal. f_equal. lia. }
    assert (Z.pos (digits2_pos (Pos.iter xO p k)) = 53) as Hd'.
    { apply digits2_unique. rewrite Hm.
      assert (2 ^ (53 - 1) = 2 ^ (d - 1) * 2 ^ (53 - d)) as ->
        by (rewrite <- Z.pow_add_r by lia; f_equal; lia).
      assert (2 ^ 53 = 2 ^ d * 2 ^ (53 - d)) as ->
        by (rewrite <- Z.pow_add_r by lia; f_equal; lia).
      assert (0 < 2 ^ (53 - d)) by (apply Z.pow_pos_nonneg; lia).
      split; [apply Z.mul_le_mono_nonneg_r|apply Z.mul_lt_mono_pos_r]; lia. }
    exists (Pos.iter xO p k).
    rewrite binary_round_aux_exact; [|done|lia].
    split; [f_equal; lia|done].
Qed.

(** Rounding a longer mantissa: the result has 53 digits and lies on the
    grid of the shifted exponent, at most one grid step above the quotient
    that the shift leaves. *)
Lemma binary_round_aux_long (s : bool) (m : positive) (e d : Z) :
  Z.pos (digits2_pos m) = d -> 53 < d -> -1021 <= d + e <= 1023 ->
  exists (m' : positive) (e' : Z),
    binary_round_aux Num.prec Num.emax s (Z.pos m) e loc_Exact
      = S754_finite s m' e' /\
    Z.pos (digits2_pos m') = 53 /\
    d + e - 53 <= e' /\
    Z.pos m / 2 ^ (d - 53) <= Z.pos m' * 2 ^ (e' - (d + e - 53))
      <= Z.pos m / 2 ^ (d - 53) + 1.
Proof.
  intros Hd Hlong He.
  pose proof (digits2_bounds m) as Hm. rewrite Hd in Hm.
  destruct (d - 53) as [|p|p] eqn:Hp; [lia| |lia].
  assert (0 < 2 ^ Z.pos p) as Hpow by (apply Z.pow_pos_nonneg; lia).
  assert (2 ^ (d - 1) = 2 ^ 52 * 2 ^ Z.pos p) as Hlo
    by (rewrite <- Z.pow_add_r by lia; f_equal; lia).
  assert (2 ^ d = 2 ^ 53 * 2 ^ Z.pos p) as Hhi
    by (rewrite <- Z.pow_add_r by lia; f_equal; lia).
  rewrite Hlo, Hhi in Hm.
  assert (0 < 2 ^ 52 < 2 ^ 53) as Hconst by done.
  set (q := Z.pos m / 2 ^ Z.pos p).
  assert (2 ^ 52 <= q < 2 ^ 53) as Hq.
  { split.
    - apply Z.div_le_lower_bound; lia.
    - apply Z.div_lt_upper_bound; lia. }
  unfold binary_round_aux, shr_fexp.
  cbn [Zdigits2 shr_record_of_loc]. rewrite Hd, fexp_normal by lia.
  replace (d + e - 53 - e) with (Z.pos p) by lia.
  cbn [shr]. set (mrs := SpecFloat.iter_pos shr_1 p _).
  assert (shr_m mrs = q) as Hmrs by (unfold mrs; by rewrite iter_shr_m).
  pose proof (round_nearest_even_bounds (shr_m mrs) (loc_of_shr_record mrs)) as Hr.
  rewrite Hmrs in Hr.
  destruct (round_nearest_even (shr_m mrs) (loc_of_shr_record mrs))
    as [|r|r] eqn:Er; rewrite Hmrs in Er; rewrite Er in Hr; [lia| |lia].
  cbn [Zdigits2 shr_record_of_loc].
  destruct (Z.eq_dec (Z.pos r) (2 ^ 53)) as [Htop|Hbelow].
  - change (2 ^ 53) with (Z.pos 9007199254740992) in Htop.
    injection Htop as ->.
    change (Z.pos (digits2_pos 9007199254740992)) with 54.
    rewrite fexp_normal by lia.
    replace (54 + (e + Z.pos p) - 53 - (e + Z.pos p)) with 1 by lia.
    cbn [shr SpecFloat.iter_pos shr_1 shr_m orb].
    replace (e + Z.pos p + 1 <=? Num.emax - Num.prec) with true
      by (symmetry; apply Z.leb_le; unfold Num.emax, Num.prec; lia).
    eexists _, _. split; [done|]. split; [done|]. split; [lia|].
    replace (e + Z.pos p + 1 - (d + e - 53)) with 1 by lia.
    change (2 ^ 1) with 2.
    change (Z.pos 4503599627370496 * 2) with (2 ^ 53).
    change (Z.pos 9007199254740992) with (2 ^ 53) in Hr. lia.
  - assert (Z.pos (digits2_pos r) = 53) as Hr53.
    { apply digits2_unique. change (2 ^ (53 - 1)) with (2 ^ 52). lia. }
    rewrite Hr53, fexp_normal by lia.
    replace (53 + (e + Z.pos p) - 53 - (e + Z.pos p)) with 0 by lia.
    cbn [shr shr_m].
    replace (e + Z.pos p <=? Num.emax - Num.prec) with true
      by (symmetry; apply Z.leb_le; unfold Num.emax, Num.prec; lia).
    eexists _, _. split; [done|]. split; [done|]. split; [lia|].
    replace (e + Z.pos p - (d + e - 53)) with 0 by lia.
    change (2 ^ 0) with 1. lia.
Qed.

(** Floats with 53-digit mantissas compare as their values do. *)
Lemma SFltb_canonical (m1 m2 : positive) (e1 e2 e0 : Z) :
  Z.pos (digits2_pos m1) = 53 -> Z.pos (digits2_pos m2) = 53 ->
  e0 <= e1 -> e0 <= e2 ->
  SFltb (S754_finite false m1 e1) (S754_finite false m2 e2) = true <->
  Z.pos m1 * 2 ^ (e1 - e0) < Z.pos m2 * 2 ^ (e2 - e0).
Proof.
  intros H1 H2 He1 He2.
  pose proof (digits2_bounds m1) as B1. rewrite H1 in B1.
  pose proof (digits2_bounds m2) as B2. rewrite H2 in B2.
  change (2 ^ (53 - 1)) with (2 ^ 52) in *.
  assert (2 ^ 53 = 2 * 2 ^ 52) as E53 by done.
  assert (0 < 2 ^ (e1 - e0)) by (apply Z.pow_pos_nonneg; lia).
  assert (0 < 2 ^ (e2 - e0)) by (apply Z.pow_pos_nonneg; lia).
  unfold SFltb, SFcompare.
  change (Pos.compare_cont Eq m1 m2) with (Pos.compare m1 m2).
  rewrite (Pos2Z.inj_compare m1 m2).
  destruct (Z.compare_spec e1 e2) as [->|Hlt|Hgt].
  - destruct (Z.compare_spec (Z.pos m1) (Z.pos m2)) as [E|E|E];
      (split; [intros ?|intros ?]); try done; try nia.
  - split; [intros _|done].
    assert (2 ^ (e2 - e0) = 2 ^ (e2 - e1) * 2 ^ (e1 - e0)) as ->
      by (rewrite <- Z.pow_add_r by lia; f_equal; lia).
    assert (2 ^ 1 <= 2 ^ (e2 - e1)) by (apply Z.pow_le_mono_r; lia).
    change (2 ^ 1) with 2 in *.
    rewrite E53 in B1, B2. assert (0 < 2 ^ 52) by done.
    set (a := 2 ^ 52) in *. set (A := 2 ^ (e1 - e0)) in *.
    set (C := 2 ^ (e2 - e1)) in *. clearbody a A C.
    assert (2 * a <= Z.pos m2 * C) by nia.
    apply Z.lt_le_trans with (2 * a * A); [nia|].
    rewrite Z.mul_assoc. apply Z.mul_le_mono_nonneg_r; lia.
  - split; [done|intros Hc; exfalso].
    assert (2 ^ (e1 - e0) = 2 ^ (e1 - e2) * 2 ^ (e2 - e0)) as E
      by (rewrite <- Z.pow_add_r by lia; f_equal; lia).
    rewrite E in Hc.
    assert (2 ^ 1 <= 2 ^ (e1 - e2)) by (apply Z.pow_le_mono_r; lia).
    change (2 ^ 1) with 2 in *.
    rewrite E53 in B1, B2. assert (0 < 2 ^ 52) by done.
    set (a := 2 ^ 52) in *. set (A := 2 ^ (e2 - e0)) in *.
    set (C := 2 ^ (e1 - e2)) in *. clearbody a A C.
    assert (2 * a <= Z.pos m1 * C) by nia.
    assert (Z.pos m2 * A < 2 * a * A) by nia.
    assert (2 * a * A <= Z.pos m1 * C * A)
      by (apply Z.mul_le_mono_nonneg_r; lia).
    lia.
Qed.

Lemma digits2_le (p : positive) (k : Z) :
  0 <= k -> Z.pos p < 2 ^ k -> Z.pos (digits2_pos p) <= k.
Proof.
  intros Hk Hp. pose proof (digits2_bounds p) as [Hlo _].
  assert (2 ^ (Z.pos (digits2_pos p) - 1) < 2 ^ k) as Hlt by lia.
  apply Z.pow_lt_mono_r_iff in Hlt; lia.
Qed.

Lemma digits2_gt (p : positive) (k : Z) :
  2 ^ k <= Z.pos p -> k < Z.pos (digits2_pos p).
Proof.
  intros Hp. pose proof (digits2_bounds p) as [_ Hhi].
  assert (2 ^ k < 2 ^ Z.pos (digits2_pos p)) as Hlt by lia.
  apply Z.pow_lt_mono_r_iff in Hlt; lia.
Qed.

(** The comparison [index > maxChars * fraction] of the code, for a fraction
    [c / 2^53] with a 53-digit [c], against the same comparison in exact
    arithmetic: they agree when the exact product is at least [index], and
    when it is below [index] by [2^-20] or more. *)
Lemma beyond_scaled (index maxChars : Z) (c : positive) :
  0 < maxChars < 2 ^ 32 -> 0 <= index < 2 ^ 53 ->
  Z.pos (digits2_pos c) = 53 ->
  (index * 2 ^ 53 <= maxChars * Z.pos c ->
     beyond index maxChars (S754_finite false c (-53)) = false) /\
  (maxChars * Z.pos c + 2 ^ 33 <= index * 2 ^ 53 ->
     beyond index maxChars (S754_finite false c (-53)) = true).
Proof.
  intros Hn Hi Hc.
  destruct maxChars as [|n|n]; [lia| |lia].
  set (dn := Z.pos (digits2_pos n)).
  assert (0 < dn <= 32) as Hdn.
  { split; [done|]. apply digits2_le; lia. }
  destruct (ofZ_exact (Z.pos n) dn) as (mn & Hofn & Hmn & Hdmn);
    [lia|apply digits2_bounds|].
  pose proof (digits2_bounds c) as Bc. rewrite Hc in Bc.
  pose proof (digits2_bounds mn) as Bn. rewrite Hdmn in Bn.
  change (2 ^ (53 - 1)) with (2 ^ 52) in *.
  set (dM := Z.pos (digits2_pos (mn * c))).
  assert (104 < dM <= 106) as HdM.
  { assert (0 < 2 ^ 52) by done.
    split.
    - apply digits2_gt. rewrite Pos2Z.inj_mul.
      change (2 ^ 104) with (2 ^ 52 * 2 ^ 52).
      apply Z.mul_le_mono_nonneg; lia.
    - apply digits2_le; [lia|]. rewrite Pos2Z.inj_mul.
      change (2 ^ 106) with (2 ^ 53 * 2 ^ 53).
      apply Z.mul_lt_mono_nonneg; lia. }
  destruct (binary_round_aux_long false (mn * c) (dn - 53 + -53) dM)
    as (m' & e' & Hres & Hdm' & He' & Hval); [done|lia|lia|].
  unfold beyond, Num.gtb, Num.mul. rewrite Hofn. unfold SFmul.
  cbn [xorb]. rewrite Hres.
  set (e0 := dM + (dn - 53 + -53) - 53) in *.
  set (K := 2 ^ (- e0)). set (Q := 2 ^ (dM - 53)) in *.
  set (P := 2 ^ (53 - dn)) in *.
  assert (0 < Q) as HQ by (apply Z.pow_pos_nonneg; lia).
  assert (0 < P) as HP by (apply Z.pow_pos_nonneg; lia).
  assert (0 < K) as HK by (apply Z.pow_pos_nonneg; lia).
  assert (Q * K = 2 ^ 53 * P) as HQK.
  { unfold Q, K, P. rewrite <- !Z.pow_add_r by lia. f_equal. lia. }
  assert (Q <= 2 ^ 53) as HQle.
  { unfold Q. apply Z.pow_le_mono_r; lia. }
  assert (2 ^ 21 <= P) as HPge.
  { unfold P. apply Z.pow_le_mono_r; lia. }
  rewrite Pos2Z.inj_mul, Hmn in Hval.
  destruct index as [|i|i]; [| |lia].
  - change (Num.ofZ 0) with (S754_zero false).
    split; [done|]. intros Hgap. exfalso.
    assert (0 < 2 ^ 33) by done. lia.
  - set (di := Z.pos (digits2_pos i)).
    assert (0 < di <= 53) as Hdi.
    { split; [done|]. apply digits2_le; lia. }
    destruct (ofZ_exact (Z.pos i) di) as (mi & Hofi & Hmi & Hdmi);
      [lia|apply digits2_bounds|].
    rewrite Hofi.
    set (R := 2 ^ (e0 + 53)).
    assert (0 < R) as HR by (apply Z.pow_pos_nonneg; unfold e0; lia).
    assert (SFltb (S754_finite false m' e') (S754_finite false mi (di - 53)) = true
            <-> Z.pos m' * 2 ^ (e' - e0) < Z.pos i * K) as Hcmp.
    { rewrite (SFltb_canonical m' mi e' (di - 53) (-53))
        by (done || (unfold e0 in He'; lia)).
      replace (e' - -53) with ((e' - e0) + (e0 + 53)) by lia.
      rewrite Z.pow_add_r by (unfold e0; lia). fold R.
      assert (Z.pos mi * 2 ^ (di - 53 - -53) = Z.pos i * K * R) as ->.
      { rewrite Hmi, <- !Z.mul_assoc. f_equal.
        unfold K, R. rewrite <- !Z.pow_add_r by (unfold e0; lia).
        f_equal. lia. }
      rewrite Z.mul_assoc. symmetry. apply Z.mul_lt_mono_pos_r. done. }
    set (V := Z.pos m' * 2 ^ (e' - e0)) in *.
    set (M := Z.pos n * P * Z.pos c) in *.
    assert (Q * (Z.pos i * K) = Z.pos i * 2 ^ 53 * P) as Hscale.
    { rewrite (Z.mul_comm (Z.pos i) K), Z.mul_assoc, HQK. ring. }
    split.
    + intros Hle. apply not_true_is_false. intros Hlt.
      apply Hcmp in Hlt.
      assert (Z.pos i * K <= M / Q); [|lia].
      apply Z.div_le_lower_bound; [done|]. rewrite Hscale. unfold M.
      replace (Z.pos n * P * Z.pos c) with (Z.pos n * Z.pos c * P) by ring.
      apply Z.mul_le_mono_nonneg_r; lia.
    + intros Hgap. apply Hcmp.
      assert (M / Q < Z.pos i * K - 1); [|lia].
      apply Z.div_lt_upper_bound; [done|].
      rewrite Z.mul_sub_distr_l, Hscale, Z.mul_1_r. unfold M.
      replace (Z.pos n * P * Z.pos c) with (Z.pos n * Z.pos c * P) by ring.
      assert ((Z.pos n * Z.pos c + 2 ^ 33) * P <= Z.pos i * 2 ^ 53 * P)
        by (apply Z.mul_le_mono_nonneg_r; lia).
      assert (2 ^ 33 * 2 ^ 21 <= 2 ^ 33 * P)
        by (apply Z.mul_le_mono_nonneg_l; [done|lia]).
      change (2 ^ 33 * 2 ^ 21) with (2 * 2 ^ 53) in *.
      assert (0 < 2 ^ 53) by done.
      lia.
Qed.

Lemma lit_0_7_scaled : 10 * 6305039478318694 = 7 * 2 ^ 53 - 4.
Proof. reflexivity. Qed.

Lemma lit_0_8_scaled : 5 * 7205759403792794 = 4 * 2 ^ 53 + 2.
Proof. reflexivity. Qed.

Lemma beyond_lit_0_8 (index maxChars : Z) :
  0 < maxChars < 2 ^ 32 -> -1 <= index < 2 ^ 53 ->
  beyond index maxChars Num.lit_0_8 = (4 * maxChars <? 5 * index).
Proof.
  intros Hn Hi.
  destruct (Z.eq_dec index (-1)) as [->|Hne].
  { unfold Num.lit_0_8. rewrite beyond_not_found by lia.
    symmetry. apply Z.ltb_ge. lia. }
  destruct (beyond_scaled index maxChars 7205759403792794 Hn) as [Hlow Hhigh];
    [lia|done|].
  fold Num.lit_0_8 in Hlow, Hhigh.
  pose proof lit_0_8_scaled as Hc.
  assert (0 < 2 ^ 33 /\ 7 * 2 ^ 33 <= 2 ^ 53) as [? ?] by done.
  set (c := 7205759403792794) in *. set (T := 2 ^ 53) in *.
  set (G := 2 ^ 33) in *. set (n32 := 2 ^ 32) in *.
  assert (n32 <= G) by done.
  destruct (Z.ltb_spec (4 * maxChars) (5 * index)).
  - apply Hhigh.
    assert (5 * (maxChars * c) = maxChars * (4 * T + 2)) by (rewrite <- Hc; ring).
    assert ((4 * maxChars + 1) * T <= 5 * index * T)
      by (apply Z.mul_le_mono_nonneg_r; lia).
    clearbody c T G n32. lia.
  - apply Hlow.
    assert (5 * (maxChars * c) = maxChars * (4 * T + 2)) by (rewrite <- Hc; ring).
    assert (5 * index * T <= 4 * maxChars * T)
      by (apply Z.mul_le_mono_nonneg_r; lia).
    clearbody c T G n32. lia.
Qed.

(** X24. The word test [lastSpace > maxChars * 0.8], which the code evaluates
    in binary64, is the integer comparison [5 * lastSpace > 4 * maxChars]:
    the rounding of [maxChars * 0.8] never changes the outcome. *)
Theorem beyond_word_threshold (index maxChars : Z) :
  0 < maxChars < 2 ^ 32 -> -1 <= index < 2 ^ 53 ->
  beyond index maxChars Num.lit_0_8 = true <-> 4 * maxChars < 5 * index.
Proof.
  intros Hn Hi. rewrite beyond_lit_0_8 by done. apply Z.ltb_lt.
Qed.

Lemma beyond_word_threshold_witness :
  beyond 17 20 Num.lit_0_8 = true <-> 4 * 20 < 5 * 17.
Proof.
  apply (beyond_word_threshold 17 20); split; reflexivity || discriminate.
Defined.

Lemma beyond_lit_0_7 (index maxChars : Z) :
  0 < maxChars < 2 ^ 32 -> -1 <= index < 2 ^ 53 ->
  10 * index <> 7 * maxChars ->
  beyond index maxChars Num.lit_0_7 = (7 * maxChars <? 10 * index).
Proof.
  intros Hn Hi Htie.
  destruct (Z.eq_dec index (-1)) as [->|Hne].
  { unfold Num.lit_0_7. rewrite beyond_not_found by lia.
    symmetry. apply Z.ltb_ge. lia. }
  destruct (beyond_scaled index maxChars 6305039478318694 Hn) as [Hlow Hhigh];
    [lia|done|].
  fold Num.lit_0_7 in Hlow, Hhigh.
  pose proof lit_0_7_scaled as Hc.
  assert (0 < 2 ^ 33 /\ 10 * 2 ^ 33 <= 2 ^ 53 /\ 4 * 2 ^ 32 <= 2 ^ 53)
    as (? & ? & ?) by done.
  set (c := 6305039478318694) in *. set (T := 2 ^ 53) in *.
  set (G := 2 ^ 33) in *. set (n32 := 2 ^ 32) in *.
  destruct (Z.ltb_spec (7 * maxChars) (10 * index)).
  - apply Hhigh.
    assert (10 * (maxChars * c) = maxChars * (7 * T - 4)) by (rewrite <- Hc; ring).
    assert ((7 * maxChars + 1) * T <= 10 * index * T)
      by (apply Z.mul_le_mono_nonneg_r; lia).
    clearbody c T G n32. lia.
  - apply Hlow.
    assert (10 * (maxChars * c) = maxChars * (7 * T - 4)) by (rewrite <- Hc; ring).
    assert (10 * index * T <= (7 * maxChars - 1) * T)
      by (apply Z.mul_le_mono_nonneg_r; lia).
    clearbody c T G n32. lia.
Qed.

(** X25. The paragraph and sentence tests [last > maxChars * 0.7], which the
    code evaluates in binary64, are the integer comparison
    [10 * last > 7 * maxChars] at every index but the tie
    [10 * last = 7 * maxChars]. *)
Theorem beyond_paragraph_threshold (index maxChars : Z) :
  0 < maxChars < 2 ^ 32 -> -1 <= index < 2 ^ 53 ->
  10 * index <> 7 * maxChars ->
  beyond index maxChars Num.lit_0_7 = true <-> 7 * maxChars < 10 * index.
Proof.
  intros Hn Hi Htie. rewrite beyond_lit_0_7 by done. apply Z.ltb_lt.
Qed.

Lemma beyond_paragraph_threshold_witness :
  beyond 15 20 Num.lit_0_7 = true <-> 7 * 20 < 10 * 15.
Proof.
  apply (beyond_paragraph_threshold 15 20); [split; reflexivity || discriminate..|lia].
Defined.

(** At a tie the binary64 comparison goes either way: [7 > 10 * 0.7] is
    false, [63 > 90 * 0.7] is true. *)
Lemma beyond_paragraph_tie :
  beyond 7 10 Num.lit_0_7 = false /\ beyond 63 90 Num.lit_0_7 = true.
Proof. split; reflexivity. Qed.

Lemma lastIndexOfAny_bounds (s : string) (pats : list string) :
  -1 <= lastIndexOfAny s pats <= Js.length s.
Proof.
  pose proof (str_length_nonneg s).
  destruct (lastIndexOfAny_spec s pats) as [[-> _]|[(pat & _ & Hocc) _]]; [lia|].
  pose proof (occursAt_nonneg _ _ _ Hocc).
  pose proof (occursAt_bound _ _ _ Hocc).
  pose proof (str_length_nonneg pat). lia.
Qed.

(** X26. [truncateAtBoundary] without floating point: for a text longer than
    [maxChars], with [maxChars] below 2^32 and neither the last paragraph
    break nor the last sentence end of the first [maxChars] characters at
    exactly 70% of [maxChars], the tier is chosen by integer comparisons. *)
Theorem truncateAtBoundary_in_integers (text : string) (maxChars : Z) :
  0 < maxChars < 2 ^ 32 -> maxChars < Js.length text ->
  let cut := Js.take (Z.to_nat maxChars) text in
  let lastPara := lastIndexOfAny cut PARAGRAPH_BREAK in
  let lastSentence := lastIndexOfAny cut SENTENCE_END in
  let lastSpace := lastIndexOfAny cut WORD_BREAK in
  10 * lastPara <> 7 * maxChars -> 10 * lastSentence <> 7 * maxChars ->
  truncateAtBoundary text maxChars =
    if 7 * maxChars <? 10 * lastPara then
      Js.trim (Js.slice cut 0 lastPara) +:+ TRUNCATED_MARK
    else if 7 * maxChars <? 10 * lastSentence then
      Js.trim (Js.slice cut 0 (lastSentence + 1)) +:+ TRUNCATED_MARK
    else if 4 * maxChars <? 5 * lastSpace then
      Js.trim (Js.slice cut 0 lastSpace) +:+ TRUNCATED_MARK_DOTS
    else Js.trim cut +:+ TRUNCATED_MARK_DOTS.
Proof.
  intros Hn Hlong cut lastPara lastSentence lastSpace Hpara Hsentence.
  rewrite truncateAtBoundary_unfold by lia. cbn zeta.
  fold cut. fold lastPara. fold lastSentence. fold lastSpace.
  assert (Js.length cut <= maxChars) as Hcut.
  { unfold cut. rewrite str_length_take. lia. }
  assert (2 ^ 32 <= 2 ^ 53) as Hbig by done.
  pose proof (lastIndexOfAny_bounds cut PARAGRAPH_BREAK).
  pose proof (lastIndexOfAny_bounds cut SENTENCE_END).
  pose proof (lastIndexOfAny_bounds cut WORD_BREAK).
  rewrite (beyond_lit_0_7 lastPara), (beyond_lit_0_7 lastSentence),
    (beyond_lit_0_8 lastSpace); try done; unfold lastPara, lastSentence, lastSpace; lia.
Qed.

Lemma truncateAtBoundary_in_integers_witness :
  truncateAtBoundary "One two three four five six seven eight." 20
    = "One two three four" +:+ TRUNCATED_MARK_DOTS.
Proof.
  rewrite (truncateAtBoundary_in_integers "One two three four five six seven eight." 20);
    [reflexivity|split; reflexivity|reflexivity|by vm_compute|by vm_compute].
Defined.

(** ** Boilerplate patterns *)

Lemma includes_spec (s pat : string) :
  Js.includes s pat = true <-> exists before after, s = before +:+ pat +:+ after.
Proof.
  split.
  - induction s as [|c s IH]; cbn [Js.includes].
    + rewrite orb_false_r. intros [rest E]%startsWith_inv.
      by exists EmptyString, rest.
    + intros [H|H]%orb_prop.
      * apply startsWith_inv in H as [rest E]. by exists EmptyString, rest.
      * destruct (IH H) as (before & after & ->).
        by exists (String c before), after.
  - intros (before & after & ->).
    induction before as [|c before IH].
    + rewrite str_app_nil_l.
      destruct (pat +:+ after) eqn:E; cbn [Js.includes]; rewrite <- ?E;
        by rewrite startsWith_app.
    + rewrite str_app_cons. cbn [Js.includes]. rewrite IH. apply orb_true_r.
Qed.

Lemma includes_trans (s big small : string) :
  Js.includes big small = true -> Js.includes s big = true ->
  Js.includes s small = true.
Proof.
  intros (b1 & a1 & ->)%includes_spec (b2 & a2 & ->)%includes_spec.
  apply includes_spec. exists (b2 +:+ b1), (a1 +:+ a2).
  by rewrite !str_app_assoc.
Qed.

(** A pattern that contains another pattern is found only where that one
    is found. *)
Lemma includes_either (className id big small : string) :
  Js.includes big small = true ->
  Js.includes className big || Js.includes id big = true ->
  Js.includes className small || Js.includes id small = true.
Proof.
  intros H [Hc|Hi]%orb_prop.
  - by rewrite (includes_trans _ _ _ H Hc).
  - rewrite (includes_trans _ _ _ H Hi). apply orb_true_r.
Qed.

Section Boilerplate.
Context `{host : Dom}.

(** X27. Six of the fifteen boilerplate patterns never decide: an element is
    removed exactly when its lower-cased class or id contains one of nav,
    menu, sidebar, footer, ad, social, share, comment, related.  So the
    pattern ad alone removes every element whose class or id contains
    these two letters, header among them. *)
Theorem isBoilerplate_deciding_patterns (document : Document) (el : Element) :
  let className := Js.toLowerCase (orEmpty (getAttribute document el "class")) in
  let id := Js.toLowerCase (orEmpty (getAttribute document el "id")) in
  isBoilerplate document el =
    existsb (fun pattern => Js.includes className pattern || Js.includes id pattern)
            DECIDING_PATTERNS.
Proof.
  cbn zeta. unfold isBoilerplate.
  set (className := Js.toLowerCase _).
  set (id := Js.toLowerCase (orEmpty (getAttribute document el "id"))).
  set (found := fun pattern => _).
  apply eq_iff_eq_true. rewrite !existsb_exists. split.
  - intros (pattern & Hin & Hfound).
    assert (exists deciding,
              deciding ∈ DECIDING_PATTERNS /\ Js.includes pattern deciding = true)
      as (deciding & Hdeciding & Hpart).
    { unfold BOILERPLATE_PATTERNS in Hin. cbn [In] in Hin.
      repeat (destruct Hin as [<-|Hin];
              [match goal with
               | |- exists d, _ /\ Js.includes ?p d = true =>
                   let found := eval vm_compute in
                     (List.find (Js.includes p) DECIDING_PATTERNS) in
                   match found with
                   | Some ?q => exists q; split; [set_solver|reflexivity]
                   end
               end|]).
      done. }
    exists deciding. split; [by apply list_elem_of_In|].
    by apply (includes_either className id pattern deciding).
  - intros (pattern & Hin & Hfound). exists pattern. split; [|done].
    unfold DECIDING_PATTERNS in Hin. cbn [In] in Hin.
    unfold BOILERPLATE_PATTERNS. cbn [In].
    repeat (destruct Hin as [<-|Hin]; [tauto|]). done.
Qed.

End Boilerplate.

(** ** replacePlaceholders *)

Import Toolkit.

Lemma getSubstitution_plain (matched str : string) (position : nat) (value : string) :
  without "$" value = true -> getSubstitution matched str position value = value.
Proof.
  induction value as [|c value IH]; [done|]. cbn [without getSubstitution].
  intros [Hc Hv]%andb_prop. unfold DOLLAR.
  destruct (Ascii.eqb c "$"); [done|]. by rewrite IH.
Qed.

Section Scan.
Variables (pat value str : string).
Hypothesis pat_brace : exists p, pat = String "{" p.

Lemma startsWith_other (c : ascii) (rest : string) :
  Ascii.eqb c "{" = false -> Js.startsWith (String c rest) pat = false.
Proof.
  destruct pat_brace as [p ->]. intros H. cbn [Js.startsWith].
  rewrite Ascii.eqb_sym, H. done.
Qed.

(** Text without an opening brace is copied. *)
Lemma replaceAllFrom_copy (u rest : string) (position : nat) :
  without "{" u = true ->
  replaceAllFrom pat value str position 0 (u +:+ rest) =
    u +:+ replaceAllFrom pat value str (position + String.length u) 0 rest.
Proof.
  revert position. induction u as [|c u IH]; intros position.
  - intros _. rewrite str_app_nil_l. cbn [String.length]. by rewrite Nat.add_0_r.
  - cbn [without]. intros [Hc Hu]%andb_prop. apply negb_true_iff in Hc.
    rewrite !str_app_cons. cbn [replaceAllFrom].
    rewrite startsWith_other by done. rewrite IH by done.
    cbn [String.length]. do 3 f_equal. lia.
Qed.

(** The rest of a match is passed over. *)
Lemma replaceAllFrom_skip (p rest : string) (position : nat) :
  replaceAllFrom pat value str position (String.length p) (p +:+ rest) =
    replaceAllFrom pat value str (position + String.length p) 0 rest.
Proof.
  revert position. induction p as [|c p IH]; intros position.
  - rewrite str_app_nil_l. cbn [String.length]. rewrite Nat.add_0_r.
    by destruct rest.
  - rewrite str_app_cons. cbn [String.length]. 
    change (replaceAllFrom pat value str position (S (String.length p))
              (String c (p +:+ rest)))
      with (replaceAllFrom pat value str (S position) (String.length p) (p +:+ rest)).
    rewrite IH. f_equal. lia.
Qed.

Lemma replaceAllFrom_miss (c : ascii) (r : string) (position : nat) :
  Js.startsWith (String c r) pat = false ->
  replaceAllFrom pat value str position 0 (String c r) =
    String c (replaceAllFrom pat value str (S position) 0 r).
Proof. intros H. cbn [replaceAllFrom]. by rewrite H. Qed.

Lemma replaceAllFrom_hit (c a : ascii) (p r : string) (position : nat) :
  pat = String a p ->
  Js.startsWith (String c r) pat = true ->
  replaceAllFrom pat value str position 0 (String c r) =
    getSubstitution pat str position value +:+
    replaceAllFrom pat value str (S position) (String.length p) r.
Proof. intros E H. cbn [replaceAllFrom]. rewrite H. by rewrite E at 2. Qed.

Lemma replaceAllFrom_end (position : nat) :
  replaceAllFrom pat value str position 0 EmptyString = EmptyString.
Proof. destruct pat_brace as [p E]. cbn [replaceAllFrom]. by rewrite E. Qed.

End Scan.

(** Where a placeholder stands, another placeholder begins only if it is the
    same. *)
Lemma startsWith_key (key key' more : string) :
  without "}" key = true -> without "}" key' = true ->
  Js.startsWith (key' +:+ "}}" +:+ more) (key +:+ "}}") = String.eqb key key'.
Proof.
  revert key'. induction key as [|a key IH]; intros [|b key'];
    cbn [without]; rewrite ?str_app_nil_l, ?str_app_cons.
  - intros _ _. by destruct more.
  - intros _ [Hb _]%andb_prop. apply negb_true_iff in Hb.
    cbn [Js.startsWith String.eqb]. change (String "}" "}" +:+ more) with (String "}" (String "}" more)).
    cbn [Js.startsWith]. by rewrite Ascii.eqb_sym, Hb.
  - intros [Ha _]%andb_prop _. apply negb_true_iff in Ha.
    change ("}}" +:+ more) with (String "}" (String "}" more)).
    cbn [Js.startsWith String.eqb]. by rewrite Ha.
  - intros [_ Hk]%andb_prop [_ Hk']%andb_prop.
    cbn [Js.startsWith String.eqb]. rewrite IH by done.
    by destruct (Ascii.eqb a b).
Qed.

Lemma render_cons (segment : Segment) (segments : list Segment) :
  render (segment :: segments) = renderSegment segment +:+ render segments.
Proof. done. Qed.

Lemma without_app (c : ascii) (a b : string) :
  without c (a +:+ b) = without c a && without c b.
Proof.
  induction a as [|x a IH]; [done|]. rewrite str_app_cons. cbn [without].
  by rewrite IH, andb_assoc.
Qed.

(** One round of replacePlaceholders on a template of plain segments. *)
Lemma replaceAll_segments (key value : string) (segments : list Segment) :
  without "}" key = true -> without "$" value = true ->
  forallb plainSegment segments = true ->
  forall str position,
    replaceAllFrom (placeholder key) value str position 0 (render segments) =
      render (fillSegment [(key, value)] <$> segments).
Proof.
  intros Hkey Hvalue.
  assert (exists p, placeholder key = String "{" p) as Hpat by (by eexists).
  induction segments as [|[text|key'] segments IH]; intros Hplain str position.
  - by apply replaceAllFrom_end.
  - cbn [forallb plainSegment] in Hplain. apply andb_prop in Hplain as [Ht Hplain].
    rewrite fmap_cons, !render_cons. cbn [fillSegment renderSegment].
    rewrite replaceAllFrom_copy by done. by rewrite IH.
  - cbn [forallb plainSegment] in Hplain.
    apply andb_prop in Hplain as [[Hopen Hclose]%andb_prop Hplain].
    rewrite fmap_cons, !render_cons. cbn [fillSegment renderSegment valueOf fst snd].
    assert (placeholder key' +:+ render segments =
            String "{" (String "{" (key' +:+ "}}" +:+ render segments))) as ->.
    { unfold placeholder. by rewrite !str_app_assoc. }
    assert (Js.startsWith (String "{" (String "{" (key' +:+ "}}" +:+ render segments)))
                          (placeholder key) = String.eqb key key') as Hstart.
    { unfold placeholder.
      change ("{{" +:+ key +:+ "}}") with (String "{" (String "{" (key +:+ "}}"))).
      cbn [Js.startsWith]. rewrite startsWith_key by done. done. }
    destruct (String.eqb_spec key key') as [<-|Hne].
    + rewrite (replaceAllFrom_hit _ _ _ "{" "{" ("{" +:+ key +:+ "}}")) by done.
      rewrite getSubstitution_plain by done.
      assert (String "{" (key +:+ "}}" +:+ render segments) =
              ("{" +:+ key +:+ "}}") +:+ render segments) as ->
        by (by rewrite !str_app_assoc).
      rewrite replaceAllFrom_skip, IH by done. done.
    + rewrite replaceAllFrom_miss by done.
      rewrite replaceAllFrom_miss.
      2: { unfold placeholder.
           change ("{{" +:+ key +:+ "}}") with (String "{" (String "{" (key +:+ "}}"))).
           cbn [Js.startsWith]. destruct key' as [|b key'].
           - by rewrite str_app_nil_l.
           - rewrite str_app_cons. cbn [Js.startsWith without] in *.
             apply andb_prop in Hopen as [Hb _]. apply negb_true_iff in Hb.
             by rewrite (Ascii.eqb_sym "{" b), Hb. }
      rewrite <- str_app_assoc.
      rewrite replaceAllFrom_copy, IH; [|done|done|].
      * cbn [renderSegment]. unfold placeholder. by rewrite !str_app_assoc.
      * by rewrite without_app, Hopen.
Qed.

Lemma fillSegment_cons (key value : string) (values : list (string * string))
    (segment : Segment) :
  fillSegment values (fillSegment [(key, value)] segment) =
    fillSegment ((key, value) :: values) segment.
Proof.
  destruct segment as [text|key']; [done|].
  cbn [fillSegment valueOf fst snd]. by destruct (String.eqb key key').
Qed.

Lemma fillSegment_plain (key value : string) (segment : Segment) :
  without "{" value = true -> plainSegment segment = true ->
  plainSegment (fillSegment [(key, value)] segment) = true.
Proof.
  intros Hv. destruct segment as [text|key']; [done|].
  cbn [fillSegment valueOf fst snd]. by destruct (String.eqb key key').
Qed.

Lemma replacePlaceholders_segments (segments : list Segment)
    (values : list (string * string)) :
  forallb plainSegment segments = true ->
  forallb plainEntry values = true ->
  replacePlaceholders (render segments) values =
    render (fillSegment values <$> segments).
Proof.
  revert segments. induction values as [|[key value] values IH];
    intros segments Hsegments Hvalues.
  - unfold replacePlaceholders. cbn [foldl]. f_equal.
    induction segments as [|[text|key] segments IHs]; [done|..];
      cbn [forallb] in Hsegments; apply andb_prop in Hsegments as [_ ?];
      rewrite fmap_cons; cbn [fillSegment valueOf]; by rewrite <- IHs.
  - cbn [forallb] in Hvalues. apply andb_prop in Hvalues as [Hentry Hvalues].
    unfold plainEntry in Hentry. cbn [fst snd] in Hentry.
    apply andb_prop in Hentry as [[Hkey Hdollar]%andb_prop Hbrace].
    unfold replacePlaceholders. cbn [foldl fst snd].
    unfold replaceAll. rewrite replaceAll_segments by done.
    fold (replacePlaceholders (render (fillSegment [(key, value)] <$> segments)) values).
    rewrite IH; [|by apply forallb_forall;
                    intros s (s' & <- & Hs')%in_map_iff;
                    apply fillSegment_plain, (proj1 (forallb_forall _ _) Hsegments)
                 |done].
    f_equal. rewrite <- list_fmap_compose. apply list_fmap_ext.
    intros _ segment _. apply fillSegment_cons.
Qed.

(** X28. Substitution as the templates need it.  For a frontmatter template
    made of text without an opening brace and of placeholders whose names
    hold no brace, and for entries whose keys hold no closing brace and whose
    values hold no dollar and no opening brace, replacePlaceholders puts, for
    every placeholder, the value of the first entry with its name, and
    leaves the placeholders without an entry as they are; assembleFile
    wraps the result between two lines of dashes and appends the prompt body
    untouched, placeholders in the body included. *)
Theorem assembleFile_fills (segments : list Segment)
    (values : list (string * string)) (promptBody : string) :
  forallb plainSegment segments = true ->
  forallb plainEntry values = true ->
  let frontmatter := render (fillSegment values <$> segments) in
  replacePlaceholders (render segments) values = frontmatter /\
  assembleFile (render segments) promptBody values =
    "---" +:+ String Js.LF frontmatter +:+ String Js.LF "---" +:+
    String Js.LF (String Js.LF promptBody).
Proof.
  intros Hsegments Hvalues. cbn zeta. unfold assembleFile.
  by rewrite replacePlaceholders_segments.
Qed.

Lemma assembleFile_fills_witness :
  let frontmatter := "name: web-searcher" +:+ String Js.LF "mode: {{mode}}" in
  replacePlaceholders ("name: {{name}}" +:+ String Js.LF "mode: {{mode}}")
                      [("name", "web-searcher"); ("description", "Quick web search")]
    = frontmatter /\
  assembleFile ("name: {{name}}" +:+ String Js.LF "mode: {{mode}}") "Use {{name}}."
               [("name", "web-searcher"); ("description", "Quick web search")]
    = "---" +:+ String Js.LF frontmatter +:+ String Js.LF "---" +:+
      String Js.LF (String Js.LF "Use {{name}}.").
Proof.
  apply (assembleFile_fills
           [Verbatim "name: "; Hole "name"; Verbatim (String Js.LF "mode: "); Hole "mode"]
           [("name", "web-searcher"); ("description", "Quick web search")]
           "Use {{name}}."); reflexivity.
Defined.

(** A dollar in a value is read as a replacement pattern: the value [$&]
    puts the placeholder back. *)
Lemma replacePlaceholders_dollar :
  replacePlaceholders "name: {{name}}" [("name", "$&")] = "name: {{name}}".
Proof. reflexivity. Qed.

(** ** stripJsoncComments *)

Import Toolkit.

Lemma startsWith_empty (s : string) : Js.startsWith s EmptyString = true.
Proof. by destruct s. Qed.

Lemma split_cons (sep : ascii) (s : string) :
  exists first others, Js.split sep s = first :: others.
Proof.
  destruct s as [|c s]; cbn [Js.split]; [by eexists _, _|].
  destruct (Ascii.eqb c sep); [by eexists _, _|].
  destruct (Js.split sep s); by eexists _, _.
Qed.

Lemma join_cons_char (sep : string) (c : ascii) (first : string) (others : list string) :
  Js.join sep (String c first :: others) = String c (Js.join sep (first :: others)).
Proof. by destruct others. Qed.

(** A text begins with a slash exactly when its first line does. *)
Lemma startsWith_first_line (s first : string) (others : list string) :
  Js.split Js.LF s = first :: others ->
  Js.startsWith s "/" = Js.startsWith first "/".
Proof.
  destruct s as [|c s]; cbn [Js.split].
  - by intros [= <- <-].
  - destruct (Ascii.eqb c Js.LF) eqn:E.
    + intros [= <- <-]. apply Ascii.eqb_eq in E as ->. done.
    + destruct (split_cons Js.LF s) as (h & t & ->). intros [= <- <-].
      cbn [Js.startsWith]. by rewrite !startsWith_empty.
Qed.

(** Outside a comment and inside one, for a text without a quote. *)
Lemma stripFrom_lines (text : string) :
  without DQUOTE text = true ->
  forall first others,
    map beforeComment (Js.split Js.LF text) = first :: others ->
    stripFrom 0 false text = Js.join (String Js.LF EmptyString) (first :: others) /\
    stripFrom 0 true text = Js.join (String Js.LF EmptyString) (EmptyString :: others).
Proof.
  induction text as [|c text IH]; cbn [without].
  - intros _ first others [= <- <-]. done.
  - intros [Hc Htext]%andb_prop first others. apply negb_true_iff in Hc.
    destruct (split_cons Js.LF text) as (h & t & Esplit).
    specialize (IH Htext _ _ (f_equal (map beforeComment) Esplit)) as [IHout IHin].
    cbn [Js.split stripFrom]. rewrite Hc, Esplit.
    destruct (Ascii.eqb c Js.LF) eqn:ELF.
    + apply Ascii.eqb_eq in ELF as ->. cbn [map].
      intros [= <- <-]. change (Ascii.eqb Js.LF SLASH) with false.
      cbn [andb]. rewrite IHout. done.
    + cbn [map beforeComment]. rewrite <- (startsWith_first_line text h t Esplit).
      destruct (Ascii.eqb c SLASH && Js.startsWith text "/") eqn:Ecomment;
        intros [= <- <-].
      * by rewrite IHin.
      * rewrite IHout, IHin. by rewrite join_cons_char.
Qed.

(** X29. In a text without a double quote, stripJsoncComments cuts every line
    at its first [//] and keeps the line feeds. *)
Theorem stripJsoncComments_lines (text : string) :
  without DQUOTE text = true ->
  stripJsoncComments text =
    Js.join (String Js.LF EmptyString) (map beforeComment (Js.split Js.LF text)).
Proof.
  intros Htext. destruct (split_cons Js.LF text) as (h & t & Esplit).
  rewrite Esplit. apply (stripFrom_lines text Htext).
  by rewrite Esplit.
Qed.

Lemma stripJsoncComments_lines_witness :
  stripJsoncComments ("{ // one" +:+ String Js.LF "  // two" +:+ String Js.LF "}")
    = "{ " +:+ String Js.LF "  " +:+ String Js.LF "}".
Proof.
  apply (stripJsoncComments_lines
           ("{ // one" +:+ String Js.LF "  // two" +:+ String Js.LF "}")).
  reflexivity.
Defined.

(** A literal that is closed is seen as closed. *)
Lemma literalLength_body (n : nat) :
  forall body rest,
    (String.length body <= n)%nat -> literalBody body = true ->
    literalLength (body +:+ String DQUOTE rest) = Some (S (String.length body)).
Proof.
  induction n as [|n IH]; intros [|c body] rest Hn; cbn [String.length] in Hn;
    try lia; try done.
  cbn [literalBody]. rewrite str_app_cons. cbn [literalLength String.length].
  destruct (Ascii.eqb c DQUOTE); [done|].
  destruct (Ascii.eqb c BACKSLASH).
  - destruct body as [|d body]; [done|]. rewrite str_app_cons.
    intros [Hd Hbody]%andb_prop. apply negb_true_iff in Hd. rewrite Hd.
    cbn [String.length] in *. rewrite IH by (done || lia). done.
  - intros Hbody. rewrite IH by (done || lia). done.
Qed.

Lemma stripFrom_copy (u rest : string) :
  stripFrom (String.length u) false (u +:+ rest) = u +:+ stripFrom 0 false rest.
Proof.
  induction u as [|c u IH]; [by rewrite str_app_nil_l|].
  rewrite str_app_cons. cbn [String.length stripFrom]. by rewrite IH.
Qed.

Lemma stripFrom_plain (u rest : string) :
  without DQUOTE u = true -> without SLASH u = true ->
  stripFrom 0 false (u +:+ rest) = u +:+ stripFrom 0 false rest.
Proof.
  induction u as [|c u IH]; [by rewrite str_app_nil_l|].
  cbn [without]. intros [Hq Hu]%andb_prop [Hs Hu']%andb_prop.
  apply negb_true_iff in Hq, Hs.
  rewrite str_app_cons. cbn [stripFrom]. rewrite Hq, Hs. cbn [andb].
  by rewrite IH.
Qed.

(** X30. A string literal is kept as it is, whatever it holds, [//] included:
    after text without a quote and without a slash, a quote, a body of
    plain characters and escapes, and a closing quote pass unchanged, and
    the scan goes on behind them. *)
Theorem stripJsoncComments_keeps_literal (before body rest : string) :
  without DQUOTE before = true -> without SLASH before = true ->
  literalBody body = true ->
  stripJsoncComments (before +:+ QUOTED body +:+ rest) =
    before +:+ QUOTED body +:+ stripJsoncComments rest.
Proof.
  intros Hq Hs Hbody. unfold stripJsoncComments, QUOTED.
  rewrite stripFrom_plain by done. f_equal.
  rewrite !str_app_cons. cbn [stripFrom].
  change (Ascii.eqb DQUOTE DQUOTE) with true. cbn match.
  rewrite str_app_assoc, str_app_cons, str_app_nil_l.
  rewrite (literalLength_body (String.length body)) by done.
  f_equal.
  assert (body +:+ String DQUOTE rest = (body +:+ String DQUOTE EmptyString) +:+ rest) as E
    by (by rewrite str_app_assoc).
  rewrite E.
  replace (S (String.length body))
    with (String.length (body +:+ String DQUOTE EmptyString)).
  - by rewrite stripFrom_copy.
  - clear. induction body as [|c body IH]; [done|].
    rewrite str_app_cons. cbn [String.length]. by rewrite IH.
Qed.

Lemma stripJsoncComments_keeps_literal_witness :
  stripJsoncComments
    ("  " +:+ QUOTED "$schema" +:+ ": " +:+ QUOTED "https://opencode.ai/config.json"
     +:+ ", // the schema")
    = "  " +:+ QUOTED "$schema" +:+
      stripJsoncComments (": " +:+ QUOTED "https://opencode.ai/config.json"
                          +:+ ", // the schema").
Proof.
  apply (stripJsoncComments_keeps_literal "  " "$schema"); reflexivity.
Defined.
